(** * OvenMediaEngine: the CMAF packetizer and the configuration data source

    A shallow embedding of
    - [src/projects/publishers/cmaf/cmaf_packetyzer.cpp] (module [Cmaf]) and
    - [src/projects/config/engine/data_source.cpp] (module [Cfg]),
    with the library semantics they rest on (printf-style formatting, stream
    insertion of numbers, IEEE-754 doubles) in the modules [Text], [OvString]
    and [Num].

    Doubles are Rocq's primitive binary64 floats, so the arithmetic of the
    source is evaluated bit for bit. *)

From Stdlib Require Import ZArith NArith Bool List Lia.
From Stdlib.Strings Require Import String Ascii Byte.
From Stdlib Require Import Decimal DecimalString DecimalPos DecimalN.
From Stdlib Require Import Floats Uint63.
Import ListNotations.

Set Warnings "-register-all".

Open Scope string_scope.

(* ================================================================== *)
(** * Text: C strings and output streams *)
(* ================================================================== *)
Module Text.

(** The three characters a Rocq literal cannot hold directly. *)
Definition dq : string := String (ascii_of_nat 34) EmptyString.
Definition nl : string := String (ascii_of_nat 10) EmptyString.
Definition tab : string := String (ascii_of_nat 9) EmptyString.

(** [q s] is [s] between double quotes, as in [name=\"s\"]. *)
Definition q (s : string) : string := dq ++ s ++ dq.

(** An [std::ostringstream] is the list of the pieces inserted so far;
    [str] is what [.str()] returns. *)
Definition ostringstream := list string.

Definition str (os : ostringstream) : string :=
  fold_right String.append EmptyString os.

(** No conversion specification: the text does not hold a percent sign. *)
Fixpoint percent_free (s : string) : bool :=
  match s with
  | EmptyString => true
  | String c rest => negb (Ascii.eqb c "%") && percent_free rest
  end.

(** The text that follows the first occurrence of [pat] in [s]. *)
Fixpoint after_first (pat s : string) : option string :=
  if String.prefix pat s then Some (substring (String.length pat) (String.length s) s)
  else match s with
       | EmptyString => None
       | String _ rest => after_first pat rest
       end.

(** The text up to the next double quote. *)
Fixpoint up_to_quote (s : string) : string :=
  match s with
  | EmptyString => EmptyString
  | String c rest =>
      if Ascii.eqb c (ascii_of_nat 34) then EmptyString
      else String c (up_to_quote rest)
  end.

(** The value of the first attribute [name="..."] of a text. *)
Definition attribute (name text : string) : option string :=
  option_map up_to_quote (after_first (name ++ "=" ++ dq) text).

(** The value of the UTCTiming element of a manifest. *)
Definition utc_timing_value (text : string) : option string :=
  match after_first "<UTCTiming" text with
  | Some rest => attribute "value" rest
  | None => None
  end.

End Text.

Import Text.

(* ================================================================== *)
(** * OvString: [ov::String::FormatString] *)
(* ================================================================== *)
Module OvString.

(** The variadic arguments the two call sites pass: C strings and
    [unsigned int]s (the sequence numbers, which stay below [2^32] for any
    stream that can be run). *)
Inductive FormatArg :=
| ArgS (s : string)
| ArgU (n : N).

(** Decimal digits of a natural number, as [%u] and [operator<<] print. *)
Definition show_N (n : N) : string := NilZero.string_of_uint (N.to_uint n).

(** printf-style formatting, for the conversions the source uses: [%s]
    takes the next argument, a string; [%u] takes the next argument, an
    unsigned integer; [%%] is a percent sign. Any other use of [%], a missing
    argument or an argument of the wrong kind is undefined behaviour in C:
    the model has no result there ([None]), whatever a C library then does
    (some copy an unknown conversion through). Flags and widths do not occur
    in the formats of the source and are not modelled. *)
Fixpoint FormatString (fmt : string) (args : list FormatArg) : option string :=
  match fmt with
  | EmptyString => Some EmptyString
  | String c rest =>
      if Ascii.eqb c "%" then
        match rest with
        | EmptyString => None
        | String d rest' =>
            if Ascii.eqb d "s" then
              match args with
              | ArgS a :: args' =>
                  option_map (String.append a) (FormatString rest' args')
              | _ => None
              end
            else if Ascii.eqb d "u" then
              match args with
              | ArgU n :: args' =>
                  option_map (String.append (show_N n)) (FormatString rest' args')
              | _ => None
              end
            else if Ascii.eqb d "%" then
              option_map (String "%") (FormatString rest' args)
            else None
        end
      else option_map (String c) (FormatString rest args)
  end.

End OvString.

Import OvString.

(* ================================================================== *)
(** * Num: doubles, casts and stream insertion of numbers *)
(* ================================================================== *)
Module Num.

(** A C++ [double] is an IEEE-754 binary64 number. *)
Definition double : Set := float.

(** [(double)z], exact for the 32-bit values and the timestamps cast here. *)
Definition double_of_Z (z : Z) : double :=
  if (z <? 0)%Z
  then PrimFloat.opp (PrimFloat.of_uint63 (Uint63.of_Z (- z)))
  else PrimFloat.of_uint63 (Uint63.of_Z z).

(** [d != 0] on doubles: false for both zeros, true for NaN. *)
Definition nonzero (d : double) : bool := negb (PrimFloat.eqb d 0%float).

(** Truncation toward zero of a finite double. *)
Definition truncate (d : double) : option Z :=
  match Prim2SF d with
  | S754_zero _ => Some 0%Z
  | S754_finite s m e =>
      let a := Z.shiftl (Z.pos m) e in
      Some (if s then (- a)%Z else a)
  | S754_infinity _ | S754_nan => None
  end.

(** [static_cast<int64_t>(d)]. Out of range the cast is undefined in C++;
    the model answers what the x86-64 conversion instruction does there. *)
Definition double_to_int64 (d : double) : Z :=
  match truncate d with
  | Some z =>
      if ((- 2 ^ 63 <=? z) && (z <? 2 ^ 63))%Z then z else (- 2 ^ 63)%Z
  | None => (- 2 ^ 63)%Z
  end.

(** [static_cast<uint32_t>(d)]: the low 32 bits of the 64-bit conversion. *)
Definition double_to_uint32 (d : double) : Z :=
  (double_to_int64 d mod 2 ^ 32)%Z.

(** [os << z] for an integer. *)
Definition show_Z (z : Z) : string := NilZero.string_of_int (Z.to_int z).

(** [num / 2^sh] rounded to the nearest integer, ties to even: the rounding
    of the C library when it prints a double. *)
Definition round_half_even (num sh : Z) : Z :=
  let d := (2 ^ sh)%Z in
  let qt := (num / d)%Z in
  let r := (num mod d)%Z in
  if (2 * r <? d)%Z then qt
  else if (d <? 2 * r)%Z then (qt + 1)%Z
  else if Z.even qt then qt else (qt + 1)%Z.

(** Three digits, zero padded. *)
Definition pad3 (n : N) : string :=
  (if (n <? 10)%N then "00" else if (n <? 100)%N then "0" else "") ++ show_N n.

(** [os << std::fixed << std::setprecision(3) << d]. *)
Definition show_fixed3 (d : double) : string :=
  match Prim2SF d with
  | S754_zero s => (if s then "-" else "") ++ "0.000"
  | S754_infinity s => if s then "-inf" else "inf"
  | S754_nan => "nan"
  | S754_finite s m e =>
      let thousandths :=
        if (0 <=? e)%Z then (Z.pos m * 1000 * 2 ^ e)%Z
        else round_half_even (Z.pos m * 1000) (- e) in
      (if s then "-" else "")
        ++ show_N (Z.to_N (thousandths / 1000)) ++ "."
        ++ pad3 (Z.to_N (thousandths mod 1000))
  end.

End Num.

Import Num.

(* ================================================================== *)
(** * Cmaf: [CmafPacketyzer] *)
(* ================================================================== *)
Module Cmaf.

(** [ov::Data]: a buffer of bytes. *)
Definition Data : Set := list byte.

(** [common::MediaType], the two kinds the packetizer switches on. *)
Inductive MediaType := Video | Audio.

(** [MediaTrack], read through its getters only. The class is declared
    outside [src/]; each field holds what the getter of that name returns,
    with the type its use in [UpdatePlayList] shows: the frame rate divides
    [1.0] and is compared with zero, the sample rate is divided by the
    integer [1024] and cast to [double], the time base answers doubles. *)
Record MediaTrack := {
  GetFrameRate : double;
  GetWidth : Z;
  GetHeight : Z;
  GetBitrate : Z;
  GetSampleRate : Z;
  GetChannelCounts : Z;   (* GetChannel().GetCounts() *)
  GetTimescale : double;  (* GetTimeBase().GetTimescale() *)
  GetExpr : double        (* GetTimeBase().GetExpr() *)
}.

(** [SampleData]: one encoded access unit handed to the append callbacks. *)
Record SampleData := {
  duration : Z;
  timestamp : Z;
  data : Data
}.

(** Modelled from the spec: [CmafChunkWriter], whose source is not under
    [src/]. It keeps what its constructor is given (the media type, the track
    id and the chunked flag; the initial fragment number only enters the
    bytes it builds) and the spec's FragmentState: the accumulated sample
    count, the start timestamp of the open fragment (set by the first sample
    appended since the last [Clear]), the accumulated duration and the
    running payload (the concatenation of the chunks emitted since the last
    [Clear]). *)
Record CmafChunkWriter := {
  writer_media_type : MediaType;
  writer_track_id : N;
  writer_chunked : bool;
  sample_count : N;
  start_timestamp : Z;
  segment_duration : Z;
  chunked_segment : Data
}.

Definition new_CmafChunkWriter (media_type : MediaType) (sequence_number track_id : N)
    (chunked : bool) : CmafChunkWriter :=
  {| writer_media_type := media_type;
     writer_track_id := track_id;
     writer_chunked := chunked;
     sample_count := 0;
     start_timestamp := 0;
     segment_duration := 0;
     chunked_segment := [] |}.

Definition GetSampleCount (w : CmafChunkWriter) : N := sample_count w.
Definition GetStartTimestamp (w : CmafChunkWriter) : Z := start_timestamp w.
Definition GetSegmentDuration (w : CmafChunkWriter) : Z := segment_duration w.
Definition GetChunkedSegment (w : CmafChunkWriter) : Data := chunked_segment w.

(** Modelled from the spec: [Clear] resets the accumulated state to empty,
    starting a new fragment. *)
Definition Clear (w : CmafChunkWriter) : CmafChunkWriter :=
  {| writer_media_type := writer_media_type w;
     writer_track_id := writer_track_id w;
     writer_chunked := writer_chunked w;
     sample_count := 0;
     start_timestamp := 0;
     segment_duration := 0;
     chunked_segment := [] |}.

(** [SegmentData]: one stored segment record. *)
Record SegmentData := {
  seg_media_type : MediaType;
  seg_sequence_number : N;
  seg_file_name : string;
  seg_timestamp : Z;
  seg_duration : Z;
  seg_data : Data
}.

(** The debug lines ([logtd]) of the file. *)
Inductive LogMessage :=
| NoVideoData                          (* "There is no video data for CMAF segment" *)
| NoAudioData                          (* "There is no audio data for CMAF segment" *)
| TryingToUpdatePlaylist               (* "Trying to update playlist for CMAF..." *)
| TimeDifference (a_v audio video : Z) (* "Time difference: A-V: ..." *)
| RequestedBeforeStart.                (* "A playlist was requested before the stream began" *)

(** What a call sends out: the two notifications of [ICmafChunkedTransfer]
    and the log lines. *)
Inductive Event :=
| OnCmafChunkDataPush (app stream file : string) (is_video : bool) (chunk : Data)
| OnCmafChunkedComplete (app stream file : string) (is_video : bool)
| Logtd (m : LogMessage).

Definition is_sink_event (e : Event) : bool :=
  match e with
  | Logtd _ => false
  | _ => true
  end.

Definition is_time_difference (e : Event) : bool :=
  match e with
  | Logtd (TimeDifference _ _ _) => true
  | _ => false
  end.

(** The members the constructors set once. [_chunked_transfer] tells whether
    the sink pointer is non-null. [_segment_duration] is the [uint32_t]
    constructor argument of that name, a whole number of seconds, and is
    inserted into the play list as such. *)
Record Settings := {
  _app_name : string;
  _stream_name : string;
  _segment_prefix : string;
  _segment_save_count : nat;
  _segment_duration : Z;
  _video_track : option MediaTrack;
  _audio_track : option MediaTrack;
  _chunked_transfer : bool;
  _start_time : string;
  _pixel_aspect_ratio : string
}.

(** The packetizer: its settings and the members its methods assign. A null
    [unique_ptr] or [shared_ptr] is [None]. The two sequence numbers are
    declared and incremented in the base class, outside [src/]; following the
    spec they are counters that only grow, natural numbers here. *)
Record CmafPacketyzer := {
  settings : Settings;
  _video_chunk_writer : option CmafChunkWriter;
  _audio_chunk_writer : option CmafChunkWriter;
  _video_sequence_number : N;
  _audio_sequence_number : N;
  _video_segments : list SegmentData;
  _audio_segments : list SegmentData;
  _streaming_start : bool;
  _play_list : string;
  _last_video_pts : Z;
  _last_audio_pts : Z
}.

Definition set_video_chunk_writer (w : option CmafChunkWriter) (p : CmafPacketyzer) :=
  {| settings := settings p;
     _video_chunk_writer := w;
     _audio_chunk_writer := _audio_chunk_writer p;
     _video_sequence_number := _video_sequence_number p;
     _audio_sequence_number := _audio_sequence_number p;
     _video_segments := _video_segments p;
     _audio_segments := _audio_segments p;
     _streaming_start := _streaming_start p;
     _play_list := _play_list p;
     _last_video_pts := _last_video_pts p;
     _last_audio_pts := _last_audio_pts p |}.

Definition set_audio_chunk_writer (w : option CmafChunkWriter) (p : CmafPacketyzer) :=
  {| settings := settings p;
     _video_chunk_writer := _video_chunk_writer p;
     _audio_chunk_writer := w;
     _video_sequence_number := _video_sequence_number p;
     _audio_sequence_number := _audio_sequence_number p;
     _video_segments := _video_segments p;
     _audio_segments := _audio_segments p;
     _streaming_start := _streaming_start p;
     _play_list := _play_list p;
     _last_video_pts := _last_video_pts p;
     _last_audio_pts := _last_audio_pts p |}.

Definition set_video_segment (n : N) (l : list SegmentData) (p : CmafPacketyzer) :=
  {| settings := settings p;
     _video_chunk_writer := _video_chunk_writer p;
     _audio_chunk_writer := _audio_chunk_writer p;
     _video_sequence_number := n;
     _audio_sequence_number := _audio_sequence_number p;
     _video_segments := l;
     _audio_segments := _audio_segments p;
     _streaming_start := _streaming_start p;
     _play_list := _play_list p;
     _last_video_pts := _last_video_pts p;
     _last_audio_pts := _last_audio_pts p |}.

Definition set_audio_segment (n : N) (l : list SegmentData) (p : CmafPacketyzer) :=
  {| settings := settings p;
     _video_chunk_writer := _video_chunk_writer p;
     _audio_chunk_writer := _audio_chunk_writer p;
     _video_sequence_number := _video_sequence_number p;
     _audio_sequence_number := n;
     _video_segments := _video_segments p;
     _audio_segments := l;
     _streaming_start := _streaming_start p;
     _play_list := _play_list p;
     _last_video_pts := _last_video_pts p;
     _last_audio_pts := _last_audio_pts p |}.

Definition set_streaming_start (b : bool) (p : CmafPacketyzer) :=
  {| settings := settings p;
     _video_chunk_writer := _video_chunk_writer p;
     _audio_chunk_writer := _audio_chunk_writer p;
     _video_sequence_number := _video_sequence_number p;
     _audio_sequence_number := _audio_sequence_number p;
     _video_segments := _video_segments p;
     _audio_segments := _audio_segments p;
     _streaming_start := b;
     _play_list := _play_list p;
     _last_video_pts := _last_video_pts p;
     _last_audio_pts := _last_audio_pts p |}.

Definition set_play_list (s : string) (p : CmafPacketyzer) :=
  {| settings := settings p;
     _video_chunk_writer := _video_chunk_writer p;
     _audio_chunk_writer := _audio_chunk_writer p;
     _video_sequence_number := _video_sequence_number p;
     _audio_sequence_number := _audio_sequence_number p;
     _video_segments := _video_segments p;
     _audio_segments := _audio_segments p;
     _streaming_start := _streaming_start p;
     _play_list := s;
     _last_video_pts := _last_video_pts p;
     _last_audio_pts := _last_audio_pts p |}.

Definition set_last_video_pts (t : Z) (p : CmafPacketyzer) :=
  {| settings := settings p;
     _video_chunk_writer := _video_chunk_writer p;
     _audio_chunk_writer := _audio_chunk_writer p;
     _video_sequence_number := _video_sequence_number p;
     _audio_sequence_number := _audio_sequence_number p;
     _video_segments := _video_segments p;
     _audio_segments := _audio_segments p;
     _streaming_start := _streaming_start p;
     _play_list := _play_list p;
     _last_video_pts := t;
     _last_audio_pts := _last_audio_pts p |}.

Definition set_last_audio_pts (t : Z) (p : CmafPacketyzer) :=
  {| settings := settings p;
     _video_chunk_writer := _video_chunk_writer p;
     _audio_chunk_writer := _audio_chunk_writer p;
     _video_sequence_number := _video_sequence_number p;
     _audio_sequence_number := _audio_sequence_number p;
     _video_segments := _video_segments p;
     _audio_segments := _audio_segments p;
     _streaming_start := _streaming_start p;
     _play_list := _play_list p;
     _last_video_pts := _last_video_pts p;
     _last_audio_pts := t |}.

(** ** The method monad

    A method reads and assigns the members, sends events out, and has no
    result where C++ leaves the behaviour undefined (a null pointer
    dereferenced, a malformed format string). *)
Definition M (A : Type) : Type :=
  CmafPacketyzer -> option (A * CmafPacketyzer * list Event).

Definition ret {A} (a : A) : M A := fun p => Some (a, p, []).

Definition bind {A B} (m : M A) (k : A -> M B) : M B :=
  fun p =>
    match m p with
    | None => None
    | Some (a, p1, e1) =>
        match k a p1 with
        | None => None
        | Some (b, p2, e2) => Some (b, p2, (e1 ++ e2)%list)
        end
    end.

Definition this : M CmafPacketyzer := fun p => Some (p, p, []).
Definition assign (f : CmafPacketyzer -> CmafPacketyzer) : M unit :=
  fun p => Some (tt, f p, []).
Definition emit (e : Event) : M unit := fun p => Some (tt, p, [e]).
Definition undefined {A} : M A := fun _ => None.

(** [*ptr], [ptr->...]: undefined on a null pointer. *)
Definition deref {A} (ptr : option A) : M A :=
  match ptr with
  | Some a => ret a
  | None => undefined
  end.

Definition defined {A} (o : option A) : M A := deref o.

Notation "x <- m ;; k" := (bind m (fun x => k))
  (at level 61, m at next level, right associativity).
Notation "m ;;; k" := (bind m (fun _ => k))
  (at level 61, right associativity).

(** What the environment answers during one call: the wall clock, in
    milliseconds since the epoch ([::time(nullptr)] is its whole seconds),
    and whether the storage takes the record handed to it. *)
Record World := {
  clock_ms : Z;
  storage_ok : bool
}.

Definition time (w : World) : Z := (clock_ms w / 1000)%Z.


(** What the file takes from outside [src/]: the file-name macros of
    [cmaf_private.h], the time formatters of the base classes (of a
    [time_t], and of the clock read in milliseconds), and the ISO-BMFF bytes
    of one chunk (a fragment header and a data box over the new sample), when
    the writer emits one. *)
Class Externals := {
  CMAF_MPD_VIDEO_FULL_SUFFIX : string;
  CMAF_MPD_AUDIO_FULL_SUFFIX : string;
  CMAF_MPD_VIDEO_FULL_INIT_FILE_NAME : string;
  CMAF_MPD_AUDIO_FULL_INIT_FILE_NAME : string;
  MakeUtcSecond : Z -> string;
  MakeUtcMillisecond : Z -> string;
  make_chunk : CmafChunkWriter -> SampleData -> option Data
}.

Section Packetyzer.

Context {ext : Externals}.

(** Modelled from the spec: [CmafChunkWriter::AppendSample] adds one sample
    to the open fragment and may return the chunk it emits for it. *)
Definition AppendSample (w : CmafChunkWriter) (s : SampleData)
    : CmafChunkWriter * option Data :=
  let chunk := make_chunk w s in
  ({| writer_media_type := writer_media_type w;
      writer_track_id := writer_track_id w;
      writer_chunked := writer_chunked w;
      sample_count := sample_count w + 1;
      start_timestamp :=
        if (sample_count w =? 0)%N then timestamp s else start_timestamp w;
      segment_duration := (segment_duration w + duration s)%Z;
      chunked_segment :=
        (chunked_segment w ++ match chunk with Some c => c | None => [] end)%list |},
   chunk).

(** ** [CmafPacketyzer::GetFileName] ([start_timestamp] is not used) *)
Definition GetFileName (start_timestamp : Z) (media_type : MediaType) : M string :=
  p <- this;;
  match media_type with
  | Video =>
      defined (FormatString "%s_%u%s"
        [ArgS (_segment_prefix (settings p)); ArgU (_video_sequence_number p);
         ArgS CMAF_MPD_VIDEO_FULL_SUFFIX])
  | Audio =>
      defined (FormatString "%s_%u%s"
        [ArgS (_segment_prefix (settings p)); ArgU (_audio_sequence_number p);
         ArgS CMAF_MPD_AUDIO_FULL_SUFFIX])
  end.

(** ** The callbacks of [AppendVideoFrame] and [AppendAudioFrame]

    [AppendVideoFrameInternal] and [AppendAudioFrameInternal] belong to the
    base class; the lambdas they are handed are the code of this file. *)
Definition AppendVideoFrame_callback (data : SampleData) : M unit :=
  p <- this;;
  writer <- deref (_video_chunk_writer p);;
  let (writer', chunk_data) := AppendSample writer data in
  assign (set_video_chunk_writer (Some writer'));;;
  match chunk_data with
  | Some chunk =>
      if _chunked_transfer (settings p) then
        file_name <- GetFileName 0 Video;;
        emit (OnCmafChunkDataPush (_app_name (settings p)) (_stream_name (settings p))
                file_name true chunk)
      else ret tt
  | None => ret tt
  end;;;
  assign (set_last_video_pts (timestamp data)).

Definition AppendAudioFrame_callback (data : SampleData) : M unit :=
  p <- this;;
  writer <- deref (_audio_chunk_writer p);;
  let (writer', chunk_data) := AppendSample writer data in
  assign (set_audio_chunk_writer (Some writer'));;;
  match chunk_data with
  | Some chunk =>
      if _chunked_transfer (settings p) then
        file_name <- GetFileName 0 Audio;;
        emit (OnCmafChunkDataPush (_app_name (settings p)) (_stream_name (settings p))
                file_name false chunk)
      else ret tt
  | None => ret tt
  end;;;
  assign (set_last_audio_pts (timestamp data)).

(** ** [CmafPacketyzer::UpdatePlayList] *)

(** Line 186: the availability time offset of the video adaptation set. *)
Definition video_availability_time_offset (seg_duration : Z) (track : MediaTrack)
    : double :=
  if nonzero (GetFrameRate track)
  then PrimFloat.sub (double_of_Z seg_duration)
                     (PrimFloat.div 1%float (GetFrameRate track))
  else double_of_Z seg_duration.

(** Line 207: the same for audio; the guard divides integers, the offset
    divides doubles. *)
Definition audio_availability_time_offset (seg_duration : Z) (track : MediaTrack)
    : double :=
  if negb (Z.quot (GetSampleRate track) 1024 =? 0)%Z
  then PrimFloat.sub (double_of_Z seg_duration)
         (PrimFloat.div 1%float
            (PrimFloat.div (double_of_Z (GetSampleRate track)) 1024%float))
  else double_of_Z seg_duration.

(** Lines 168-177, up to the opening quote of [publishTime]. *)
Definition mpd_open (minimumUpdatePeriod : double) : ostringstream :=
  [ "<?xml version=" ++ q "1.0" ++ " encoding=" ++ q "utf-8" ++ "?>" ++ nl
    ++ "<MPD xmlns:xsi=" ++ q "http://www.w3.org/2001/XMLSchema-instance" ++ nl
    ++ tab ++ "xmlns=" ++ q "urn:mpeg:dash:schema:mpd:2011" ++ nl
    ++ tab ++ "xmlns:xlink=" ++ q "http://www.w3.org/1999/xlink" ++ nl
    ++ tab ++ "xsi:schemaLocation="
    ++ q "urn:mpeg:DASH:schema:MPD:2011 http://standards.iso.org/ittf/PubliclyAvailableStandards/MPEG-DASH_schema_files/DASH-MPD.xsd"
    ++ nl
    ++ tab ++ "profiles=" ++ q "urn:mpeg:dash:profile:isoff-live:2011" ++ nl
    ++ tab ++ "type=" ++ q "dynamic" ++ nl;
    tab ++ "minimumUpdatePeriod=" ++ dq ++ "PT"; show_fixed3 minimumUpdatePeriod;
    "S" ++ dq ++ nl;
    tab ++ "publishTime=" ++ dq ].

(** Lines 177-182, from the closing quote of [publishTime]. *)
Definition mpd_attributes (p : CmafPacketyzer) (time_shift_buffer_depth : double)
    : ostringstream :=
  [ dq ++ nl;
    tab ++ "availabilityStartTime=" ++ dq; _start_time (settings p); dq ++ nl;
    tab ++ "timeShiftBufferDepth=" ++ dq ++ "PT"; show_fixed3 time_shift_buffer_depth;
    "S" ++ dq ++ nl;
    tab ++ "suggestedPresentationDelay=" ++ dq ++ "PT";
    show_Z (_segment_duration (settings p)); "S" ++ dq ++ nl;
    tab ++ "minBufferTime=" ++ dq ++ "PT";
    show_Z (_segment_duration (settings p)); "S" ++ dq ++ ">" ++ nl;
    tab ++ "<Period id=" ++ q "0" ++ " start=" ++ q "PT0S" ++ ">" ++ nl ].

(** Lines 188-200. *)
Definition video_adaptation_set (p : CmafPacketyzer) (track : MediaTrack)
    : ostringstream :=
  let availability_time_offset :=
    video_availability_time_offset (_segment_duration (settings p)) track in
  [ tab ++ tab ++ "<AdaptationSet id=" ++ q "0" ++ " group=" ++ q "1"
    ++ " mimeType=" ++ q "video/mp4" ++ " ";
    "width=" ++ dq; show_Z (GetWidth track); dq ++ " height=" ++ dq;
    show_Z (GetHeight track);
    dq ++ " par=" ++ dq; _pixel_aspect_ratio (settings p);
    dq ++ " frameRate=" ++ dq; show_fixed3 (GetFrameRate track);
    dq ++ " segmentAlignment=" ++ q "true" ++ " startWithSAP=" ++ q "1"
    ++ " subsegmentAlignment=" ++ q "true" ++ " subsegmentStartsWithSAP=" ++ q "1"
    ++ ">" ++ nl;
    tab ++ tab ++ tab ++ "<SegmentTemplate presentationTimeOffset=" ++ q "0"
    ++ " timescale=" ++ dq;
    show_Z (double_to_uint32 (GetTimescale track));
    dq ++ " duration=" ++ dq;
    show_Z (double_to_uint32
              (PrimFloat.mul (double_of_Z (_segment_duration (settings p)))
                             (GetTimescale track)));
    dq ++ " availabilityTimeOffset=" ++ dq; show_fixed3 availability_time_offset;
    dq ++ " startNumber=" ++ q "1" ++ " initialization=" ++ dq;
    CMAF_MPD_VIDEO_FULL_INIT_FILE_NAME;
    dq ++ " media=" ++ dq; _segment_prefix (settings p); "_$Number$";
    CMAF_MPD_VIDEO_FULL_SUFFIX; dq ++ " />" ++ nl;
    tab ++ tab ++ tab ++ "<Representation codecs=" ++ q "avc1.42401f"
    ++ " sar=" ++ q "1:1" ++ " ";
    "bandwidth=" ++ dq; show_Z (GetBitrate track); dq ++ " />" ++ nl;
    tab ++ tab ++ "</AdaptationSet>" ++ nl ].

(** Lines 209-221. *)
Definition audio_adaptation_set (p : CmafPacketyzer) (track : MediaTrack)
    : ostringstream :=
  let availability_time_offset :=
    audio_availability_time_offset (_segment_duration (settings p)) track in
  [ tab ++ tab ++ "<AdaptationSet id=" ++ q "1" ++ " group=" ++ q "2"
    ++ " mimeType=" ++ q "audio/mp4" ++ " lang=" ++ q "und"
    ++ " segmentAlignment=" ++ q "true" ++ " ";
    "startWithSAP=" ++ q "1" ++ " subsegmentAlignment=" ++ q "true"
    ++ " subsegmentStartsWithSAP=" ++ q "1" ++ ">" ++ nl;
    tab ++ tab ++ tab ++ "<AudioChannelConfiguration schemeIdUri="
    ++ q "urn:mpeg:dash:23003:3:audio_channel_configuration:2011" ++ " ";
    "value=" ++ dq; show_Z (GetChannelCounts track); dq ++ "/>" ++ nl;
    tab ++ tab ++ tab ++ "<SegmentTemplate presentationTimeOffset=" ++ q "0"
    ++ " timescale=" ++ dq;
    show_Z (double_to_uint32 (GetTimescale track));
    dq ++ " duration=" ++ dq;
    show_Z (double_to_uint32
              (PrimFloat.mul (double_of_Z (_segment_duration (settings p)))
                             (GetTimescale track)));
    dq ++ " availabilityTimeOffset=" ++ dq; show_fixed3 availability_time_offset;
    dq ++ " startNumber=" ++ q "1" ++ " initialization=" ++ dq;
    CMAF_MPD_AUDIO_FULL_INIT_FILE_NAME;
    dq ++ " media=" ++ dq; _segment_prefix (settings p); "_$Number$";
    CMAF_MPD_AUDIO_FULL_SUFFIX; dq ++ " />" ++ nl;
    tab ++ tab ++ tab ++ "<Representation codecs=" ++ q "mp4a.40.2"
    ++ " audioSamplingRate=" ++ dq; show_Z (GetSampleRate track);
    dq ++ " bandwidth=" ++ dq; show_Z (GetBitrate track); dq ++ " />" ++ nl;
    tab ++ tab ++ "</AdaptationSet>" ++ nl ].

(** Lines 224-226: the text around the only conversion of the cached
    play list, the [%s] of the UTCTiming value. *)
Definition utc_timing_open : string :=
  tab ++ "<UTCTiming schemeIdUri=" ++ q "urn:mpeg:dash:utc:direct:2014"
  ++ " value=" ++ dq.

Definition utc_timing_close : string := dq ++ "/>" ++ nl.

Definition period_close : string := tab ++ "</Period>" ++ nl.

Definition mpd_close : ostringstream :=
  [ period_close;
    utc_timing_open ++ "%s" ++ utc_timing_close;
    "</MPD>" ++ nl ].

(** Modelled from the spec: [SetPlayList] of the base class caches the
    rendered text for later reads ([GetPlayList] reads [_play_list]). *)
Definition SetPlayList (play_list : string) : M unit :=
  assign (set_play_list play_list).

Definition UpdatePlayList (w : World) : M bool :=
  p <- this;;
  let time_shift_buffer_depth := 6%float in
  let minimumUpdatePeriod := 30%float in
  emit (Logtd TryingToUpdatePlaylist);;;
  let head :=
    (mpd_open minimumUpdatePeriod ++ [MakeUtcSecond (time w)]
     ++ mpd_attributes p time_shift_buffer_depth)%list in
  video <- (if (1 <? _video_sequence_number p)%N
            then track <- deref (_video_track (settings p));;
                 ret (video_adaptation_set p track)
            else ret []);;
  audio <- (if (1 <? _audio_sequence_number p)%N
            then track <- deref (_audio_track (settings p));;
                 ret (audio_adaptation_set p track)
            else ret []);;
  let play_list_stream := (head ++ video ++ audio ++ mpd_close)%list in
  let play_list := str play_list_stream in
  SetPlayList play_list;;;
  (if ((0 <=? _last_video_pts p) && (0 <=? _last_audio_pts p))%Z
   then
     video_track <- deref (_video_track (settings p));;
     audio_track <- deref (_audio_track (settings p));;
     let video_pts :=
       double_to_int64
         (PrimFloat.mul (PrimFloat.mul (double_of_Z (_last_video_pts p))
                                       (GetExpr video_track)) 1000%float) in
     let audio_pts :=
       double_to_int64
         (PrimFloat.mul (PrimFloat.mul (double_of_Z (_last_audio_pts p))
                                       (GetExpr audio_track)) 1000%float) in
     emit (Logtd (TimeDifference (audio_pts - video_pts) audio_pts video_pts))
   else ret tt);;;
  ret true.

(** ** [SetSegmentData] of the base class *)

(** The retention window keeps the newest [n] records. *)
Definition retain (n : nat) (l : list SegmentData) : list SegmentData :=
  skipn (List.length l - n) l.

(** Modelled from the spec: [DashPacketyzer::SetSegmentData], whose source is
    not under [src/]. It persists the segment record of the track being
    finalized (subject to retention eviction); persistence may fail, and then
    nothing is changed and the answer is failure. On success the track's
    sequence counter is incremented, streaming has started, and the manifest
    text is recomputed. The source passes the file name, duration, timestamp
    and payload; the track (which the base class recovers from the file name)
    and the environment are arguments here. *)
Definition SetSegmentData (w : World) (media_type : MediaType)
    (file_name : string) (duration timestamp : Z) (data : Data) : M bool :=
  if storage_ok w then
    p <- this;;
    let keep := _segment_save_count (settings p) in
    match media_type with
    | Video =>
        let record :=
          {| seg_media_type := Video;
             seg_sequence_number := _video_sequence_number p;
             seg_file_name := file_name; seg_timestamp := timestamp;
             seg_duration := duration; seg_data := data |} in
        assign (set_video_segment (_video_sequence_number p + 1)
                  (retain keep (_video_segments p ++ [record])%list))
    | Audio =>
        let record :=
          {| seg_media_type := Audio;
             seg_sequence_number := _audio_sequence_number p;
             seg_file_name := file_name; seg_timestamp := timestamp;
             seg_duration := duration; seg_data := data |} in
        assign (set_audio_segment (_audio_sequence_number p + 1)
                  (retain keep (_audio_segments p ++ [record])%list))
    end;;;
    assign (set_streaming_start true);;;
    UpdatePlayList w;;;
    ret true
  else ret false.

(** ** [CmafPacketyzer::WriteVideoSegment], [WriteAudioSegment] *)
Definition WriteVideoSegment (w : World) : M bool :=
  p <- this;;
  writer <- deref (_video_chunk_writer p);;
  if (GetSampleCount writer =? 0)%N then
    emit (Logtd NoVideoData);;;
    ret true
  else
    file_name <- GetFileName 0 Video;;
    let start_timestamp := GetStartTimestamp writer in
    let segment_duration := GetSegmentDuration writer in
    (* Create a fragment *)
    let segment_data := GetChunkedSegment writer in
    assign (set_video_chunk_writer (Some (Clear writer)));;;
    (* Enqueue the segment *)
    stored <- SetSegmentData w Video file_name segment_duration start_timestamp
                segment_data;;
    if negb stored then ret false
    else
      (if _chunked_transfer (settings p)
       then emit (OnCmafChunkedComplete (_app_name (settings p))
                    (_stream_name (settings p)) file_name true)
       else ret tt);;;
      ret true.

Definition WriteAudioSegment (w : World) : M bool :=
  p <- this;;
  writer <- deref (_audio_chunk_writer p);;
  if (GetSampleCount writer =? 0)%N then
    emit (Logtd NoAudioData);;;
    ret true
  else
    file_name <- GetFileName 0 Audio;;
    let start_timestamp := GetStartTimestamp writer in
    let segment_duration := GetSegmentDuration writer in
    (* Create a fragment *)
    let segment_data := GetChunkedSegment writer in
    assign (set_audio_chunk_writer (Some (Clear writer)));;;
    (* Enqueue the segment *)
    stored <- SetSegmentData w Audio file_name segment_duration start_timestamp
                segment_data;;
    if negb stored then ret false
    else
      (if _chunked_transfer (settings p)
       then emit (OnCmafChunkedComplete (_app_name (settings p))
                    (_stream_name (settings p)) file_name false)
       else ret tt);;;
      ret true.

(** ** [CmafPacketyzer::GetPlayList]

    The reference argument [play_list] goes in and comes out. *)
Definition GetPlayList (w : World) (play_list : string) : M (bool * string) :=
  p <- this;;
  if negb (_streaming_start p) then
    emit (Logtd RequestedBeforeStart);;;
    ret (false, play_list)
  else
    let current_time := MakeUtcMillisecond (clock_ms w) in
    formatted <- defined (FormatString (_play_list p) [ArgS current_time]);;
    ret (true, formatted).

(** ** The constructors *)

(** Modelled from the spec: the members the base-class constructor sets. The
    sequence numbers start at 1, nothing is stored, streaming has not
    started, no manifest is cached. What the base class derives by itself
    (the availability start time, the pixel aspect ratio, the retention
    window) is given. The last-seen timestamps start at [-1]: the guard of
    [UpdatePlayList] reads a negative value as no frame seen yet. *)
Definition new_DashPacketyzer (start_time pixel_aspect_ratio : string)
    (segment_save_count : nat)
    (app_name stream_name segment_prefix : string)
    (segment_count : N) (segment_duration : Z)
    (video_track audio_track : option MediaTrack) : CmafPacketyzer :=
  {| settings :=
       {| _app_name := app_name;
          _stream_name := stream_name;
          _segment_prefix := segment_prefix;
          _segment_save_count := segment_save_count;
          _segment_duration := segment_duration;
          _video_track := video_track;
          _audio_track := audio_track;
          _chunked_transfer := false;
          _start_time := start_time;
          _pixel_aspect_ratio := pixel_aspect_ratio |};
     _video_chunk_writer := None;
     _audio_chunk_writer := None;
     _video_sequence_number := 1;
     _audio_sequence_number := 1;
     _video_segments := [];
     _audio_segments := [];
     _streaming_start := false;
     _play_list := "";
     _last_video_pts := (-1)%Z;
     _last_audio_pts := (-1)%Z |}.

Definition set_chunked_transfer (b : bool) (s : Settings) : Settings :=
  {| _app_name := _app_name s;
     _stream_name := _stream_name s;
     _segment_prefix := _segment_prefix s;
     _segment_save_count := _segment_save_count s;
     _segment_duration := _segment_duration s;
     _video_track := _video_track s;
     _audio_track := _audio_track s;
     _chunked_transfer := b;
     _start_time := _start_time s;
     _pixel_aspect_ratio := _pixel_aspect_ratio s |}.

(** [CmafPacketyzer::CmafPacketyzer]: the base class is built with a segment
    count of 1 whatever [segment_count] is, and a writer is made for each
    track that is not null. *)
Definition new_CmafPacketyzer (start_time pixel_aspect_ratio : string)
    (segment_save_count : nat)
    (app_name stream_name segment_prefix : string)
    (segment_count : N) (segment_duration : Z)
    (video_track audio_track : option MediaTrack)
    (chunked_transfer : bool) : CmafPacketyzer :=
  let base :=
    new_DashPacketyzer start_time pixel_aspect_ratio segment_save_count
      app_name stream_name segment_prefix 1 segment_duration
      video_track audio_track in
  {| settings := set_chunked_transfer chunked_transfer (settings base);
     _video_chunk_writer :=
       match video_track with
       | Some _ => Some (new_CmafChunkWriter Video 1 1 true)
       | None => None
       end;
     _audio_chunk_writer :=
       match audio_track with
       | Some _ => Some (new_CmafChunkWriter Audio 1 2 true)
       | None => None
       end;
     _video_sequence_number := _video_sequence_number base;
     _audio_sequence_number := _audio_sequence_number base;
     _video_segments := _video_segments base;
     _audio_segments := _audio_segments base;
     _streaming_start := _streaming_start base;
     _play_list := _play_list base;
     _last_video_pts := _last_video_pts base;
     _last_audio_pts := _last_audio_pts base |}.

(** ** Calls from outside

    The base class drives the packetizer through the two append callbacks and
    the two segment writers; the delivery layer asks for the play list. An
    append here is the callback alone: [AppendVideoFrameInternal] and
    [AppendAudioFrameInternal], which decide when the callback and the
    segment writers run, belong to the base class and are no part of a
    call. *)
Inductive Call :=
| AppendVideo (data : SampleData)
| AppendAudio (data : SampleData)
| FinalizeVideo (w : World)
| FinalizeAudio (w : World)
| Manifest (w : World) (play_list : string).

Definition call (c : Call) : M bool :=
  match c with
  | AppendVideo data => AppendVideoFrame_callback data;;; ret true
  | AppendAudio data => AppendAudioFrame_callback data;;; ret true
  | FinalizeVideo w => WriteVideoSegment w
  | FinalizeAudio w => WriteAudioSegment w
  | Manifest w play_list => r <- GetPlayList w play_list;; ret (fst r)
  end.

(** A whole run: the answer of every call, oldest first. *)
Fixpoint run (cs : list Call) : M (list bool) :=
  match cs with
  | [] => ret []
  | c :: cs' => r <- call c;; rs <- run cs';; ret (r :: rs)
  end.

(** ** Notions the properties are stated with *)

Definition has {A} (o : option A) : bool :=
  match o with Some _ => true | None => false end.

(** The pointers the methods dereference are not null: a track with a
    writer, with a published segment or with a frame seen has its
    descriptor. The constructor establishes it and every call keeps it. *)
Definition consistent (p : CmafPacketyzer) : bool :=
  implb (has (_video_chunk_writer p)) (has (_video_track (settings p)))
  && implb (has (_audio_chunk_writer p)) (has (_audio_track (settings p)))
  && implb (1 <? _video_sequence_number p)%N (has (_video_track (settings p)))
  && implb (1 <? _audio_sequence_number p)%N (has (_audio_track (settings p)))
  && implb (0 <=? _last_video_pts p)%Z (has (_video_track (settings p)))
  && implb (0 <=? _last_audio_pts p)%Z (has (_audio_track (settings p))).

(** What [UpdatePlayList] itself dereferences. *)
Definition tracks_available (p : CmafPacketyzer) : bool :=
  implb (1 <? _video_sequence_number p)%N (has (_video_track (settings p)))
  && implb (1 <? _audio_sequence_number p)%N (has (_audio_track (settings p)))
  && implb ((0 <=? _last_video_pts p) && (0 <=? _last_audio_pts p))%Z
           (has (_video_track (settings p)) && has (_audio_track (settings p))).

(** The adaptation sets [UpdatePlayList] lists for the two tracks. *)
Definition video_listing (p : CmafPacketyzer) : ostringstream :=
  if (1 <? _video_sequence_number p)%N then
    match _video_track (settings p) with
    | Some track => video_adaptation_set p track
    | None => []
    end
  else [].

Definition audio_listing (p : CmafPacketyzer) : ostringstream :=
  if (1 <? _audio_sequence_number p)%N then
    match _audio_track (settings p) with
    | Some track => audio_adaptation_set p track
    | None => []
    end
  else [].

(** The text before and after the [%s] of the play list rendered at [w]. *)
Definition before_utc_value (w : World) (p : CmafPacketyzer) : string :=
  str (mpd_open 30%float ++ [MakeUtcSecond (time w)] ++ mpd_attributes p 6%float
       ++ video_listing p ++ audio_listing p ++ [period_close])%list
  ++ utc_timing_open.

Definition after_utc_value : string := utc_timing_close ++ "</MPD>" ++ nl.

(** The play list [UpdatePlayList] renders at [w]. *)
Definition rendered (w : World) (p : CmafPacketyzer) : string :=
  str (mpd_open 30%float ++ [MakeUtcSecond (time w)] ++ mpd_attributes p 6%float
       ++ video_listing p ++ audio_listing p ++ mpd_close)%list.

(** The inter-track drift line of [UpdatePlayList]. *)
Definition drift_diagnostic (p : CmafPacketyzer) : list Event :=
  if ((0 <=? _last_video_pts p) && (0 <=? _last_audio_pts p))%Z then
    match _video_track (settings p), _audio_track (settings p) with
    | Some video_track, Some audio_track =>
        let video_pts :=
          double_to_int64
            (PrimFloat.mul (PrimFloat.mul (double_of_Z (_last_video_pts p))
                                          (GetExpr video_track)) 1000%float) in
        let audio_pts :=
          double_to_int64
            (PrimFloat.mul (PrimFloat.mul (double_of_Z (_last_audio_pts p))
                                          (GetExpr audio_track)) 1000%float) in
        [Logtd (TimeDifference (audio_pts - video_pts) audio_pts video_pts)]
    | _, _ => []
    end
  else [].

(** The strings that end up in the cached play list hold no percent sign,
    so that its only conversion is the [%s] the source writes. *)
Definition plain (p : CmafPacketyzer) : bool :=
  percent_free (_segment_prefix (settings p))
  && percent_free (_start_time (settings p))
  && percent_free (_pixel_aspect_ratio (settings p))
  && percent_free CMAF_MPD_VIDEO_FULL_SUFFIX
  && percent_free CMAF_MPD_AUDIO_FULL_SUFFIX
  && percent_free CMAF_MPD_VIDEO_FULL_INIT_FILE_NAME
  && percent_free CMAF_MPD_AUDIO_FULL_INIT_FILE_NAME.

(** The packetizer once [SetSegmentData] has taken a record, before the
    play list is rendered again. *)
Definition stored (media_type : MediaType) (file_name : string)
    (duration timestamp : Z) (data : Data) (p : CmafPacketyzer) : CmafPacketyzer :=
  let record (n : N) :=
    {| seg_media_type := media_type; seg_sequence_number := n;
       seg_file_name := file_name; seg_timestamp := timestamp;
       seg_duration := duration; seg_data := data |} in
  let keep := _segment_save_count (settings p) in
  set_streaming_start true
    match media_type with
    | Video =>
        set_video_segment (_video_sequence_number p + 1)
          (retain keep (_video_segments p ++ [record (_video_sequence_number p)])%list) p
    | Audio =>
        set_audio_segment (_audio_sequence_number p + 1)
          (retain keep (_audio_segments p ++ [record (_audio_sequence_number p)])%list) p
    end.

(** The name [GetFileName] gives the open segment of a track. *)
Definition segment_name (media_type : MediaType) (p : CmafPacketyzer) : string :=
  match media_type with
  | Video =>
      _segment_prefix (settings p) ++ "_" ++ show_N (_video_sequence_number p)
      ++ CMAF_MPD_VIDEO_FULL_SUFFIX
  | Audio =>
      _segment_prefix (settings p) ++ "_" ++ show_N (_audio_sequence_number p)
      ++ CMAF_MPD_AUDIO_FULL_SUFFIX
  end.

(** The call finalized a segment of the track: a segment writer that found
    samples and answered success. *)
Definition finalized (media_type : MediaType) (c : Call) (p : CmafPacketyzer)
    (answer : bool) : bool :=
  match media_type, c with
  | Video, FinalizeVideo _ =>
      answer && match _video_chunk_writer p with
                | Some writer => negb (GetSampleCount writer =? 0)%N
                | None => false
                end
  | Audio, FinalizeAudio _ =>
      answer && match _audio_chunk_writer p with
                | Some writer => negb (GetSampleCount writer =? 0)%N
                | None => false
                end
  | _, _ => false
  end.

(** The spec's per-track view: [FinalizeSegment(track)] is the segment
    writer of the track, with the members of that track. *)
Definition FinalizeSegment (media_type : MediaType) (w : World) : M bool :=
  match media_type with
  | Video => WriteVideoSegment w
  | Audio => WriteAudioSegment w
  end.

Definition finalize (media_type : MediaType) (w : World) : Call :=
  match media_type with
  | Video => FinalizeVideo w
  | Audio => FinalizeAudio w
  end.

Definition chunk_writer (media_type : MediaType) (p : CmafPacketyzer)
    : option CmafChunkWriter :=
  match media_type with
  | Video => _video_chunk_writer p
  | Audio => _audio_chunk_writer p
  end.

Definition set_chunk_writer (media_type : MediaType) (w : option CmafChunkWriter)
    (p : CmafPacketyzer) : CmafPacketyzer :=
  match media_type with
  | Video => set_video_chunk_writer w p
  | Audio => set_audio_chunk_writer w p
  end.

Definition sequence_number (media_type : MediaType) (p : CmafPacketyzer) : N :=
  match media_type with
  | Video => _video_sequence_number p
  | Audio => _audio_sequence_number p
  end.

Definition segments (media_type : MediaType) (p : CmafPacketyzer) : list SegmentData :=
  match media_type with
  | Video => _video_segments p
  | Audio => _audio_segments p
  end.

Definition suffix (media_type : MediaType) : string :=
  match media_type with
  | Video => CMAF_MPD_VIDEO_FULL_SUFFIX
  | Audio => CMAF_MPD_AUDIO_FULL_SUFFIX
  end.

Definition is_video (media_type : MediaType) : bool :=
  match media_type with Video => true | Audio => false end.

Definition no_data (media_type : MediaType) : LogMessage :=
  match media_type with Video => NoVideoData | Audio => NoAudioData end.

(** ** What one call does

    The step relation of the packetizer: [effect p c answer p' events] lists
    the ways a call [c] on [p] ends, with its answer, the packetizer after it
    and the events it sent. *)
Inductive effect (p : CmafPacketyzer)
    : Call -> bool -> CmafPacketyzer -> list Event -> Prop :=
| appended_video (data : SampleData) (writer : CmafChunkWriter) :
    _video_chunk_writer p = Some writer ->
    effect p (AppendVideo data) true
      (set_last_video_pts (timestamp data)
         (set_video_chunk_writer (Some (fst (AppendSample writer data))) p))
      match snd (AppendSample writer data) with
      | Some chunk =>
          if _chunked_transfer (settings p)
          then [OnCmafChunkDataPush (_app_name (settings p))
                  (_stream_name (settings p)) (segment_name Video p) true chunk]
          else []
      | None => []
      end
| appended_audio (data : SampleData) (writer : CmafChunkWriter) :
    _audio_chunk_writer p = Some writer ->
    effect p (AppendAudio data) true
      (set_last_audio_pts (timestamp data)
         (set_audio_chunk_writer (Some (fst (AppendSample writer data))) p))
      match snd (AppendSample writer data) with
      | Some chunk =>
          if _chunked_transfer (settings p)
          then [OnCmafChunkDataPush (_app_name (settings p))
                  (_stream_name (settings p)) (segment_name Audio p) false chunk]
          else []
      | None => []
      end
| nothing_to_finalize (media_type : MediaType) (w : World) (writer : CmafChunkWriter) :
    chunk_writer media_type p = Some writer ->
    GetSampleCount writer = 0%N ->
    effect p (finalize media_type w) true p [Logtd (no_data media_type)]
| segment_rejected (media_type : MediaType) (w : World) (writer : CmafChunkWriter) :
    chunk_writer media_type p = Some writer ->
    GetSampleCount writer <> 0%N ->
    storage_ok w = false ->
    effect p (finalize media_type w) false
      (set_chunk_writer media_type (Some (Clear writer)) p) []
| segment_stored (media_type : MediaType) (w : World) (writer : CmafChunkWriter)
    (p' : CmafPacketyzer) :
    chunk_writer media_type p = Some writer ->
    GetSampleCount writer <> 0%N ->
    storage_ok w = true ->
    p' = stored media_type (segment_name media_type p) (GetSegmentDuration writer)
           (GetStartTimestamp writer) (GetChunkedSegment writer)
           (set_chunk_writer media_type (Some (Clear writer)) p) ->
    tracks_available p' = true ->
    effect p (finalize media_type w) true
      (set_play_list (rendered w p') p')
      ((Logtd TryingToUpdatePlaylist :: drift_diagnostic p')
       ++ (if _chunked_transfer (settings p)
           then [OnCmafChunkedComplete (_app_name (settings p))
                   (_stream_name (settings p)) (segment_name media_type p)
                   (is_video media_type)]
           else []))%list
| manifest_refused (w : World) (play_list : string) :
    _streaming_start p = false ->
    effect p (Manifest w play_list) false p [Logtd RequestedBeforeStart]
| manifest_served (w : World) (play_list formatted : string) :
    _streaming_start p = true ->
    FormatString (_play_list p) [ArgS (MakeUtcMillisecond (clock_ms w))]
      = Some formatted ->
    effect p (Manifest w play_list) true p [].

(** What holds of every packetizer a constructor built, whatever was called
    on it since: the pointers are consistent, the sequence numbers are at
    least 1, streaming has started exactly when a track has published a
    segment, and the cached play list is one [UpdatePlayList] rendered for
    the present sequence numbers (and empty before streaming starts). *)
Definition invariant (p : CmafPacketyzer) : Prop :=
  consistent p = true
  /\ (1 <= _video_sequence_number p)%N
  /\ (1 <= _audio_sequence_number p)%N
  /\ _streaming_start p
     = ((1 <? _video_sequence_number p)%N || (1 <? _audio_sequence_number p)%N)
  /\ (_streaming_start p = true -> exists w, _play_list p = rendered w p)
  /\ (_streaming_start p = false -> _play_list p = "").

(** A stream without video: no video track was configured and no video
    frame has been appended. *)
Definition audio_only (p : CmafPacketyzer) : Prop :=
  _video_track (settings p) = None
  /\ _video_chunk_writer p = None
  /\ _video_sequence_number p = 1%N
  /\ _last_video_pts p = (-1)%Z.

(** The states a packetizer built by [new_CmafPacketyzer] goes through. *)
Inductive reachable (p0 : CmafPacketyzer) : CmafPacketyzer -> Prop :=
| reachable_new : reachable p0 p0
| reachable_call (p p' : CmafPacketyzer) (c : Call) (answer : bool)
    (events : list Event) :
    reachable p0 p -> call c p = Some (answer, p', events) -> reachable p0 p'.

End Packetyzer.

End Cmaf.

(* ================================================================== *)
(** * Cfg: [cfg::DataSource] *)
(* ================================================================== *)
Module Cfg.

(** ** pugixml *)

(** A node of the document tree: an element, or character data. *)
Inductive xml_node_struct :=
| element (name : string) (attributes : list (string * string))
          (children : list xml_node_struct)
| pcdata (value : string).

(** [pugi::xml_node] and [pugi::xml_attribute] are handles; the null handle
    is [None]. *)
Definition xml_node : Type := option xml_node_struct.
Definition xml_attribute : Type := option (string * string).

Definition node_empty (n : xml_node) : bool :=
  match n with None => true | Some _ => false end.

Definition attribute_empty (a : xml_attribute) : bool :=
  match a with None => true | Some _ => false end.

(** [node.children()]: every child node, character data included. *)
Definition node_children (n : xml_node) : list xml_node_struct :=
  match n with
  | Some (element _ _ cs) => cs
  | _ => []
  end.

(** [node.name()]: empty for character data and for the null handle. *)
Definition node_name (n : xml_node_struct) : string :=
  match n with
  | element nm _ _ => nm
  | pcdata _ => ""
  end.

Definition named (name : string) (n : xml_node_struct) : bool :=
  match n with
  | element nm _ _ => String.eqb nm name
  | pcdata _ => false
  end.

(** [node.child(name)]: the first child element of that name. *)
Definition node_child (n : xml_node) (name : string) : xml_node :=
  find (named name) (node_children n).

(** [node.children(name)]. *)
Definition node_children_named (n : xml_node) (name : string) : list xml_node_struct :=
  filter (named name) (node_children n).

(** [node.child_value()]: the text of the first character-data child, the
    empty string when there is none or the handle is null. *)
Definition child_value (n : xml_node) : string :=
  match find (fun c => match c with pcdata _ => true | _ => false end)
             (node_children n) with
  | Some (pcdata v) => v
  | _ => ""
  end.

(** [node.attribute(name)], [attribute.value()]. *)
Definition node_attribute (n : xml_node) (name : string) : xml_attribute :=
  match n with
  | Some (element _ attrs _) => find (fun a => String.eqb (fst a) name) attrs
  | _ => None
  end.

Definition attribute_value (a : xml_attribute) : string :=
  match a with Some (_, v) => v | None => "" end.

(** [pugi::xml_parse_result] of a failed load. *)
Record xml_parse_result := {
  description : string;
  offset : Z
}.

(** ** JsonCpp *)
Inductive Json :=
| nullValue
| intValue (z : Z)
| realValue (d : double)
| stringValue (s : string)
| booleanValue (b : bool)
| arrayValue (items : list Json)
| objectValue (members : list (string * Json)).

Definition isNull (j : Json) : bool :=
  match j with nullValue => true | _ => false end.
Definition isObject (j : Json) : bool :=
  match j with objectValue _ => true | _ => false end.
Definition isArray (j : Json) : bool :=
  match j with arrayValue _ => true | _ => false end.

(** [value.empty()]: null, or an array or object without elements. *)
Definition Json_empty (j : Json) : bool :=
  match j with
  | nullValue | arrayValue [] | objectValue [] => true
  | _ => false
  end.

Definition isMember (j : Json) (name : string) : bool :=
  match j with
  | objectValue ms => existsb (fun m => String.eqb (fst m) name) ms
  | _ => false
  end.

(** [value[name]] on a constant value: the member, null when absent. *)
Definition member (j : Json) (name : string) : Json :=
  match j with
  | objectValue ms =>
      match find (fun m => String.eqb (fst m) name) ms with
      | Some (_, v) => v
      | None => nullValue
      end
  | _ => nullValue
  end.

Definition getMemberNames (j : Json) : list string :=
  match j with
  | objectValue ms => map fst ms
  | _ => []
  end.

(** [value.append(x)]: null becomes an array. *)
Definition Json_append (j x : Json) : Json :=
  match j with
  | nullValue => arrayValue [x]
  | arrayValue items => arrayValue (items ++ [x])%list
  | _ => j
  end.

(** The elements a range-for over a value visits. *)
Definition Json_elements (j : Json) : list Json :=
  match j with
  | arrayValue items => items
  | objectValue ms => map snd ms
  | _ => []
  end.

Fixpoint Json_depth (j : Json) : nat :=
  match j with
  | arrayValue items => S (fold_right (fun x n => Nat.max (Json_depth x) n) 0%nat items)
  | objectValue ms => S (fold_right (fun m n => Nat.max (Json_depth (snd m)) n) 0%nat ms)
  | _ => 0%nat
  end.

(** ** The configuration types *)
Inductive DataType := Xml | Json_.

Module ValueType.
Inductive t :=
| Unknown | String | Integer | Long | Boolean | Double | Attribute | Text
| Item | List.
End ValueType.

Inductive OmitRule := DontOmit | Omit.

(** [ItemName]: the name of an item in either notation. *)
Record ItemName := {
  xml_name : string;
  json_name : string
}.

Definition GetName (name : ItemName) (type : DataType) : string :=
  match type with
  | Xml => xml_name name
  | Json_ => json_name name
  end.

Record DataSource := {
  _type : DataType;
  _document : xml_node;
  _node : xml_node;
  _json_name : string;
  _json : Json;
  _current_path : string;
  _file_name : string
}.

(** What a [std::any] returned by this file holds. *)
Inductive any :=
| any_empty
| any_String (s : string)
| any_int32 (z : Z)
| any_int64 (z : Z)
| any_bool (b : bool)
| any_double (d : double)
| any_DataSource (d : DataSource)
| any_vector (l : list DataSource).

(** The exceptions of the file: the [ConfigError]s it creates (by their
    message and its arguments), and what JsonCpp throws when the text it
    reads is not JSON. *)
Inductive Exception :=
| NotImplemented (type : DataType) (file_name : string)
| CouldNotReadXml (file_name : string) (why : xml_parse_result)
| CouldNotFindRoot (root_name file_name : string)
| CouldNotReadJson (file_name : string)
| UnknownItem (path name : string) (file_path : option string)
| JsonRuntimeError (what : string).

(** How a call ends: it returns, it throws, or (a null pointer written
    through) its behaviour is undefined. *)
Inductive outcome (A : Type) :=
| Returns (a : A)
| Throws (e : Exception)
| Undefined.
Arguments Returns {A} a.
Arguments Throws {A} e.
Arguments Undefined {A}.

(** [*original_value = v] through a pointer that may be null. *)
Definition store (original_value : option Json) (v : Json) : outcome (option Json) :=
  match original_value with
  | Some _ => Returns (Some v)
  | None => Undefined
  end.

Definition and_then {A B} (o : outcome A) (k : A -> outcome B) : outcome B :=
  match o with
  | Returns a => k a
  | Throws e => Throws e
  | Undefined => Undefined
  end.

(** What the file takes as given: [ov::Converter] and [ov::PathManager]
    (outside [src/]), the two preprocessing passes that scan for macros and
    read the process environment, the host name and the application paths,
    and the files (what [xml_document::load_file] answers; whether a JSON
    file opens, and then the value read from it or the parser's complaint). *)
Class Library := {
  ToInt32 : string -> Z;
  ToInt64 : string -> Z;
  ToBool : string -> bool;
  ToDouble : string -> double;
  ToString : string -> string;
  JsonToString : Json -> string;
  JsonToInt32 : Json -> Z;
  JsonToInt64 : Json -> Z;
  JsonToBool : Json -> bool;
  JsonToDouble : Json -> double;
  IsAbsolute : string -> bool;
  Combine : string -> string -> string;
  ExtractPath : string -> string;
  PreprocessForEnv : string -> string;
  PreprocessForMacros : string -> string;
  load_file : string -> xml_parse_result + xml_node_struct;
  json_file : string -> option (string + Json)
}.

Section DataSource.

Context {lib : Library}.

(** The children a configuration item declares ([std::map] values). *)
Variable Child : Type.

Definition PreprocessForPath (current_path str : string) : string :=
  if negb (IsAbsolute str) then Combine current_path str else str.

Definition Preprocess (current_path value : string) (resolve_path : bool) : string :=
  let result := PreprocessForEnv value in
  let result := PreprocessForMacros result in
  if resolve_path then PreprocessForPath current_path result else result.

(** ** The two value constructors *)
Definition DataSource_of_xml (current_path file_name : string)
    (document node : xml_node) : DataSource :=
  {| _type := Xml; _document := document; _node := node;
     _json_name := ""; _json := nullValue;
     _current_path := current_path; _file_name := file_name |}.

Definition DataSource_of_json (current_path file_name json_name : string)
    (json : Json) : DataSource :=
  {| _type := Json_; _document := None; _node := None;
     _json_name := json_name; _json := json;
     _current_path := current_path; _file_name := file_name |}.

(** ** Loading: the functions that throw *)
Definition LoadFromXmlFile (this : DataSource) (file_name root_name : string)
    : outcome DataSource :=
  match load_file file_name with
  | inl result => Throws (CouldNotReadXml file_name result)
  | inr document =>
      let node := node_child (Some document) root_name in
      if node_empty node then Throws (CouldNotFindRoot root_name file_name)
      else Returns {| _type := _type this; _document := Some document;
                      _node := node; _json_name := _json_name this;
                      _json := _json this;
                      _current_path := _current_path this;
                      _file_name := _file_name this |}
  end.

Definition LoadFromJson (this : DataSource) (file_name root_name : string)
    : outcome DataSource :=
  match json_file file_name with
  | Some (inr json) =>
      Returns {| _type := _type this; _document := _document this;
                 _node := _node this; _json_name := _json_name this;
                 _json := json;
                 _current_path := _current_path this;
                 _file_name := _file_name this |}
  | Some (inl what) => Throws (JsonRuntimeError what)
  | None => Throws (CouldNotReadJson file_name)
  end.

(** The [throw] after the [switch] needs a [_type] that is neither XML nor
    JSON; [DataType] has no such value. *)
Definition LoadFromFile (this : DataSource) (file_name : string)
    (root_name : ItemName) : outcome DataSource :=
  let this :=
    {| _type := _type this; _document := _document this; _node := _node this;
       _json_name := _json_name this; _json := _json this;
       _current_path := _current_path this; _file_name := file_name |} in
  match _type this with
  | Xml => LoadFromXmlFile this file_name (GetName root_name (_type this))
  | Json_ => LoadFromJson this file_name (GetName root_name (_type this))
  end.

(** The constructor that loads a file. *)
Definition DataSource_of_file (type : DataType) (current_path file_name : string)
    (root_name : ItemName) : outcome DataSource :=
  let file_name_to_load :=
    if negb (IsAbsolute file_name) then
      if negb (String.eqb current_path "")
      then Combine (ExtractPath current_path) file_name
      else file_name
    else file_name in
  LoadFromFile
    {| _type := type; _document := None; _node := None;
       _json_name := ""; _json := nullValue;
       _current_path := ExtractPath file_name_to_load; _file_name := "" |}
    file_name_to_load root_name.

Definition known (children : list (string * Child)) (name : string) : bool :=
  existsb (fun c => String.eqb (fst c) name) children.

Definition unknown_item (file_path path name : string) : Exception :=
  UnknownItem path name
    (if String.eqb file_path "" then None else Some file_path).

Definition CheckUnknownItems (this : DataSource) (file_path path : string)
    (children_for_xml children_for_json : list (string * Child)) : outcome unit :=
  match _type this with
  | Xml =>
      match find (fun child_node => negb (known children_for_xml (node_name child_node)))
                 (node_children (_node this)) with
      | Some child_node => Throws (unknown_item file_path path (node_name child_node))
      | None => Returns tt
      end
  | Json_ =>
      if isObject (_json this) then
        match find (fun name => negb (String.eqb name "$")
                                && negb (known children_for_json name))
                   (getMemberNames (_json this)) with
        | Some name => Throws (unknown_item file_path path name)
        | None => Returns tt
        end
      else Returns tt
  end.

Definition IsArray (this : DataSource) (name : ItemName) : bool :=
  match _type this with
  | Xml => true
  | Json_ => isArray (_json this)
  end.

(** ** [GetValueFromXml] *)
Definition GetValueFromXml (this : DataSource) (value_type : ValueType.t)
    (name : string) (is_child resolve_path : bool) (original_value : option Json)
    : outcome (any * option Json) :=
  let node := if is_child then node_child (_node this) name else _node this in
  let scalar (convert : string -> any) :=
    and_then (store original_value (stringValue (child_value node))) (fun written =>
    Returns (if node_empty node then any_empty
             else convert (Preprocess (_current_path this) (child_value node) resolve_path),
             written)) in
  match value_type with
  | ValueType.Unknown =>
      and_then (store original_value nullValue) (fun written =>
      Returns (any_empty, written))
  | ValueType.String => scalar any_String
  | ValueType.Integer => scalar (fun v => any_int32 (ToInt32 v))
  | ValueType.Long => scalar (fun v => any_int64 (ToInt64 v))
  | ValueType.Boolean => scalar (fun v => any_bool (ToBool v))
  | ValueType.Double => scalar (fun v => any_double (ToDouble v))
  | ValueType.Attribute =>
      let attribute := node_attribute (_node this) name in
      and_then (store original_value (stringValue (attribute_value attribute)))
        (fun written =>
      Returns (if attribute_empty attribute then any_empty
               else any_String (Preprocess (_current_path this)
                                  (attribute_value attribute) resolve_path),
               written))
  | ValueType.Text => scalar any_String
  | ValueType.Item =>
      and_then (store original_value (objectValue [])) (fun written =>
      Returns (if node_empty node then any_empty
               else any_DataSource (DataSource_of_xml (_current_path this)
                                      (_file_name this) (_document this) node),
               written))
  | ValueType.List =>
      if negb (node_empty (_node this)) then
        let children := node_children_named (_node this) name in
        let data_sources :=
          map (fun node_child =>
                 DataSource_of_xml (_current_path this) (_file_name this)
                   (_document this) (Some node_child)) children in
        let written :=
          match original_value with
          | Some _ =>
              Some (fold_left (fun acc node_child =>
                                 Json_append acc (stringValue (child_value (Some node_child))))
                              children (arrayValue []))
          | None => None
          end in
        Returns (if (0 <? List.length data_sources)%nat
                 then any_vector data_sources else any_empty,
                 written)
      else Returns (any_empty, original_value)
  end.

(** ** The JSON helpers *)
Definition GetJsonValue (value : Json) (name : string) : Json :=
  if isObject value then
    if isMember value name then member value name else nullValue
  else nullValue.

Definition GetJsonAttribute (value : Json) (attribute_name : string) : Json :=
  if isObject value then
    if isMember value "$" then
      let attributes := member value "$" in
      GetJsonValue attributes attribute_name
    else nullValue
  else nullValue.

(** [GetJsonList] calls itself on a member of [json]; [depth] counts the
    calls left and [GetJsonList] starts it above the depth of the value. *)
Fixpoint GetJsonList_at (depth : nat) (current_path file_name : string) (json : Json)
    (name : string) (omit_rule : OmitRule) (original_value : option Json)
    : outcome (any * option Json) :=
  if isNull json then Returns (any_empty, original_value)
  else
    let descend :=
      negb (isArray json) && match omit_rule with Omit => true | DontOmit => false end in
    if descend then
      match depth with
      | S depth' =>
          GetJsonList_at depth' current_path file_name (GetJsonValue json name)
            name omit_rule original_value
      | O => Undefined
      end
    else
      let child_value :=
        if negb (isArray json) then GetJsonValue json name else nullValue in
      if negb (isArray json) && isNull child_value
      then Returns (any_empty, original_value)
      else
        let listed :=
          if isNull child_value then Json_elements json else [child_value] in
        let written :=
          match original_value with
          | Some _ => Some (fold_left Json_append listed (arrayValue []))
          | None => None
          end in
        Returns (any_vector
                   (map (DataSource_of_json current_path file_name name) listed),
                 written).

Definition GetJsonList (current_path file_name : string) (json : Json)
    (name : string) (omit_rule : OmitRule) (original_value : option Json)
    : outcome (any * option Json) :=
  GetJsonList_at (S (Json_depth json)) current_path file_name json name
    omit_rule original_value.

(** ** [GetValueFromJson] *)
Definition GetValueFromJson (this : DataSource) (value_type : ValueType.t)
    (name : string) (is_child resolve_path : bool) (omit_rule : OmitRule)
    (original_value : option Json) : outcome (any * option Json) :=
  let json := if is_child then GetJsonValue (_json this) name else _json this in
  let scalar (convert : Json -> any) :=
    and_then (store original_value json) (fun written =>
    Returns (if isNull json then any_empty else convert json, written)) in
  match value_type with
  | ValueType.Unknown =>
      and_then (store original_value nullValue) (fun written =>
      Returns (any_empty, written))
  | ValueType.String =>
      scalar (fun json =>
        any_String (ToString (Preprocess (_current_path this) (JsonToString json)
                                resolve_path)))
  | ValueType.Integer => scalar (fun json => any_int32 (JsonToInt32 json))
  | ValueType.Long => scalar (fun json => any_int64 (JsonToInt64 json))
  | ValueType.Boolean => scalar (fun json => any_bool (JsonToBool json))
  | ValueType.Double => scalar (fun json => any_double (JsonToDouble json))
  | ValueType.Attribute =>
      let attribute := GetJsonAttribute (_json this) name in
      and_then (store original_value attribute) (fun written =>
      Returns (if Json_empty attribute then any_empty
               else any_String (Preprocess (_current_path this)
                                  (JsonToString attribute) resolve_path),
               written))
  | ValueType.Text =>
      scalar (fun json =>
        any_String (Preprocess (_current_path this) (JsonToString json) resolve_path))
  | ValueType.Item =>
      scalar (fun json =>
        any_DataSource (DataSource_of_json (_current_path this) (_file_name this)
                          name json))
  | ValueType.List =>
      if negb (isNull (_json this)) then
        GetJsonList (_current_path this) (_file_name this) (_json this) name
          omit_rule original_value
      else Returns (any_empty, original_value)
  end.

(** ** [GetRootValue], [GetValue] *)
Definition GetRootValue (this : DataSource) (value_type : ValueType.t)
    (resolve_path : bool) (omit_rule : OmitRule) (original_value : option Json)
    : outcome (any * option Json) :=
  match _type this with
  | Xml => GetValueFromXml this value_type "" false resolve_path original_value
  | Json_ =>
      GetValueFromJson this value_type "" false resolve_path omit_rule original_value
  end.

Definition GetValue (this : DataSource) (value_type : ValueType.t) (name : ItemName)
    (resolve_path : bool) (omit_rule : OmitRule) (original_value : option Json)
    : outcome (any * option Json) :=
  match _type this with
  | Xml =>
      GetValueFromXml this value_type (GetName name (_type this)) true resolve_path
        original_value
  | Json_ =>
      GetValueFromJson this value_type (GetName name (_type this)) true resolve_path
        omit_rule original_value
  end.

(** The value types the claim calls scalar. *)
Definition scalar_type (value_type : ValueType.t) : bool :=
  match value_type with
  | ValueType.String | ValueType.Integer | ValueType.Long | ValueType.Boolean
  | ValueType.Double | ValueType.Text | ValueType.Attribute => true
  | _ => false
  end.

(** The named value is absent from the data source: no child element or
    attribute of that name in the XML node, no such member (or attribute
    under ["$"]) in the JSON value. *)
Definition absent (this : DataSource) (value_type : ValueType.t) (name : ItemName)
    : bool :=
  match _type this, value_type with
  | Xml, ValueType.Attribute =>
      negb (match _node this with
            | Some (element _ attrs _) =>
                existsb (fun a => String.eqb (fst a) (xml_name name)) attrs
            | _ => false
            end)
  | Xml, _ => negb (existsb (named (xml_name name)) (node_children (_node this)))
  | Json_, ValueType.Attribute =>
      negb (isMember (_json this) "$"
            && isMember (member (_json this) "$") (json_name name))
  | Json_, _ => negb (isMember (_json this) (json_name name))
  end.

End DataSource.

End Cfg.

(* ================================================================== *)
(** * Macro: the environment macros of [data_source.cpp] *)
(* ================================================================== *)
Module Macro.

(** The process environment: what [std::getenv] answers for a name, and the
    host name [gethostname] writes into a buffer of [HOST_NAME_MAX] bytes
    ([None] when the buffer cannot be had or the call fails). Strings are C
    strings: they hold no NUL. *)
Class Process := {
  getenv : string -> option string;
  gethostname : option string
}.

(** [p] taken off the front of [s]. *)
Fixpoint strip_prefix (p s : string) : option string :=
  match p with
  | EmptyString => Some s
  | String c p' =>
      match s with
      | EmptyString => None
      | String d s' => if Ascii.eqb c d then strip_prefix p' s' else None
      end
  end.

(** [[^}]*\}]: the text up to the first closing brace, and the text after
    that brace. *)
Fixpoint until_brace (s : string) : option (string * string) :=
  match s with
  | EmptyString => None
  | String c rest =>
      if Ascii.eqb c "}" then Some (EmptyString, rest)
      else match until_brace rest with
           | Some (token, after) => Some (String c token, after)
           | None => None
           end
  end.

(** The regular expression of the source, [${env:] then a token without
    closing brace then a closing brace, matched at the start of [s]: the
    captured token and the text after the match. *)
Definition match_here (s : string) : option (string * string) :=
  match strip_prefix "${env:" s with
  | Some s' => until_brace s'
  | None => None
  end.

(** The next match an [std::sregex_iterator] finds, the leftmost one: the
    text before it, its token, the text after it. *)
Fixpoint regex_search (s : string) : option (string * string * string) :=
  match match_here s with
  | Some (token, after) => Some (EmptyString, token, after)
  | None =>
      match s with
      | EmptyString => None
      | String c rest =>
          match regex_search rest with
          | Some (before, token, after) => Some (String c before, token, after)
          | None => None
          end
      end
  end.

(** [env_key.find_first_of(':')] and the two [substr]: the text before the
    first colon and the text after it. *)
Fixpoint split_at_colon (s : string) : option (string * string) :=
  match s with
  | EmptyString => None
  | String c rest =>
      if Ascii.eqb c ":" then Some (EmptyString, rest)
      else match split_at_colon rest with
           | Some (key, default_value) => Some (String c key, default_value)
           | None => None
           end
  end.

Section Preprocessing.

Context {process : Process}.

(** [GetEnv] (lines 244-279). [default_value] and [is_default_value] are
    pointers that may be null; the flag comes back as it went in unless the
    default is used. *)
Definition GetEnv (key : string) (default_value : option string)
    (is_default_value : option bool) : string * option bool :=
  match getenv key with
  | Some env => (env, is_default_value)
  | None =>
      match (if String.eqb key "HOSTNAME" then gethostname else None) with
      | Some hostname => (hostname, is_default_value)
      | None =>
          match default_value with
          | Some text =>
              if negb (String.eqb text "")
              then (* Use the default value *)
                   (text, option_map (fun _ => true) is_default_value)
              else (* There is no default value *)
                   ("", is_default_value)
          | None => ("", is_default_value)
          end
      end
  end.

(** The body of the loop of [PreprocessForEnv] (lines 294-311): the text
    that replaces a match with token [token]. *)
Definition expand (token : string) : string :=
  let '(env_key, default_value) :=
    match split_at_colon token with
    | Some (key, text) => (key, text)
    | None => (token, "")
    end in
  fst (GetEnv env_key (Some default_value) (Some false)).

(** [PreprocessForEnv] (lines 282-324). The loop runs once per match, each
    match starting where the previous one ended; [matches] bounds the number
    of rounds, and a text has fewer matches than characters. *)
Fixpoint PreprocessForEnv_loop (matches : nat) (str : string) : string :=
  match regex_search str with
  | None => str
  | Some (before, token, after) =>
      before ++ expand token
      ++ match matches with
         | S matches' => PreprocessForEnv_loop matches' after
         | O => after
         end
  end.

Definition PreprocessForEnv (value : string) : string :=
  PreprocessForEnv_loop (String.length value) value.

End Preprocessing.

(** The text holds no dollar sign, no closing brace, no colon. *)
Fixpoint without (c : ascii) (s : string) : bool :=
  match s with
  | EmptyString => true
  | String d rest => negb (Ascii.eqb d c) && without c rest
  end.

End Macro.

(* ================================================================== *)
(** * Track: the two tracks of the packetizer, side by side *)
(* ================================================================== *)
Module Track.

Import Cmaf.

Definition other (media_type : MediaType) : MediaType :=
  match media_type with Video => Audio | Audio => Video end.

(** The descriptor the packetizer was built with for a track. *)
Definition track (media_type : MediaType) (s : Settings) : option MediaTrack :=
  match media_type with
  | Video => _video_track s
  | Audio => _audio_track s
  end.

Definition last_pts (media_type : MediaType) (p : CmafPacketyzer) : Z :=
  match media_type with
  | Video => _last_video_pts p
  | Audio => _last_audio_pts p
  end.

(** What a track owns is the same in two packetizers. *)
Definition untouched (media_type : MediaType) (p p' : CmafPacketyzer) : Prop :=
  chunk_writer media_type p' = chunk_writer media_type p
  /\ sequence_number media_type p' = sequence_number media_type p
  /\ segments media_type p' = segments media_type p
  /\ last_pts media_type p' = last_pts media_type p.

(** What the play list requests read is the same in two packetizers. *)
Definition kept (p p' : CmafPacketyzer) : Prop :=
  _play_list p' = _play_list p
  /\ _streaming_start p' = _streaming_start p
  /\ settings p' = settings p.

(** The file names of the chunk pushes of a track among some events. *)
Definition pushed_names (media_type : MediaType) (events : list Event)
    : list string :=
  flat_map (fun e => match e with
                     | OnCmafChunkDataPush _ _ file video _ =>
                         if Bool.eqb video (is_video media_type) then [file] else []
                     | _ => []
                     end) events.

(** The file names of the completion notifications among some events. *)
Definition completed_names (events : list Event) : list string :=
  flat_map (fun e => match e with
                     | OnCmafChunkedComplete _ _ file _ => [file]
                     | _ => []
                     end) events.

Section Callbacks.

Context {ext : Externals}.

(** The lambda of lines 70-80 (video) or 85-95 (audio): the part of an
    append that is code of this file. *)
Definition append_callback (media_type : MediaType) (data : SampleData) : M unit :=
  match media_type with
  | Video => AppendVideoFrame_callback data
  | Audio => AppendAudioFrame_callback data
  end.

(** The callbacks run one after the other, for the samples of either track. *)
Fixpoint append_callbacks (frames : list (MediaType * SampleData)) : M unit :=
  match frames with
  | [] => ret tt
  | (media_type, data) :: rest =>
      append_callback media_type data;;; append_callbacks rest
  end.

(** [since_stored p1 p]: [p] is [p1] after calls none of which stored a
    segment. With [p1] the packetizer a storing segment write left, these are
    the calls since a segment was last stored. *)
Inductive since_stored (p1 : CmafPacketyzer) : CmafPacketyzer -> Prop :=
| since_now : since_stored p1 p1
| since_call (p p' : CmafPacketyzer) (c : Call) (answer : bool)
    (events : list Event) :
    since_stored p1 p ->
    call c p = Some (answer, p', events) ->
    finalized Video c p answer = false ->
    finalized Audio c p answer = false ->
    since_stored p1 p'.

End Callbacks.

End Track.

(* ================================================================== *)
(** * Escape: percent signs in a format *)
(* ================================================================== *)
Module Escape.

Import Cmaf.

(** Every percent sign of the text is one of a pair [%%]: as a printf
    format the text has no conversion that takes an argument. *)
Fixpoint escaped (s : string) : bool :=
  match s with
  | EmptyString => true
  | String c rest =>
      if Ascii.eqb c "%" then
        match rest with
        | EmptyString => false
        | String d rest' => Ascii.eqb d "%" && escaped rest'
        end
      else escaped rest
  end.

(** What printf writes for such a text: one percent sign per pair. *)
Fixpoint collapse (s : string) : string :=
  match s with
  | EmptyString => EmptyString
  | String c rest =>
      if Ascii.eqb c "%" then
        match rest with
        | EmptyString => String c EmptyString
        | String d rest' => String "%" (collapse rest')
        end
      else String c (collapse rest)
  end.

(** The strings that end up in the cached play list have their percent
    signs in pairs. *)
Definition clean {ext : Externals} (p : CmafPacketyzer) : bool :=
  escaped (_segment_prefix (settings p))
  && escaped (_start_time (settings p))
  && escaped (_pixel_aspect_ratio (settings p))
  && escaped CMAF_MPD_VIDEO_FULL_SUFFIX
  && escaped CMAF_MPD_AUDIO_FULL_SUFFIX
  && escaped CMAF_MPD_VIDEO_FULL_INIT_FILE_NAME
  && escaped CMAF_MPD_AUDIO_FULL_INIT_FILE_NAME.

End Escape.

(* ================================================================== *)
(** * Items: what the readers of [data_source.cpp] look at *)
(* ================================================================== *)
Module Items.

Import Cfg.

(** The names [CheckUnknownItems] compares with the declared children: the
    name of every child node of an XML node, and the member names of a JSON
    object other than ["$"]. *)
Definition checked_names (this : DataSource) : list string :=
  match _type this with
  | Xml => map node_name (node_children (_node this))
  | Json_ =>
      if isObject (_json this)
      then filter (fun name => negb (String.eqb name "$"))
             (getMemberNames (_json this))
      else []
  end.

(** The map of declared children that goes with the notation of a source. *)
Definition declared {Child : Type} (this : DataSource)
    (children_for_xml children_for_json : list (string * Child))
    : list (string * Child) :=
  match _type this with
  | Xml => children_for_xml
  | Json_ => children_for_json
  end.

(** The value types read from the text of one node, or from one JSON value,
    and converted. *)
Definition leaf_type (value_type : ValueType.t) : bool :=
  match value_type with
  | ValueType.String | ValueType.Integer | ValueType.Long | ValueType.Boolean
  | ValueType.Double | ValueType.Text => true
  | _ => false
  end.

(** The data source the XML list reader makes for a child node, and the
    text it appends for it to the original value. *)
Definition child_source (this : DataSource) (node_child : xml_node_struct)
    : DataSource :=
  DataSource_of_xml (_current_path this) (_file_name this) (_document this)
    (Some node_child).

Definition child_text (node_child : xml_node_struct) : Json :=
  stringValue (child_value (Some node_child)).

(** The data source the JSON list reader makes for a value. *)
Definition member_source (this : DataSource) (name : string) (json : Json)
    : DataSource :=
  DataSource_of_json (_current_path this) (_file_name this) name json.

(** A JSON value that is neither null nor an array nor an object. *)
Definition isScalar (j : Json) : bool :=
  negb (isNull j) && negb (isArray j) && negb (isObject j).

End Items.

(* ================================================================== *)
(** * Scenario: the concrete stream of the spec's test scenario *)
(* ================================================================== *)
Module Scenario.

Import Cmaf.

(** Sample values for what lies outside [src/]: file-name macros, time
    formatters that print the clock reading in decimal, and a chunk
    builder that passes the sample bytes on. *)
Definition externals : Externals :=
  {| CMAF_MPD_VIDEO_FULL_SUFFIX := "_video.m4s";
     CMAF_MPD_AUDIO_FULL_SUFFIX := "_audio.m4s";
     CMAF_MPD_VIDEO_FULL_INIT_FILE_NAME := "init_video.m4s";
     CMAF_MPD_AUDIO_FULL_INIT_FILE_NAME := "init_audio.m4s";
     MakeUtcSecond := fun t => show_Z t ++ "s";
     MakeUtcMillisecond := fun t => show_Z t ++ "ms";
     make_chunk := fun _ sample => Some (data sample) |}.

(** Segment duration 2 s, time scale 1000, frame rate 30. *)
Definition video : MediaTrack :=
  {| GetFrameRate := 30%float; GetWidth := 1280; GetHeight := 720;
     GetBitrate := 2000000; GetSampleRate := 0; GetChannelCounts := 0;
     GetTimescale := 1000%float;
     GetExpr := PrimFloat.div 1%float 1000%float |}.

Definition audio : MediaTrack :=
  {| GetFrameRate := 0%float; GetWidth := 0; GetHeight := 0;
     GetBitrate := 128000; GetSampleRate := 48000; GetChannelCounts := 2;
     GetTimescale := 1000%float;
     GetExpr := PrimFloat.div 1%float 1000%float |}.

(** An audio track whose sample rate is below 1024 Hz. *)
Definition slow_audio : MediaTrack :=
  {| GetFrameRate := 0%float; GetWidth := 0; GetHeight := 0;
     GetBitrate := 8000; GetSampleRate := 512; GetChannelCounts := 1;
     GetTimescale := 1000%float;
     GetExpr := PrimFloat.div 1%float 1000%float |}.

Definition stream (video_track audio_track : option MediaTrack) : CmafPacketyzer :=
  new_CmafPacketyzer "1970-01-01T00:00:00Z" "16:9" 3 "app" "stream" "cmaf" 1 2
    video_track audio_track true.

Definition packetizer : CmafPacketyzer := stream (Some video) (Some audio).
Definition audio_only : CmafPacketyzer := stream None (Some audio).
Definition slow_audio_only : CmafPacketyzer := stream None (Some slow_audio).

(** A one-second sample at [t], and the environment at clock [t]. *)
Definition sample (t : Z) : SampleData :=
  {| duration := 1000; timestamp := t; data := [Byte.x2a] |}.

Definition at_clock (t : Z) (accepts : bool) : World :=
  {| clock_ms := t; storage_ok := accepts |}.

(** The packetizer after the calls [cs] ([p] itself if a call is undefined). *)
Definition after (cs : list Call) (p : CmafPacketyzer) : CmafPacketyzer :=
  match run (ext := externals) cs p with
  | Some (_, p', _) => p'
  | None => p
  end.

(** Two video samples in the open fragment. *)
Definition filled : CmafPacketyzer :=
  Eval vm_compute in after [AppendVideo (sample 0); AppendVideo (sample 1000)] packetizer.

(** The writer that holds them, and the packetizer once it is cleared. *)
Definition filled_writer : CmafChunkWriter :=
  Eval vm_compute in
    match _video_chunk_writer filled with
    | Some writer => writer
    | None => new_CmafChunkWriter Video 1 1 true
    end.

Definition cleared : CmafPacketyzer :=
  Eval vm_compute in after [FinalizeVideo (at_clock 4000 false)] filled.

(** The first video segment finalized at clock 4000 ms. *)
Definition started : CmafPacketyzer :=
  Eval vm_compute in after [FinalizeVideo (at_clock 4000 true)] filled.

(** An audio-only stream with a sample in the open fragment, and after its
    first segment. *)
Definition audio_filled : CmafPacketyzer :=
  Eval vm_compute in after [AppendAudio (sample 0)] audio_only.

Definition audio_started : CmafPacketyzer :=
  Eval vm_compute in after [FinalizeAudio (at_clock 4000 true)] audio_filled.

Definition slow_audio_started : CmafPacketyzer :=
  Eval vm_compute in
    after [AppendAudio (sample 0); FinalizeAudio (at_clock 4000 true)] slow_audio_only.

(** One video sample in the open fragment. *)
Definition first_sample : CmafPacketyzer :=
  Eval vm_compute in after [AppendVideo (sample 0)] packetizer.

(** The same stream built without sink, and with one video sample. *)
Definition without_sink : CmafPacketyzer :=
  new_CmafPacketyzer "1970-01-01T00:00:00Z" "16:9" 3 "app" "stream" "cmaf" 1 2
    (Some video) (Some audio) false.

Definition without_sink_filled : CmafPacketyzer :=
  Eval vm_compute in after [AppendVideo (sample 0)] without_sink.

Definition without_sink_started : CmafPacketyzer :=
  Eval vm_compute in after [FinalizeVideo (at_clock 4000 true)] without_sink_filled.

(** Two video samples and an audio sample between them, in the open
    fragments; then the first video segment. *)
Definition frames : list (MediaType * SampleData) :=
  [(Video, sample 0); (Audio, sample 0); (Video, sample 1000)].

Definition both_filled : CmafPacketyzer :=
  Eval vm_compute in
    after [AppendVideo (sample 0); AppendAudio (sample 0); AppendVideo (sample 1000)]
      packetizer.

Definition both_started : CmafPacketyzer :=
  Eval vm_compute in after [FinalizeVideo (at_clock 4000 true)] both_filled.

(** The same stream with another segment prefix: with one video sample,
    and after its first video segment. *)
Definition percent_stream (prefix : string) : CmafPacketyzer :=
  new_CmafPacketyzer "1970-01-01T00:00:00Z" "16:9" 3 "app" "stream" prefix 1 2
    (Some video) (Some audio) true.

Definition percent_filled (prefix : string) : CmafPacketyzer :=
  after [AppendVideo (sample 0)] (percent_stream prefix).

Definition percent_started (prefix : string) : CmafPacketyzer :=
  after [FinalizeVideo (at_clock 4000 true)] (percent_filled prefix).

(** ** A configuration file in both notations *)

Import Cfg.

(** [<Server version="8"><Name>ome</Name><Bind><Port>1935</Port></Bind></Server>] *)
Definition server_element : xml_node_struct :=
  element "Server" [("version", "8")]
    [ element "Name" [] [pcdata "ome"];
      element "Bind" [] [element "Port" [] [pcdata "1935"]] ].

Definition server_document : xml_node_struct := element "" [] [server_element].

(** [{"$": {"version": "8"}, "name": "ome", "bind": {"port": 1935}}] *)
Definition server_json : Json :=
  objectValue
    [ ("$", objectValue [("version", stringValue "8")]);
      ("name", stringValue "ome");
      ("bind", objectValue [("port", intValue 1935)]) ].

(** Sample values for what the file takes as given: decimal converters,
    Unix paths, preprocessing passes that find nothing to replace, and a
    file system that holds [Server.xml] and [Server.json]. *)
Definition decimal (text : string) : Z :=
  match NilZero.int_of_string text with
  | Some i => Z.of_int i
  | None => 0%Z
  end.

Definition library : Library :=
  {| ToInt32 := decimal;
     ToInt64 := decimal;
     ToBool := fun text => String.eqb text "true";
     ToDouble := fun text => double_of_Z (decimal text);
     ToString := fun text => text;
     JsonToString := fun j => match j with
                              | stringValue text => text
                              | intValue z => show_Z z
                              | _ => ""
                              end;
     JsonToInt32 := fun j => match j with intValue z => z | _ => 0%Z end;
     JsonToInt64 := fun j => match j with intValue z => z | _ => 0%Z end;
     JsonToBool := fun j => match j with booleanValue b => b | _ => false end;
     JsonToDouble := fun j => match j with
                              | realValue d => d
                              | intValue z => double_of_Z z
                              | _ => 0%float
                              end;
     IsAbsolute := String.prefix "/";
     Combine := fun directory file => directory ++ "/" ++ file;
     ExtractPath := fun path => path;
     PreprocessForEnv := fun text => text;
     PreprocessForMacros := fun text => text;
     load_file := fun file =>
       if String.eqb file "/etc/Server.xml" then inr server_document
       else inl {| description := "File was not found"; offset := 0 |};
     json_file := fun file =>
       if String.eqb file "/etc/Server.json" then Some (inr server_json) else None |}.

Definition xml_source : DataSource :=
  DataSource_of_xml "/etc" "/etc/Server.xml"
    (Some server_document) (Some server_element).

Definition json_source : DataSource :=
  DataSource_of_json "/etc" "/etc/Server.json" "Server" server_json.

Definition item (xml json : string) : ItemName :=
  {| xml_name := xml; json_name := json |}.

(** The source loaded from [/etc/Server.xml]. *)
Definition loaded_server : DataSource :=
  {| _type := Xml; _document := Some server_document;
     _node := Some server_element; _json_name := ""; _json := nullValue;
     _current_path := "/etc/Server.xml"; _file_name := "/etc/Server.xml" |}.

(** ** A list in both notations *)

(** [<Hosts><Host>a</Host><Host>b</Host><Port>80</Port></Hosts>] *)
Definition hosts_element : xml_node_struct :=
  element "Hosts" []
    [ element "Host" [] [pcdata "a"];
      element "Host" [] [pcdata "b"];
      element "Port" [] [pcdata "80"] ].

Definition hosts_source : DataSource :=
  DataSource_of_xml "/etc" "/etc/Hosts.xml"
    (Some (element "" [] [hosts_element])) (Some hosts_element).

(** [["a", "b"]] and [{"host": ["a", "b"], "port": 80}] *)
Definition hosts_array : list Json := [stringValue "a"; stringValue "b"].

Definition hosts_array_source : DataSource :=
  DataSource_of_json "/etc" "/etc/Hosts.json" "hosts" (arrayValue hosts_array).

Definition hosts_object_source : DataSource :=
  DataSource_of_json "/etc" "/etc/Hosts.json" "hosts"
    (objectValue [("host", arrayValue hosts_array); ("port", intValue 80)]).

(** ** A process environment *)

Definition process : Macro.Process :=
  {| Macro.getenv := fun name =>
       if String.eqb name "OME_HOME" then Some "/opt/ome"
       else if String.eqb name "EMPTY" then Some ""
       else if String.eqb name "NESTED" then Some "${env:OME_HOME}"
       else None;
     Macro.gethostname := Some "origin1" |}.

End Scenario.

Import Cmaf Cfg.

(* ================================================================== *)
(** * Properties of the text and number layer *)
(* ================================================================== *)

Lemma append_assoc (a b c : string) : (a ++ b) ++ c = a ++ (b ++ c).
Proof.
  induction a as [|x a IH]; simpl.
  - reflexivity.
  - now rewrite IH.
Qed.

Lemma append_empty_r (a : string) : a ++ "" = a.
Proof.
  induction a as [|x a IH]; simpl; [reflexivity | now rewrite IH].
Qed.

Lemma str_app (l1 l2 : ostringstream) :
  str (l1 ++ l2)%list = str l1 ++ str l2.
Proof.
  induction l1 as [|p l1 IH]; simpl.
  - reflexivity.
  - now rewrite IH, append_assoc.
Qed.

Lemma percent_free_app (a b : string) :
  percent_free (a ++ b) = percent_free a && percent_free b.
Proof.
  induction a as [|x a IH]; simpl.
  - reflexivity.
  - rewrite IH. now rewrite andb_assoc.
Qed.

Lemma percent_free_str (os : ostringstream) :
  percent_free (str os) = forallb percent_free os.
Proof.
  induction os as [|p os IH]; simpl.
  - reflexivity.
  - now rewrite percent_free_app, IH.
Qed.

Lemma percent_free_q (s : string) : percent_free (q s) = percent_free s.
Proof.
  unfold q. rewrite !percent_free_app. simpl. now rewrite andb_true_r.
Qed.

Lemma FormatString_plain (p fmt : string) (args : list FormatArg) :
  percent_free p = true ->
  FormatString (p ++ fmt) args = option_map (String.append p) (FormatString fmt args).
Proof.
  induction p as [|c p IH]; simpl; intros Hp.
  - now destruct (FormatString fmt args).
  - apply andb_true_iff in Hp. destruct Hp as [Hc Hp].
    apply negb_true_iff in Hc. rewrite Hc, (IH Hp).
    now destruct (FormatString fmt args).
Qed.

Lemma FormatString_no_conversion (p : string) (args : list FormatArg) :
  percent_free p = true -> FormatString p args = Some p.
Proof.
  intros Hp. rewrite <- (append_empty_r p) at 1.
  rewrite (FormatString_plain p "" args Hp). simpl. now rewrite append_empty_r.
Qed.

Lemma percent_free_uint (d : Decimal.uint) :
  percent_free (NilEmpty.string_of_uint d) = true.
Proof.
  induction d; simpl; auto.
Qed.

Lemma percent_free_show_N (n : N) : percent_free (show_N n) = true.
Proof.
  unfold show_N, NilZero.string_of_uint.
  destruct (N.to_uint n) eqn:E; try reflexivity;
    rewrite <- E; apply percent_free_uint.
Qed.

Example show_fixed3_30 : show_fixed3 30%float = "30.000".
Proof. reflexivity. Qed.

Example show_fixed3_offset :
  show_fixed3 (PrimFloat.sub 5 (PrimFloat.div 1 30))%float = "4.967".
Proof. vm_compute. reflexivity. Qed.

Example double_to_uint32_90000 :
  double_to_uint32 (PrimFloat.mul (double_of_Z 5) 90000%float) = 450000%Z.
Proof. vm_compute. reflexivity. Qed.

Lemma percent_free_show_Z (z : Z) : percent_free (show_Z z) = true.
Proof.
  unfold show_Z, NilZero.string_of_int, NilZero.string_of_uint.
  destruct (Z.to_int z) as [d|d]; destruct d eqn:E; try reflexivity;
    rewrite <- E; simpl; apply percent_free_uint.
Qed.

Lemma percent_free_pad3 (n : N) : percent_free (pad3 n) = true.
Proof.
  unfold pad3. rewrite percent_free_app, percent_free_show_N.
  destruct (n <? 10)%N; [reflexivity|]. now destruct (n <? 100)%N.
Qed.

Lemma percent_free_show_fixed3 (d : double) : percent_free (show_fixed3 d) = true.
Proof.
  unfold show_fixed3.
  destruct (Prim2SF d) as [s|s| |s m e];
    try reflexivity; try (now destruct s).
  cbv zeta. rewrite !percent_free_app, percent_free_show_N, percent_free_pad3.
  now destruct s.
Qed.


(* ================================================================== *)
(** * Properties of the packetizer *)
(* ================================================================== *)
Section PacketyzerFacts.

Context {ext : Externals}.

Lemma GetFileName_Video (ts : Z) (p : CmafPacketyzer) :
  GetFileName ts Video p =
    Some (_segment_prefix (settings p) ++ "_" ++ show_N (_video_sequence_number p)
          ++ CMAF_MPD_VIDEO_FULL_SUFFIX, p, []).
Proof.
  unfold GetFileName, bind, this, defined, deref, ret. simpl.
  now rewrite append_empty_r.
Qed.

Lemma GetFileName_Audio (ts : Z) (p : CmafPacketyzer) :
  GetFileName ts Audio p =
    Some (_segment_prefix (settings p) ++ "_" ++ show_N (_audio_sequence_number p)
          ++ CMAF_MPD_AUDIO_FULL_SUFFIX, p, []).
Proof.
  unfold GetFileName, bind, this, defined, deref, ret. simpl.
  now rewrite append_empty_r.
Qed.

Lemma UpdatePlayList_eq (w : World) (p : CmafPacketyzer) :
  UpdatePlayList w p =
    if tracks_available p
    then Some (true, set_play_list (rendered w p) p,
               Logtd TryingToUpdatePlaylist :: drift_diagnostic p)
    else None.
Proof.
  cbv [UpdatePlayList tracks_available rendered drift_diagnostic video_listing
       audio_listing bind this emit assign ret deref undefined SetPlayList has].
  destruct (1 <? _video_sequence_number p)%N;
    destruct (1 <? _audio_sequence_number p)%N;
    destruct (_video_track (settings p));
    destruct (_audio_track (settings p));
    destruct (0 <=? _last_video_pts p)%Z;
    destruct (0 <=? _last_audio_pts p)%Z; reflexivity.
Qed.

Lemma consistent_available (p : CmafPacketyzer) :
  consistent p = true -> tracks_available p = true.
Proof.
  unfold consistent, tracks_available.
  destruct (has (_video_chunk_writer p)), (has (_audio_chunk_writer p)),
    (has (_video_track (settings p))), (has (_audio_track (settings p))),
    (1 <? _video_sequence_number p)%N, (1 <? _audio_sequence_number p)%N,
    (0 <=? _last_video_pts p)%Z, (0 <=? _last_audio_pts p)%Z;
    simpl; intros H; try reflexivity; discriminate H.
Qed.

(** Both sides agree up to the empty event lists the binds put together. *)
Ltac same_answer := cbn [app negb]; rewrite ?app_nil_r; reflexivity.

Lemma SetSegmentData_eq (w : World) (media_type : MediaType) (file_name : string)
    (duration timestamp : Z) (data : Data) (p : CmafPacketyzer) :
  SetSegmentData w media_type file_name duration timestamp data p =
    if storage_ok w then
      let p' := stored media_type file_name duration timestamp data p in
      if tracks_available p'
      then Some (true, set_play_list (rendered w p') p',
                 Logtd TryingToUpdatePlaylist :: drift_diagnostic p')
      else None
    else Some (false, p, []).
Proof.
  unfold SetSegmentData. destruct (storage_ok w); [|reflexivity].
  destruct media_type;
    cbv [bind this assign ret stored]; rewrite UpdatePlayList_eq;
    match goal with |- context [tracks_available ?x] =>
      destruct (tracks_available x) end; same_answer.
Qed.

Lemma WriteVideoSegment_eq (w : World) (p : CmafPacketyzer) :
  WriteVideoSegment w p =
    match _video_chunk_writer p with
    | None => None
    | Some writer =>
        if (GetSampleCount writer =? 0)%N then Some (true, p, [Logtd NoVideoData])
        else
          let cleared := set_video_chunk_writer (Some (Clear writer)) p in
          if storage_ok w then
            let p' := stored Video (segment_name Video p) (GetSegmentDuration writer)
                        (GetStartTimestamp writer) (GetChunkedSegment writer) cleared in
            if tracks_available p'
            then Some (true, set_play_list (rendered w p') p',
                       (Logtd TryingToUpdatePlaylist :: drift_diagnostic p')
                       ++ (if _chunked_transfer (settings p)
                           then [OnCmafChunkedComplete (_app_name (settings p))
                                   (_stream_name (settings p)) (segment_name Video p) true]
                           else []))%list
            else None
          else Some (false, cleared, [])
    end.
Proof.
  cbv [WriteVideoSegment bind this deref ret undefined emit assign].
  destruct (_video_chunk_writer p) as [writer|]; [|reflexivity].
  destruct (GetSampleCount writer =? 0)%N; [reflexivity|].
  rewrite GetFileName_Video, SetSegmentData_eq.
  destruct (storage_ok w); [|reflexivity].
  cbv zeta. unfold segment_name.
  match goal with |- context [tracks_available ?x] =>
    destruct (tracks_available x) end; [|reflexivity].
  destruct (_chunked_transfer (settings p)); same_answer.
Qed.

Lemma WriteAudioSegment_eq (w : World) (p : CmafPacketyzer) :
  WriteAudioSegment w p =
    match _audio_chunk_writer p with
    | None => None
    | Some writer =>
        if (GetSampleCount writer =? 0)%N then Some (true, p, [Logtd NoAudioData])
        else
          let cleared := set_audio_chunk_writer (Some (Clear writer)) p in
          if storage_ok w then
            let p' := stored Audio (segment_name Audio p) (GetSegmentDuration writer)
                        (GetStartTimestamp writer) (GetChunkedSegment writer) cleared in
            if tracks_available p'
            then Some (true, set_play_list (rendered w p') p',
                       (Logtd TryingToUpdatePlaylist :: drift_diagnostic p')
                       ++ (if _chunked_transfer (settings p)
                           then [OnCmafChunkedComplete (_app_name (settings p))
                                   (_stream_name (settings p)) (segment_name Audio p) false]
                           else []))%list
            else None
          else Some (false, cleared, [])
    end.
Proof.
  cbv [WriteAudioSegment bind this deref ret undefined emit assign].
  destruct (_audio_chunk_writer p) as [writer|]; [|reflexivity].
  destruct (GetSampleCount writer =? 0)%N; [reflexivity|].
  rewrite GetFileName_Audio, SetSegmentData_eq.
  destruct (storage_ok w); [|reflexivity].
  cbv zeta. unfold segment_name.
  match goal with |- context [tracks_available ?x] =>
    destruct (tracks_available x) end; [|reflexivity].
  destruct (_chunked_transfer (settings p)); same_answer.
Qed.

Lemma AppendVideoFrame_callback_eq (data : SampleData) (p : CmafPacketyzer) :
  AppendVideoFrame_callback data p =
    match _video_chunk_writer p with
    | None => None
    | Some writer =>
        Some (tt,
              set_last_video_pts (timestamp data)
                (set_video_chunk_writer (Some (fst (AppendSample writer data))) p),
              match snd (AppendSample writer data) with
              | Some chunk =>
                  if _chunked_transfer (settings p)
                  then [OnCmafChunkDataPush (_app_name (settings p))
                          (_stream_name (settings p)) (segment_name Video p) true chunk]
                  else []
              | None => []
              end)
    end.
Proof.
  cbv [AppendVideoFrame_callback bind this deref ret undefined emit assign].
  destruct (_video_chunk_writer p) as [writer|]; [|reflexivity].
  destruct (AppendSample writer data) as [writer' [chunk|]]; [|reflexivity].
  destruct (_chunked_transfer (settings p)); [|reflexivity].
  rewrite GetFileName_Video. same_answer.
Qed.

Lemma AppendAudioFrame_callback_eq (data : SampleData) (p : CmafPacketyzer) :
  AppendAudioFrame_callback data p =
    match _audio_chunk_writer p with
    | None => None
    | Some writer =>
        Some (tt,
              set_last_audio_pts (timestamp data)
                (set_audio_chunk_writer (Some (fst (AppendSample writer data))) p),
              match snd (AppendSample writer data) with
              | Some chunk =>
                  if _chunked_transfer (settings p)
                  then [OnCmafChunkDataPush (_app_name (settings p))
                          (_stream_name (settings p)) (segment_name Audio p) false chunk]
                  else []
              | None => []
              end)
    end.
Proof.
  cbv [AppendAudioFrame_callback bind this deref ret undefined emit assign].
  destruct (_audio_chunk_writer p) as [writer|]; [|reflexivity].
  destruct (AppendSample writer data) as [writer' [chunk|]]; [|reflexivity].
  destruct (_chunked_transfer (settings p)); [|reflexivity].
  rewrite GetFileName_Audio. same_answer.
Qed.

Lemma GetPlayList_eq (w : World) (play_list : string) (p : CmafPacketyzer) :
  GetPlayList w play_list p =
    if _streaming_start p then
      match FormatString (_play_list p) [ArgS (MakeUtcMillisecond (clock_ms w))] with
      | Some formatted => Some ((true, formatted), p, [])
      | None => None
      end
    else Some ((false, play_list), p, [Logtd RequestedBeforeStart]).
Proof.
  cbv [GetPlayList bind this defined deref ret undefined emit].
  destruct (_streaming_start p); [|reflexivity].
  now destruct (FormatString (_play_list p) _).
Qed.

Lemma FinalizeSegment_eq (media_type : MediaType) (w : World) (p : CmafPacketyzer) :
  FinalizeSegment media_type w p =
    match chunk_writer media_type p with
    | None => None
    | Some writer =>
        if (GetSampleCount writer =? 0)%N
        then Some (true, p, [Logtd (no_data media_type)])
        else
          let cleared := set_chunk_writer media_type (Some (Clear writer)) p in
          if storage_ok w then
            let p' := stored media_type (segment_name media_type p)
                        (GetSegmentDuration writer) (GetStartTimestamp writer)
                        (GetChunkedSegment writer) cleared in
            if tracks_available p'
            then Some (true, set_play_list (rendered w p') p',
                       (Logtd TryingToUpdatePlaylist :: drift_diagnostic p')
                       ++ (if _chunked_transfer (settings p)
                           then [OnCmafChunkedComplete (_app_name (settings p))
                                   (_stream_name (settings p))
                                   (segment_name media_type p) (is_video media_type)]
                           else []))%list
            else None
          else Some (false, cleared, [])
    end.
Proof.
  destruct media_type; simpl FinalizeSegment.
  - apply WriteVideoSegment_eq.
  - apply WriteAudioSegment_eq.
Qed.

Lemma call_finalize (media_type : MediaType) (w : World) :
  call (finalize media_type w) = FinalizeSegment media_type w.
Proof. now destruct media_type. Qed.

(** The step relation is what [call] computes. *)
Lemma call_effect (c : Call) (p p' : CmafPacketyzer) (answer : bool)
    (events : list Event) :
  call c p = Some (answer, p', events) <-> effect p c answer p' events.
Proof.
  split.
  - destruct c as [data|data|w|w|w play_list].
    + cbv [call bind ret]. rewrite AppendVideoFrame_callback_eq.
      destruct (_video_chunk_writer p) as [writer|] eqn:W; [|discriminate].
      rewrite app_nil_r. intros [= <- <- <-]. now constructor.
    + cbv [call bind ret]. rewrite AppendAudioFrame_callback_eq.
      destruct (_audio_chunk_writer p) as [writer|] eqn:W; [|discriminate].
      rewrite app_nil_r. intros [= <- <- <-]. now constructor.
    + change (FinalizeVideo w) with (finalize Video w).
      rewrite call_finalize, FinalizeSegment_eq.
      destruct (chunk_writer Video p) as [writer|] eqn:W; [|discriminate].
      destruct (GetSampleCount writer =? 0)%N eqn:E.
      { apply N.eqb_eq in E. intros [= <- <- <-].
        exact (nothing_to_finalize p Video w writer W E). }
      apply N.eqb_neq in E. cbv zeta.
      destruct (storage_ok w) eqn:S.
      * match goal with |- context [tracks_available ?x] =>
          destruct (tracks_available x) eqn:T end; [|discriminate].
        intros [= <- <- <-].
        exact (segment_stored p Video w writer _ W E S eq_refl T).
      * intros [= <- <- <-]. exact (segment_rejected p Video w writer W E S).
    + change (FinalizeAudio w) with (finalize Audio w).
      rewrite call_finalize, FinalizeSegment_eq.
      destruct (chunk_writer Audio p) as [writer|] eqn:W; [|discriminate].
      destruct (GetSampleCount writer =? 0)%N eqn:E.
      { apply N.eqb_eq in E. intros [= <- <- <-].
        exact (nothing_to_finalize p Audio w writer W E). }
      apply N.eqb_neq in E. cbv zeta.
      destruct (storage_ok w) eqn:S.
      * match goal with |- context [tracks_available ?x] =>
          destruct (tracks_available x) eqn:T end; [|discriminate].
        intros [= <- <- <-].
        exact (segment_stored p Audio w writer _ W E S eq_refl T).
      * intros [= <- <- <-]. exact (segment_rejected p Audio w writer W E S).
    + cbv [call bind ret]. rewrite GetPlayList_eq.
      destruct (_streaming_start p) eqn:S.
      * destruct (FormatString (_play_list p) _) as [formatted|] eqn:F;
          [|discriminate].
        intros [= <- <- <-]. now apply manifest_served with formatted.
      * intros [= <- <- <-]. now apply manifest_refused.
  - intros H. destruct H.
    + cbv [call bind ret]. rewrite AppendVideoFrame_callback_eq, H.
      now rewrite app_nil_r.
    + cbv [call bind ret]. rewrite AppendAudioFrame_callback_eq, H.
      now rewrite app_nil_r.
    + rewrite call_finalize, FinalizeSegment_eq, H.
      apply N.eqb_eq in H0. now rewrite H0.
    + rewrite call_finalize, FinalizeSegment_eq, H.
      apply N.eqb_neq in H0. now rewrite H0, H1.
    + rewrite call_finalize, FinalizeSegment_eq, H.
      apply N.eqb_neq in H0. rewrite H0, H1. cbv zeta.
      rewrite <- H2, H3. reflexivity.
    + cbv [call bind ret]. rewrite GetPlayList_eq, H. reflexivity.
    + cbv [call bind ret]. rewrite GetPlayList_eq, H, H0. reflexivity.
Qed.

Lemma effect_settings (c : Call) (p p' : CmafPacketyzer) (answer : bool)
    (events : list Event) :
  effect p c answer p' events -> settings p' = settings p.
Proof.
  intros H. destruct H as [| | | mt ? ? ? | mt ? ? ? ? ? ? ? | |];
    try reflexivity; subst; now destruct mt.
Qed.

(** Every call adds to a sequence number 1 when it finalized a segment of
    the track and 0 otherwise. *)
Lemma effect_sequence_number (mt : MediaType) (c : Call) (p p' : CmafPacketyzer)
    (answer : bool) (events : list Event) :
  effect p c answer p' events ->
  sequence_number mt p'
    = (sequence_number mt p + if finalized mt c p answer then 1 else 0)%N.
Proof.
  intros H.
  destruct H as [ data writer W | data writer W | mt' w writer W E
                | mt' w writer W E S | mt' w writer q W E S Q T | | ].
  - destruct mt; simpl; now rewrite N.add_0_r.
  - destruct mt; simpl; now rewrite N.add_0_r.
  - destruct mt, mt'; simpl in *; rewrite ?W, ?E; simpl; now rewrite N.add_0_r.
  - destruct mt, mt'; simpl in *; now rewrite N.add_0_r.
  - apply N.eqb_neq in E. subst q.
    destruct mt, mt'; simpl in *; rewrite ?W, ?E; simpl;
      try reflexivity; now rewrite N.add_0_r.
  - destruct mt; simpl; now rewrite N.add_0_r.
  - destruct mt; simpl; now rewrite N.add_0_r.
Qed.

(** The rendered text depends on the settings and the two sequence numbers
    only. *)
Lemma rendered_same (w : World) (p p' : CmafPacketyzer) :
  settings p' = settings p ->
  _video_sequence_number p' = _video_sequence_number p ->
  _audio_sequence_number p' = _audio_sequence_number p ->
  rendered w p' = rendered w p.
Proof.
  intros Hs Hv Ha.
  unfold rendered, video_listing, audio_listing, mpd_attributes,
    video_adaptation_set, audio_adaptation_set.
  now rewrite Hs, Hv, Ha.
Qed.

Lemma invariant_new (start_time par : string) (keep : nat)
    (app stream prefix : string) (count : N) (seg_duration : Z)
    (video_track audio_track : option MediaTrack) (chunked_transfer : bool) :
  invariant (new_CmafPacketyzer start_time par keep app stream prefix count
               seg_duration video_track audio_track chunked_transfer).
Proof.
  unfold invariant. repeat split; simpl; try lia; try discriminate.
  unfold consistent; simpl. now destruct video_track, audio_track.
Qed.

(** Case analysis over the boolean atoms of [consistent]. *)
Ltac atoms :=
  repeat match goal with
  | |- context [has ?x] => destruct (has x)
  | H : context [has ?x] |- _ => destruct (has x)
  | |- context [(?a <? ?b)%N] => destruct (a <? b)%N
  | H : context [(?a <? ?b)%N] |- _ => destruct (a <? b)%N
  | |- context [(?a <=? ?b)%Z] => destruct (a <=? b)%Z
  | H : context [(?a <=? ?b)%Z] |- _ => destruct (a <=? b)%Z
  end; simpl in *; try reflexivity; try discriminate.

Lemma invariant_effect (c : Call) (p p' : CmafPacketyzer) (answer : bool)
    (events : list Event) :
  invariant p -> effect p c answer p' events -> invariant p'.
Proof.
  intros (C & V & A & S & L & L0) H.
  destruct H as [ data writer W | data writer W | mt w writer W E
                | mt w writer W E St | mt w writer q W E St Q T | | ];
    try (repeat split; assumption).
  - repeat split; try assumption.
    unfold consistent in *; simpl in *. rewrite W in *.
    clear - C. simpl in *. atoms.
  - repeat split; try assumption.
    unfold consistent in *; simpl in *. rewrite W in *.
    clear - C. simpl in *. atoms.
  - destruct mt; repeat split; try assumption;
      unfold consistent in *; simpl in *; rewrite W in *;
      clear - C; simpl in *; atoms.
  - assert (Vn : (1 <? _video_sequence_number p + 1)%N = true)
      by (apply N.ltb_lt; lia).
    assert (An : (1 <? _audio_sequence_number p + 1)%N = true)
      by (apply N.ltb_lt; lia).
    subst q.
    destruct mt; repeat split; simpl in *; try lia;
      try (rewrite ?Vn, ?An; now rewrite ?orb_true_r);
      try (intros _; exists w; apply rendered_same; reflexivity);
      try discriminate.
    + unfold consistent in *; simpl in *. rewrite W in *. rewrite Vn.
      clear - C. simpl in *. atoms.
    + unfold consistent in *; simpl in *. rewrite W in *. rewrite An.
      clear - C. simpl in *. atoms.
Qed.

Lemma invariant_reachable (p0 p : CmafPacketyzer) :
  invariant p0 -> reachable p0 p -> invariant p.
Proof.
  intros I R. induction R as [|p p' c answer events R IH H].
  - exact I.
  - apply call_effect in H. exact (invariant_effect c p p' answer events IH H).
Qed.

(** C1. For every track the sequence number starts at 1, and every call
    leaves it as it is except a successful finalize of that track that found
    samples, which adds exactly 1: it is never decremented, skipped, reused
    or reset, and a failed or no-op finalize leaves it unchanged. *)
Theorem sequence_number_counts_finalized_segments
    (start_time par : string) (keep : nat) (app stream prefix : string)
    (count : N) (seg_duration : Z) (video_track audio_track : option MediaTrack)
    (chunked_transfer : bool) (mt : MediaType)
    (p p' : CmafPacketyzer) (c : Call) (answer : bool) (events : list Event) :
  let p0 := new_CmafPacketyzer start_time par keep app stream prefix count
              seg_duration video_track audio_track chunked_transfer in
  reachable p0 p ->
  call c p = Some (answer, p', events) ->
  sequence_number mt p0 = 1%N
  /\ (1 <= sequence_number mt p)%N
  /\ sequence_number mt p'
     = (sequence_number mt p + if finalized mt c p answer then 1 else 0)%N.
Proof.
  intros p0 R H.
  assert (I : invariant p) by (apply (invariant_reachable p0); [apply invariant_new | exact R]).
  destruct I as (_ & V & A & _).
  split; [now destruct mt|].
  split; [now destruct mt|].
  apply effect_sequence_number with events. now apply call_effect.
Qed.

(** A finalize on a consistent packetizer dereferences no null pointer. *)
Lemma stored_available (mt : MediaType) (name : string) (d t : Z) (bytes : Data)
    (p : CmafPacketyzer) (writer writer' : CmafChunkWriter) :
  consistent p = true ->
  chunk_writer mt p = Some writer ->
  tracks_available
    (stored mt name d t bytes (set_chunk_writer mt (Some writer') p)) = true.
Proof.
  intros C W. unfold consistent in C. unfold tracks_available.
  destruct mt; simpl in *; rewrite W in C; clear W; simpl in C; atoms.
Qed.

Lemma FinalizeSegment_returns (mt : MediaType) (w : World) (p : CmafPacketyzer)
    (writer : CmafChunkWriter) :
  consistent p = true ->
  chunk_writer mt p = Some writer ->
  exists answer p' events, FinalizeSegment mt w p = Some (answer, p', events).
Proof.
  intros C W. rewrite FinalizeSegment_eq, W.
  destruct (GetSampleCount writer =? 0)%N; [now eexists _, _, _|].
  cbv zeta. destruct (storage_ok w); [|now eexists _, _, _].
  rewrite (stored_available mt _ _ _ _ p writer _ C W). now eexists _, _, _.
Qed.

Lemma drift_diagnostic_is_log (p : CmafPacketyzer) :
  filter is_sink_event (drift_diagnostic p) = [].
Proof.
  unfold drift_diagnostic.
  destruct ((0 <=? _last_video_pts p)%Z && (0 <=? _last_audio_pts p)%Z);
    [|reflexivity].
  now destruct (_video_track (settings p)), (_audio_track (settings p)).
Qed.

(** C5. A finalize that finds no sample in the track's writer answers
    success and changes nothing: the packetizer after it is the packetizer
    before it (sequence numbers, stored segments, writers), and the only
    event is the log line, no sink notification. Two such calls in a row
    both answer success. *)
Theorem finalize_without_samples_is_a_no_op (mt : MediaType) (w1 w2 : World)
    (p : CmafPacketyzer) (writer : CmafChunkWriter) :
  chunk_writer mt p = Some writer ->
  GetSampleCount writer = 0%N ->
  FinalizeSegment mt w1 p = Some (true, p, [Logtd (no_data mt)])
  /\ run [finalize mt w1; finalize mt w2] p
     = Some ([true; true], p, [Logtd (no_data mt); Logtd (no_data mt)]).
Proof.
  intros W E.
  assert (F : forall w, FinalizeSegment mt w p = Some (true, p, [Logtd (no_data mt)])).
  { intros w. rewrite FinalizeSegment_eq, W. apply N.eqb_eq in E. now rewrite E. }
  split; [apply F|].
  cbv [run bind ret]. now rewrite !call_finalize, !F.
Qed.

(** C6. When the writer holds samples and [SetSegmentData] answers failure,
    the finalize answers failure and sends no event (no segment-completion
    notification); the sequence numbers and the stored segments are as
    before; the writer has been cleared, so that the fragment is gone: the
    next finalize finds nothing to flush. *)
Theorem rejected_segment_is_lost (mt : MediaType) (w : World)
    (p q : CmafPacketyzer) (writer : CmafChunkWriter) (events : list Event) :
  let cleared := set_chunk_writer mt (Some (Clear writer)) p in
  chunk_writer mt p = Some writer ->
  GetSampleCount writer <> 0%N ->
  SetSegmentData w mt (segment_name mt p) (GetSegmentDuration writer)
    (GetStartTimestamp writer) (GetChunkedSegment writer) cleared
    = Some (false, q, events) ->
  FinalizeSegment mt w p = Some (false, cleared, [])
  /\ (forall k, sequence_number k cleared = sequence_number k p)
  /\ (forall k, segments k cleared = segments k p)
  /\ chunk_writer mt cleared = Some (Clear writer)
  /\ GetSampleCount (Clear writer) = 0%N
  /\ GetChunkedSegment (Clear writer) = []
  /\ (forall w', FinalizeSegment mt w' cleared
                 = Some (true, cleared, [Logtd (no_data mt)])).
Proof.
  intros cleared W E S.
  assert (St : storage_ok w = false).
  { rewrite SetSegmentData_eq in S. destruct (storage_ok w); [|reflexivity].
    cbv zeta in S.
    match type of S with context [tracks_available ?x] =>
      destruct (tracks_available x) end; discriminate. }
  assert (Wc : chunk_writer mt cleared = Some (Clear writer))
    by (subst cleared; now destruct mt).
  split.
  { rewrite FinalizeSegment_eq, W. apply N.eqb_neq in E. now rewrite E, St. }
  split; [intros k; subst cleared; now destruct k, mt|].
  split; [intros k; subst cleared; now destruct k, mt|].
  split; [exact Wc|].
  split; [reflexivity|].
  split; [reflexivity|].
  intros w'. now rewrite FinalizeSegment_eq, Wc.
Qed.

Lemma GetFileName_eq (ts : Z) (mt : MediaType) (p : CmafPacketyzer) :
  GetFileName ts mt p
  = Some (_segment_prefix (settings p) ++ "_" ++ show_N (sequence_number mt p)
          ++ suffix mt, p, []).
Proof.
  destruct mt; [apply GetFileName_Video | apply GetFileName_Audio].
Qed.

(** C7. A finalize that stores a segment names it
    [<prefix>_<sequence><suffix>], with the sequence number the track has
    before the call and the suffix of its kind: this is the name of the
    stored record and of the completion notification. At sequence number 1
    the name is [<prefix>_1<suffix>], and the name of the next segment of the
    track is [<prefix>_2<suffix>]. *)
Theorem finalized_segment_name (mt : MediaType) (w : World)
    (p p' : CmafPacketyzer) (writer : CmafChunkWriter) (events : list Event) :
  let name := _segment_prefix (settings p) ++ "_"
              ++ show_N (sequence_number mt p) ++ suffix mt in
  chunk_writer mt p = Some writer ->
  GetSampleCount writer <> 0%N ->
  FinalizeSegment mt w p = Some (true, p', events) ->
  GetFileName 0 mt p = Some (name, p, [])
  /\ segments mt p'
     = retain (_segment_save_count (settings p))
         (segments mt p
          ++ [{| seg_media_type := mt;
                 seg_sequence_number := sequence_number mt p;
                 seg_file_name := name;
                 seg_timestamp := GetStartTimestamp writer;
                 seg_duration := GetSegmentDuration writer;
                 seg_data := GetChunkedSegment writer |}])%list
  /\ filter is_sink_event events
     = (if _chunked_transfer (settings p)
        then [OnCmafChunkedComplete (_app_name (settings p))
                (_stream_name (settings p)) name (is_video mt)]
        else [])
  /\ (sequence_number mt p = 1%N ->
      name = _segment_prefix (settings p) ++ "_1" ++ suffix mt
      /\ GetFileName 0 mt p'
         = Some (_segment_prefix (settings p) ++ "_2" ++ suffix mt, p', [])).
Proof.
  intros name W E H.
  split; [apply GetFileName_eq|].
  rewrite FinalizeSegment_eq, W in H. apply N.eqb_neq in E. rewrite E in H.
  cbv zeta in H. destruct (storage_ok w); [|discriminate].
  match type of H with context [tracks_available ?x] =>
    destruct (tracks_available x) end; [|discriminate].
  injection H as <- <-.
  split; [now destruct mt|].
  split.
  { cbn [app filter is_sink_event]. rewrite filter_app, drift_diagnostic_is_log.
    destruct mt; now destruct (_chunked_transfer (settings p)). }
  intros One. split.
  { subst name. now rewrite One. }
  rewrite GetFileName_eq. destruct mt; simpl in *; now rewrite One.
Qed.

(** ** The cached play list as a format string *)

Lemma plain_fields (p : CmafPacketyzer) :
  plain p = true ->
  percent_free (_segment_prefix (settings p)) = true
  /\ percent_free (_start_time (settings p)) = true
  /\ percent_free (_pixel_aspect_ratio (settings p)) = true
  /\ percent_free CMAF_MPD_VIDEO_FULL_SUFFIX = true
  /\ percent_free CMAF_MPD_AUDIO_FULL_SUFFIX = true
  /\ percent_free CMAF_MPD_VIDEO_FULL_INIT_FILE_NAME = true
  /\ percent_free CMAF_MPD_AUDIO_FULL_INIT_FILE_NAME = true.
Proof.
  unfold plain. rewrite !andb_true_iff. tauto.
Qed.

(** Every inserted piece is a literal without percent sign, a number, or one
    of the plain strings. *)
Ltac pieces :=
  cbn [forallb];
  rewrite ?percent_free_show_Z, ?percent_free_show_fixed3;
  repeat match goal with
  | H : percent_free ?x = true |- context [percent_free ?x] => rewrite H
  end;
  reflexivity.

Lemma percent_free_mpd_attributes (p : CmafPacketyzer) (depth : double) :
  plain p = true -> forallb percent_free (mpd_attributes p depth) = true.
Proof.
  intros P. destruct (plain_fields p P) as (? & ? & ? & ? & ? & ? & ?).
  unfold mpd_attributes. pieces.
Qed.

Lemma percent_free_video_listing (p : CmafPacketyzer) :
  plain p = true -> forallb percent_free (video_listing p) = true.
Proof.
  intros P. destruct (plain_fields p P) as (? & ? & ? & ? & ? & ? & ?).
  unfold video_listing.
  destruct (1 <? _video_sequence_number p)%N; [|reflexivity].
  destruct (_video_track (settings p)) as [track|]; [|reflexivity].
  unfold video_adaptation_set. pieces.
Qed.

Lemma percent_free_audio_listing (p : CmafPacketyzer) :
  plain p = true -> forallb percent_free (audio_listing p) = true.
Proof.
  intros P. destruct (plain_fields p P) as (? & ? & ? & ? & ? & ? & ?).
  unfold audio_listing.
  destruct (1 <? _audio_sequence_number p)%N; [|reflexivity].
  destruct (_audio_track (settings p)) as [track|]; [|reflexivity].
  unfold audio_adaptation_set. pieces.
Qed.

Lemma percent_free_before_utc_value (w : World) (p : CmafPacketyzer) :
  plain p = true ->
  percent_free (MakeUtcSecond (time w)) = true ->
  percent_free (before_utc_value w p) = true.
Proof.
  intros P T. unfold before_utc_value.
  rewrite percent_free_app, percent_free_str, !forallb_app,
    (percent_free_mpd_attributes p _ P), (percent_free_video_listing p P),
    (percent_free_audio_listing p P).
  cbn [forallb]. rewrite T. reflexivity.
Qed.

(** The rendered play list is the text before the UTCTiming value, the
    conversion [%s], and the text after it. *)
Lemma rendered_split (w : World) (p : CmafPacketyzer) :
  rendered w p = before_utc_value w p ++ "%s" ++ after_utc_value.
Proof.
  unfold rendered, before_utc_value, after_utc_value, mpd_close.
  rewrite !app_assoc, !str_app. cbn [str fold_right].
  now rewrite !append_assoc, !append_empty_r.
Qed.

(** Formatting the cached play list puts the argument in the UTCTiming
    value and leaves the rest as rendered. *)
Lemma FormatString_rendered (w : World) (p : CmafPacketyzer) (current_time : string) :
  plain p = true ->
  percent_free (MakeUtcSecond (time w)) = true ->
  FormatString (rendered w p) [ArgS current_time]
  = Some (before_utc_value w p ++ current_time ++ after_utc_value).
Proof.
  intros P T. rewrite rendered_split.
  rewrite (FormatString_plain _ _ _ (percent_free_before_utc_value w p P T)).
  change ("%s" ++ after_utc_value) with (String "%" (String "s" after_utc_value)).
  cbn [FormatString Ascii.eqb Bool.eqb].
  now rewrite (FormatString_no_conversion after_utc_value [] eq_refl).
Qed.

(** What a stored segment leaves behind: streaming has started and the
    cached play list is the one rendered at that call. *)
Lemma finalized_play_list (mt : MediaType) (w : World) (p p' : CmafPacketyzer)
    (writer : CmafChunkWriter) (events : list Event) :
  chunk_writer mt p = Some writer ->
  GetSampleCount writer <> 0%N ->
  FinalizeSegment mt w p = Some (true, p', events) ->
  _streaming_start p' = true /\ _play_list p' = rendered w p'.
Proof.
  intros W E H.
  rewrite FinalizeSegment_eq, W in H. apply N.eqb_neq in E. rewrite E in H.
  cbv zeta in H. destruct (storage_ok w); [|discriminate].
  match type of H with context [tracks_available ?x] =>
    destruct (tracks_available x) end; [|discriminate].
  injection H as <- <-.
  split; [now destruct mt|].
  cbn [_play_list set_play_list]. symmetry. now apply rendered_same.
Qed.

Lemma GetPlayList_rendered (w wc : World) (play_list : string) (p : CmafPacketyzer) :
  _streaming_start p = true ->
  _play_list p = rendered wc p ->
  plain p = true ->
  percent_free (MakeUtcSecond (time wc)) = true ->
  GetPlayList w play_list p
  = Some ((true, before_utc_value wc p ++ MakeUtcMillisecond (clock_ms w)
                 ++ after_utc_value), p, []).
Proof.
  intros S L P T.
  now rewrite GetPlayList_eq, S, L, (FormatString_rendered wc p _ P T).
Qed.


(** ** Streams without video *)

Lemma audio_only_effect (c : Call) (p p' : CmafPacketyzer) (answer : bool)
    (events : list Event) :
  audio_only p -> effect p c answer p' events ->
  audio_only p' /\ existsb is_time_difference events = false.
Proof.
  intros (T & Wv & V & L) H.
  destruct H as [ data writer W | data writer W | mt w writer W E
                | mt w writer W E St | mt w writer q W E St Q Av | | ].
  - congruence.
  - split; [now repeat split|].
    destruct (snd (AppendSample writer data)); [|reflexivity].
    now destruct (_chunked_transfer (settings p)).
  - split; [now repeat split | now destruct mt].
  - destruct mt; simpl in W; [congruence|]. split; [now repeat split | reflexivity].
  - destruct mt; simpl in W; [congruence|]. subst q. split; [now repeat split|].
    unfold drift_diagnostic. cbn [_last_video_pts stored set_streaming_start
      set_audio_segment set_chunk_writer set_audio_chunk_writer]. rewrite L.
    cbn. now destruct (_chunked_transfer (settings p)).
  - split; [now repeat split | reflexivity].
  - split; [now repeat split | reflexivity].
Qed.

Lemma audio_only_reachable (p0 p : CmafPacketyzer) :
  audio_only p0 -> reachable p0 p -> audio_only p.
Proof.
  intros A R. induction R as [|p p' c answer events R IH H].
  - exact A.
  - apply call_effect in H. exact (proj1 (audio_only_effect c p p' answer events IH H)).
Qed.

(** C8. On a stream built without a video track, after every call: no video
    adaptation set is listed; the cached play list is empty or is the
    header, the audio adaptation set if audio has published a segment, and
    the footer; and the call has not sent the drift diagnostic. The audio
    adaptation set is listed only once the audio sequence number has left 1. *)
Theorem audio_only_stream_lists_no_video
    (start_time par : string) (keep : nat) (app stream prefix : string)
    (count : N) (seg_duration : Z) (audio_track : option MediaTrack)
    (chunked_transfer : bool)
    (p p' : CmafPacketyzer) (c : Call) (answer : bool) (events : list Event) :
  let p0 := new_CmafPacketyzer start_time par keep app stream prefix count
              seg_duration None audio_track chunked_transfer in
  reachable p0 p ->
  call c p = Some (answer, p', events) ->
  video_listing p' = []
  /\ (_play_list p' = ""
      \/ exists w,
           _play_list p'
           = str (mpd_open 30%float ++ [MakeUtcSecond (time w)]
                  ++ mpd_attributes p' 6%float ++ audio_listing p' ++ mpd_close)%list)
  /\ existsb is_time_difference events = false
  /\ (sequence_number Audio p' = 1%N -> audio_listing p' = []).
Proof.
  intros p0 R H.
  assert (A0 : audio_only p0) by now repeat split.
  pose proof (audio_only_reachable p0 p A0 R) as A.
  assert (R' : reachable p0 p') by (eapply reachable_call; eassumption).
  apply call_effect in H.
  destruct (audio_only_effect c p p' answer events A H) as [(T & Wv & V & L) D].
  assert (Vl : video_listing p' = []) by (unfold video_listing; now rewrite V).
  split; [exact Vl|].
  split.
  - assert (I : invariant p')
      by (apply (invariant_reachable p0); [apply invariant_new | exact R']).
    destruct I as (_ & _ & _ & _ & Lp & L0).
    destruct (_streaming_start p').
    + right. destruct (Lp eq_refl) as [w Lw]. exists w.
      rewrite Lw. unfold rendered. now rewrite Vl.
    + left. now apply L0.
  - split; [exact D|].
    simpl. intros One. unfold audio_listing. now rewrite One.
Qed.

(** ** The availability time offsets *)

(** C4. When the video track has published a segment, [UpdatePlayList]
    caches a play list whose video adaptation set carries, as
    [availabilityTimeOffset], the number [D - 1/F] when the frame rate [F]
    is not zero and [D] when it is, for the segment duration [D]; the
    arithmetic is that of doubles. *)
Theorem video_availability_time_offset_written (w : World) (p : CmafPacketyzer)
    (track : MediaTrack) :
  let D := double_of_Z (_segment_duration (settings p)) in
  let F := GetFrameRate track in
  let offset := video_availability_time_offset (_segment_duration (settings p)) track in
  _video_track (settings p) = Some track ->
  (1 < _video_sequence_number p)%N ->
  tracks_available p = true ->
  UpdatePlayList w p
  = Some (true,
          set_play_list
            (str (mpd_open 30%float ++ [MakeUtcSecond (time w)]
                  ++ mpd_attributes p 6%float ++ video_adaptation_set p track
                  ++ audio_listing p ++ mpd_close)%list) p,
          Logtd TryingToUpdatePlaylist :: drift_diagnostic p)
  /\ nth_error (video_adaptation_set p track) 14
     = Some (dq ++ " availabilityTimeOffset=" ++ dq)
  /\ nth_error (video_adaptation_set p track) 15 = Some (show_fixed3 offset)
  /\ (PrimFloat.eqb F 0%float = false ->
      offset = PrimFloat.sub D (PrimFloat.div 1%float F))
  /\ (PrimFloat.eqb F 0%float = true -> offset = D)
  /\ (F = 0%float -> offset = D).
Proof.
  intros D F offset T V Av.
  split.
  { rewrite UpdatePlayList_eq, Av. unfold rendered, video_listing.
    apply N.ltb_lt in V. now rewrite V, T. }
  split; [reflexivity|]. split; [reflexivity|].
  subst offset. unfold video_availability_time_offset, nonzero. fold F D.
  split; [intros E; now rewrite E|].
  split; [intros E; now rewrite E|].
  intros E. now rewrite E.
Qed.

(** C3, as the code has it. When the audio track has published a segment,
    [UpdatePlayList] caches a play list whose audio adaptation set carries,
    as [availabilityTimeOffset], the number [D - 1/(R/1024)] when the sample
    rate [R] is at least 1024 in magnitude, and [D] for every smaller rate,
    zero included: the guard is the integer quotient [R / 1024]. *)
Theorem audio_availability_time_offset_written (w : World) (p : CmafPacketyzer)
    (track : MediaTrack) :
  let D := double_of_Z (_segment_duration (settings p)) in
  let R := GetSampleRate track in
  let offset := audio_availability_time_offset (_segment_duration (settings p)) track in
  _audio_track (settings p) = Some track ->
  (1 < _audio_sequence_number p)%N ->
  tracks_available p = true ->
  UpdatePlayList w p
  = Some (true,
          set_play_list
            (str (mpd_open 30%float ++ [MakeUtcSecond (time w)]
                  ++ mpd_attributes p 6%float ++ video_listing p
                  ++ audio_adaptation_set p track ++ mpd_close)%list) p,
          Logtd TryingToUpdatePlaylist :: drift_diagnostic p)
  /\ nth_error (audio_adaptation_set p track) 10
     = Some (dq ++ " availabilityTimeOffset=" ++ dq)
  /\ nth_error (audio_adaptation_set p track) 11 = Some (show_fixed3 offset)
  /\ ((1024 <= Z.abs R)%Z ->
      offset = PrimFloat.sub D
                 (PrimFloat.div 1%float (PrimFloat.div (double_of_Z R) 1024%float)))
  /\ ((Z.abs R < 1024)%Z -> offset = D).
Proof.
  intros D R offset T A Av.
  split.
  { rewrite UpdatePlayList_eq, Av. unfold rendered, audio_listing.
    apply N.ltb_lt in A. now rewrite A, T. }
  split; [reflexivity|]. split; [reflexivity|].
  subst offset. unfold audio_availability_time_offset. fold R D.
  assert (Q : (Z.quot R 1024 = 0 <-> Z.abs R < 1024)%Z).
  { rewrite Z.quot_small_iff by lia. reflexivity. }
  split; intros B.
  - destruct (Z.quot R 1024 =? 0)%Z eqn:E; [|reflexivity].
    apply Z.eqb_eq, Q in E. lia.
  - apply Q, Z.eqb_eq in B. now rewrite B.
Qed.

End PacketyzerFacts.

(* ================================================================== *)
(** * Properties of the data source *)
(* ================================================================== *)
Section DataSourceFacts.

Context {lib : Library}.

Lemma find_absent {A} (f : A -> bool) (l : list A) :
  existsb f l = false -> find f l = None.
Proof.
  induction l as [|x l IH]; simpl; [reflexivity|].
  destruct (f x); [discriminate | exact IH].
Qed.

(** A child element that does not exist is the null handle, an attribute
    that does not exist the null attribute. *)
Lemma node_child_absent (n : xml_node) (name : string) :
  existsb (named name) (node_children n) = false -> node_child n name = None.
Proof. apply find_absent. Qed.

Lemma node_attribute_absent (n : xml_node) (name : string) :
  match n with
  | Some (element _ attrs _) => existsb (fun a => String.eqb (fst a) name) attrs
  | _ => false
  end = false ->
  node_attribute n name = None.
Proof.
  destruct n as [[nm attrs cs|v]|]; simpl; try reflexivity. apply find_absent.
Qed.

(** A member that does not exist is the null value. *)
Lemma GetJsonValue_absent (value : Json) (name : string) :
  isMember value name = false -> GetJsonValue value name = nullValue.
Proof.
  unfold GetJsonValue. intros M. rewrite M. now destruct (isObject value).
Qed.

Lemma GetJsonAttribute_absent (value : Json) (name : string) :
  isMember value "$" && isMember (member value "$") name = false ->
  GetJsonAttribute value name = nullValue.
Proof.
  unfold GetJsonAttribute. intros M.
  destruct (isObject value); [|reflexivity].
  destruct (isMember value "$"); [|reflexivity].
  simpl in M. now apply GetJsonValue_absent.
Qed.

(** Nothing in the list reader throws. *)
Lemma GetJsonList_at_does_not_throw (depth : nat) (current_path file_name : string)
    (json : Json) (name : string) (omit_rule : OmitRule)
    (original_value : option Json) (e : Exception) :
  GetJsonList_at depth current_path file_name json name omit_rule original_value
  <> Throws e.
Proof.
  revert json. induction depth as [|depth IH]; intros json; simpl;
    destruct (isNull json); try discriminate;
    destruct (negb (isArray json)), omit_rule; simpl;
    try discriminate; try apply IH;
    destruct (isNull (GetJsonValue json name)); discriminate.
Qed.

Lemma GetValueFromXml_does_not_throw (this : DataSource) (value_type : ValueType.t)
    (name : string) (is_child resolve_path : bool) (original_value : option Json)
    (e : Exception) :
  GetValueFromXml this value_type name is_child resolve_path original_value
  <> Throws e.
Proof.
  unfold GetValueFromXml.
  destruct value_type, original_value; simpl; try discriminate;
    destruct (node_empty (_node this)); discriminate.
Qed.

Lemma GetValueFromJson_does_not_throw (this : DataSource) (value_type : ValueType.t)
    (name : string) (is_child resolve_path : bool) (omit_rule : OmitRule)
    (original_value : option Json) (e : Exception) :
  GetValueFromJson this value_type name is_child resolve_path omit_rule original_value
  <> Throws e.
Proof.
  unfold GetValueFromJson.
  destruct value_type, original_value; simpl; try discriminate;
    destruct (isNull (_json this)); simpl; try discriminate;
    apply GetJsonList_at_does_not_throw.
Qed.

(** C10. For each of the seven scalar value types, asking a data source for
    a named value that it does not hold (no such child element or attribute
    in the XML node, no such member or attribute in the JSON value) returns
    the empty [std::any]: not an exception, not a converted default. What is
    written through [original_value] is the empty string for XML and null
    for JSON. Whatever is asked, [GetValue] and [GetRootValue] do not throw:
    the exceptions of the file are those of loading and of
    [CheckUnknownItems]. *)
Theorem absent_value_is_empty (this : DataSource) (value_type : ValueType.t)
    (name : ItemName) (resolve_path : bool) (omit_rule : OmitRule) (previous : Json) :
  scalar_type value_type = true ->
  absent this value_type name = true ->
  GetValue this value_type name resolve_path omit_rule (Some previous)
  = Returns (any_empty,
             Some match _type this with
                  | Xml => stringValue ""
                  | Json_ => nullValue
                  end)
  /\ (forall any_type other original_value e,
        GetValue this any_type other resolve_path omit_rule original_value <> Throws e
        /\ GetRootValue this any_type resolve_path omit_rule original_value
           <> Throws e).
Proof.
  intros Sc Ab. split.
  - unfold GetValue, absent in *. destruct (_type this).
    + unfold GetValueFromXml. simpl GetName.
      destruct value_type; try discriminate Sc;
        apply negb_true_iff in Ab;
        try (rewrite (node_child_absent _ _ Ab); reflexivity).
      now rewrite (node_attribute_absent _ _ Ab).
    + unfold GetValueFromJson. simpl GetName.
      destruct value_type; try discriminate Sc;
        apply negb_true_iff in Ab;
        try (rewrite (GetJsonValue_absent _ _ Ab); reflexivity).
      now rewrite (GetJsonAttribute_absent _ _ Ab).
  - intros any_type other original_value e. unfold GetValue, GetRootValue.
    destruct (_type this); split;
      (apply GetValueFromXml_does_not_throw || apply GetValueFromJson_does_not_throw).
Qed.

(** Loading throws when the file cannot be read or lacks the root element,
    and the check of unknown items throws on the first child the item does
    not declare. *)
Lemma LoadFromXmlFile_throws (this : DataSource) (file_name root_name : string) :
  (forall why, load_file file_name = inl why ->
     LoadFromXmlFile this file_name root_name
     = Throws (CouldNotReadXml file_name why))
  /\ (forall document, load_file file_name = inr document ->
        node_child (Some document) root_name = None ->
        LoadFromXmlFile this file_name root_name
        = Throws (CouldNotFindRoot root_name file_name)).
Proof.
  unfold LoadFromXmlFile. split.
  - intros why L. now rewrite L.
  - intros document L C. now rewrite L, C.
Qed.

Lemma LoadFromJson_throws (this : DataSource) (file_name root_name : string) :
  json_file file_name = None ->
  LoadFromJson this file_name root_name = Throws (CouldNotReadJson file_name).
Proof.
  unfold LoadFromJson. intros L. now rewrite L.
Qed.

Lemma CheckUnknownItems_throws (Child : Type) (this : DataSource)
    (file_path path : string) (children_for_xml children_for_json : list (string * Child))
    (child_node : xml_node_struct) :
  _type this = Xml ->
  find (fun child_node => negb (known Child children_for_xml (node_name child_node)))
       (node_children (_node this)) = Some child_node ->
  CheckUnknownItems Child this file_path path children_for_xml children_for_json
  = Throws (unknown_item file_path path (node_name child_node)).
Proof.
  unfold CheckUnknownItems. intros T F. now rewrite T, F.
Qed.

End DataSourceFacts.

(* ================================================================== *)
(** * The properties on the scenario stream *)
(* ================================================================== *)
Section ScenarioFacts.

Import Scenario.

#[local] Existing Instance externals.

Lemma filled_reachable : reachable packetizer filled.
Proof.
  eapply reachable_call with (c := AppendVideo (sample 1000)).
  - eapply reachable_call with (c := AppendVideo (sample 0)).
    + apply reachable_new.
    + reflexivity.
  - reflexivity.
Defined.

Lemma started_reachable : reachable packetizer started.
Proof.
  eapply reachable_call with (c := FinalizeVideo (at_clock 4000 true)).
  - exact filled_reachable.
  - reflexivity.
Defined.

(** The first video finalize of the scenario takes the video sequence
    number from 1 to 2. *)
Lemma sequence_number_on_scenario :
  sequence_number Video packetizer = 1%N
  /\ (1 <= sequence_number Video filled)%N
  /\ sequence_number Video started
     = (sequence_number Video filled
        + if finalized Video (FinalizeVideo (at_clock 4000 true)) filled true
          then 1 else 0)%N.
Proof.
  eapply (sequence_number_counts_finalized_segments
            "1970-01-01T00:00:00Z" "16:9" 3 "app" "stream" "cmaf" 1 2
            (Some video) (Some audio) true Video filled started).
  - exact filled_reachable.
  - reflexivity.
Defined.

Lemma scenario_time_is_plain (t : Z) : percent_free (MakeUtcSecond t) = true.
Proof.
  simpl. now rewrite percent_free_app, percent_free_show_Z.
Qed.


(** A finalize on the fresh packetizer, whose writers are empty. *)
Lemma empty_finalize_on_scenario :
  FinalizeSegment Video (at_clock 1000 true) packetizer
  = Some (true, packetizer, [Logtd NoVideoData])
  /\ run [FinalizeVideo (at_clock 1000 true); FinalizeVideo (at_clock 2000 true)]
       packetizer
     = Some ([true; true], packetizer, [Logtd NoVideoData; Logtd NoVideoData]).
Proof.
  eapply (finalize_without_samples_is_a_no_op Video (at_clock 1000 true)
            (at_clock 2000 true) packetizer); reflexivity.
Defined.

(** The storage rejects the first video segment of the scenario. *)
Lemma rejected_segment_on_scenario :
  FinalizeSegment Video (at_clock 4000 false) filled
  = Some (false, cleared, [])
  /\ (forall k, sequence_number k cleared = sequence_number k filled)
  /\ (forall k, segments k cleared = segments k filled)
  /\ chunk_writer Video cleared = Some (Clear filled_writer)
  /\ GetSampleCount (Clear filled_writer) = 0%N
  /\ GetChunkedSegment (Clear filled_writer) = []
  /\ (forall w', FinalizeSegment Video w' cleared
                 = Some (true, cleared, [Logtd NoVideoData])).
Proof.
  exact (rejected_segment_is_lost Video (at_clock 4000 false) filled cleared
           filled_writer [] eq_refl (fun E => N.neq_succ_0 1%N E) eq_refl).
Defined.

(** The first video segment of the scenario is [cmaf_1_video.m4s], the next
    one [cmaf_2_video.m4s]. *)
Lemma segment_names_on_scenario :
  GetFileName 0 Video filled = Some ("cmaf_1_video.m4s", filled, [])
  /\ segments Video started
     = [{| seg_media_type := Video; seg_sequence_number := 1;
           seg_file_name := "cmaf_1_video.m4s"; seg_timestamp := 0;
           seg_duration := 2000; seg_data := [Byte.x2a; Byte.x2a] |}]
  /\ filter is_sink_event
       [Logtd TryingToUpdatePlaylist;
        OnCmafChunkedComplete "app" "stream" "cmaf_1_video.m4s" true]
     = [OnCmafChunkedComplete "app" "stream" "cmaf_1_video.m4s" true]
  /\ (sequence_number Video filled = 1%N ->
      "cmaf_1_video.m4s" = "cmaf" ++ "_1" ++ "_video.m4s"
      /\ GetFileName 0 Video started
         = Some ("cmaf" ++ "_2" ++ "_video.m4s", started, [])).
Proof.
  exact (finalized_segment_name Video (at_clock 4000 true) filled started
           filled_writer
           [Logtd TryingToUpdatePlaylist;
            OnCmafChunkedComplete "app" "stream" "cmaf_1_video.m4s" true]
           eq_refl (fun E => N.neq_succ_0 1%N E) eq_refl).
Defined.

Lemma audio_filled_reachable : reachable audio_only audio_filled.
Proof.
  eapply reachable_call with (c := AppendAudio (sample 0)).
  - apply reachable_new.
  - reflexivity.
Defined.

(** The first audio segment of the audio-only stream: the play list holds
    the audio adaptation set and no video one, and no drift line is sent. *)
Lemma audio_only_scenario :
  video_listing audio_started = []
  /\ (_play_list audio_started = ""
      \/ exists w,
           _play_list audio_started
           = str (mpd_open 30%float ++ [MakeUtcSecond (time w)]
                  ++ mpd_attributes audio_started 6%float
                  ++ audio_listing audio_started ++ mpd_close)%list)
  /\ existsb is_time_difference
       [Logtd TryingToUpdatePlaylist;
        OnCmafChunkedComplete "app" "stream" "cmaf_1_audio.m4s" false] = false
  /\ (sequence_number Audio audio_started = 1%N -> audio_listing audio_started = []).
Proof.
  exact (audio_only_stream_lists_no_video
           "1970-01-01T00:00:00Z" "16:9" 3 "app" "stream" "cmaf" 1 2
           (Some audio) true audio_filled audio_started
           (FinalizeAudio (at_clock 4000 true)) true _
           audio_filled_reachable eq_refl).
Defined.

(** C9, the claim as stated fails: two requests, at clocks 5000 and 9000,
    for the play list cached by the finalize at clock 4000. Both answers
    carry the publish time of the finalize, and each carries its own request
    time as the UTCTiming value. And with the segment prefix [50%%] what is
    served differs from what is cached in more than that value: the media
    template is cached with [50%%] and served with [50%]. *)
Lemma publish_time_is_cached_utc_timing_is_not :
  exists text1 text2,
    GetPlayList (at_clock 5000 true) "" started = Some ((true, text1), started, [])
    /\ GetPlayList (at_clock 9000 true) "" started = Some ((true, text2), started, [])
    /\ attribute "publishTime" text1 = Some "4s"
    /\ attribute "publishTime" text2 = Some "4s"
    /\ utc_timing_value text1 = Some "5000ms"
    /\ utc_timing_value text2 = Some "9000ms"
    /\ attribute "media" (_play_list (percent_started "50%%"))
       = Some "50%%_$Number$_video.m4s"
    /\ match GetPlayList (at_clock 5000 true) "" (percent_started "50%%") with
       | Some (_, served, _, _) => attribute "media" served
       | None => None
       end = Some "50%_$Number$_video.m4s".
Proof.
  eexists. eexists.
  split; [reflexivity|]. split; [reflexivity|].
  repeat split; vm_compute; reflexivity.
Qed.

(** The video offset of the scenario: 2 - 1/30, printed as 1.967. *)
Lemma video_offset_on_scenario :
  UpdatePlayList (at_clock 4000 true) started
  = Some (true,
          set_play_list
            (str (mpd_open 30%float ++ [MakeUtcSecond (time (at_clock 4000 true))]
                  ++ mpd_attributes started 6%float
                  ++ video_adaptation_set started video
                  ++ audio_listing started ++ mpd_close)%list) started,
          Logtd TryingToUpdatePlaylist :: drift_diagnostic started)
  /\ nth_error (video_adaptation_set started video) 14
     = Some (dq ++ " availabilityTimeOffset=" ++ dq)
  /\ nth_error (video_adaptation_set started video) 15 = Some "1.967"
  /\ (PrimFloat.eqb 30%float 0%float = false ->
      video_availability_time_offset 2 video
      = PrimFloat.sub 2%float (PrimFloat.div 1%float 30%float))
  /\ (PrimFloat.eqb 30%float 0%float = true ->
      video_availability_time_offset 2 video = 2%float)
  /\ (30%float = 0%float -> video_availability_time_offset 2 video = 2%float).
Proof.
  exact (video_availability_time_offset_written (at_clock 4000 true) started video
           eq_refl eq_refl eq_refl).
Defined.

(** C3, the claim as stated fails: the sample rate 512 is not zero, yet the
    offset written for a segment duration of 2 is the full 2.000, not
    2 - 1024/512 = 0. *)
Lemma slow_audio_offset_is_the_full_duration :
  GetSampleRate slow_audio = 512%Z
  /\ audio_availability_time_offset 2 slow_audio = 2%float
  /\ PrimFloat.sub 2%float (PrimFloat.div 1024%float (double_of_Z 512)) = 0%float
  /\ audio_availability_time_offset 2 slow_audio
     <> PrimFloat.sub 2%float (PrimFloat.div 1024%float (double_of_Z 512))
  /\ nth_error (audio_listing slow_audio_started) 11 = Some "2.000"
  /\ attribute "availabilityTimeOffset" (_play_list slow_audio_started)
     = Some "2.000".
Proof.
  repeat split; try (vm_compute; reflexivity).
  intros H.
  assert (E : PrimFloat.eqb (audio_availability_time_offset 2 slow_audio)
                (PrimFloat.sub 2%float (PrimFloat.div 1024%float (double_of_Z 512)))
              = false) by (vm_compute; reflexivity).
  rewrite <- H in E. vm_compute in E. discriminate E.
Qed.

(** The audio offset of the audio-only scenario: 2 - 1/(48000/1024), printed
    as 1.979. *)
Lemma audio_offset_on_scenario :
  UpdatePlayList (at_clock 4000 true) audio_started
  = Some (true,
          set_play_list
            (str (mpd_open 30%float ++ [MakeUtcSecond (time (at_clock 4000 true))]
                  ++ mpd_attributes audio_started 6%float
                  ++ video_listing audio_started
                  ++ audio_adaptation_set audio_started audio ++ mpd_close)%list)
            audio_started,
          Logtd TryingToUpdatePlaylist :: drift_diagnostic audio_started)
  /\ nth_error (audio_adaptation_set audio_started audio) 10
     = Some (dq ++ " availabilityTimeOffset=" ++ dq)
  /\ nth_error (audio_adaptation_set audio_started audio) 11 = Some "1.979"
  /\ ((1024 <= Z.abs 48000)%Z ->
      audio_availability_time_offset 2 audio
      = PrimFloat.sub 2%float
          (PrimFloat.div 1%float (PrimFloat.div (double_of_Z 48000) 1024%float)))
  /\ ((Z.abs 48000 < 1024)%Z -> audio_availability_time_offset 2 audio = 2%float).
Proof.
  exact (audio_availability_time_offset_written (at_clock 4000 true) audio_started
           audio eq_refl eq_refl eq_refl).
Defined.

(** For the usual sample rates the two ways of writing the frame duration,
    [1/(R/1024)] and [1024/R], are the same double. *)
Example frame_duration_forms_agree :
  forallb (fun R => PrimFloat.eqb
                      (PrimFloat.div 1%float (PrimFloat.div (double_of_Z R) 1024%float))
                      (PrimFloat.div 1024%float (double_of_Z R)))
    [8000; 11025; 12000; 16000; 22050; 24000; 32000; 44100; 48000; 64000;
     88200; 96000]%Z
  = true.
Proof. vm_compute. reflexivity. Qed.

(** ** The configuration file of the scenario *)

#[local] Existing Instance library.

(** The server of the scenario has no [Port] of its own and no [id]
    attribute, in XML as in JSON. *)
Lemma absent_port_on_scenario :
  GetValue xml_source ValueType.Integer (item "Port" "port") false DontOmit
    (Some nullValue)
  = Returns (any_empty, Some (stringValue ""))
  /\ (forall any_type other original_value e,
        GetValue xml_source any_type other false DontOmit original_value <> Throws e
        /\ GetRootValue xml_source any_type false DontOmit original_value <> Throws e).
Proof.
  exact (absent_value_is_empty xml_source ValueType.Integer (item "Port" "port")
           false DontOmit nullValue eq_refl eq_refl).
Defined.

Example absent_attribute_on_scenario :
  GetValue json_source ValueType.Attribute (item "id" "id") false DontOmit
    (Some nullValue)
  = Returns (any_empty, Some nullValue)
  /\ GetValue json_source ValueType.Attribute (item "version" "version") false
       DontOmit (Some nullValue)
     = Returns (any_String "8", Some (stringValue "8")).
Proof. split; reflexivity. Qed.

Example loading_on_scenario :
  DataSource_of_file Xml "" "/etc/Nope.xml" (item "Server" "server")
  = Throws (CouldNotReadXml "/etc/Nope.xml"
              {| description := "File was not found"; offset := 0 |})
  /\ DataSource_of_file Xml "" "/etc/Server.xml" (item "Nope" "server")
     = Throws (CouldNotFindRoot "Nope" "/etc/Server.xml")
  /\ CheckUnknownItems unit xml_source "" "Server" [("Name", tt)] []
     = Throws (UnknownItem "Server" "Bind" None).
Proof. repeat split; reflexivity. Qed.

End ScenarioFacts.

(* ================================================================== *)
(** * Properties of the environment macros *)
(* ================================================================== *)
Section MacroFacts.

Import Macro.

Context {process : Process}.

Lemma without_app (c : ascii) (a b : string) :
  without c (a ++ b) = without c a && without c b.
Proof.
  induction a as [|x a IH]; simpl; [reflexivity|].
  now rewrite IH, andb_assoc.
Qed.

Lemma length_app (a b : string) :
  String.length (a ++ b) = (String.length a + String.length b)%nat.
Proof.
  induction a as [|x a IH]; simpl; [reflexivity | now rewrite IH].
Qed.

Lemma without_cons (x c : ascii) (s : string) :
  without x (String c s) = negb (Ascii.eqb c x) && without x s.
Proof. reflexivity. Qed.

Lemma strip_prefix_cons (a c : ascii) (p s : string) :
  strip_prefix (String a p) (String c s)
  = if Ascii.eqb a c then strip_prefix p s else None.
Proof. reflexivity. Qed.

Lemma strip_prefix_app (p s : string) : strip_prefix p (p ++ s) = Some s.
Proof.
  induction p as [|c p IH]; simpl; [reflexivity|].
  now rewrite Ascii.eqb_refl.
Qed.

Lemma strip_prefix_sound (p s s' : string) :
  strip_prefix p s = Some s' -> s = p ++ s'.
Proof.
  revert s. induction p as [|c p IH]; simpl; intros s H.
  - now injection H as ->.
  - destruct s as [|d s]; [discriminate|].
    destruct (Ascii.eqb c d) eqn:E; [|discriminate].
    apply Ascii.eqb_eq in E. subst d. now rewrite (IH s H).
Qed.

Lemma until_brace_app (token after : string) :
  without "}" token = true ->
  until_brace (token ++ "}" ++ after) = Some (token, after).
Proof.
  induction token as [|c token IH]; simpl in *; intros H; [reflexivity|].
  apply andb_true_iff in H. destruct H as [C H].
  apply negb_true_iff in C. now rewrite C, (IH H).
Qed.

Lemma until_brace_none (s : string) :
  without "}" s = true -> until_brace s = None.
Proof.
  induction s as [|c s IH]; simpl; intros H; [reflexivity|].
  apply andb_true_iff in H. destruct H as [C H].
  apply negb_true_iff in C. now rewrite C, (IH H).
Qed.

Lemma until_brace_length (s token after : string) :
  until_brace s = Some (token, after) ->
  String.length s = S (String.length token + String.length after).
Proof.
  revert token. induction s as [|c s IH]; simpl; intros token H; [discriminate|].
  destruct (Ascii.eqb c "}").
  - now injection H as <- <-.
  - destruct (until_brace s) as [[t a]|]; [|discriminate].
    injection H as <- <-. simpl. now rewrite (IH t eq_refl).
Qed.

Lemma match_here_length (s token after : string) :
  match_here s = Some (token, after) -> (String.length after < String.length s)%nat.
Proof.
  unfold match_here. destruct (strip_prefix "${env:" s) as [s'|] eqn:P; [|discriminate].
  intros U. apply strip_prefix_sound in P. apply until_brace_length in U.
  subst s. rewrite length_app, U. lia.
Qed.

Lemma regex_search_length (s before token after : string) :
  regex_search s = Some (before, token, after) ->
  (String.length after < String.length s)%nat.
Proof.
  revert before. induction s as [|c s IH]; intros before; simpl regex_search.
  - destruct (match_here "") as [[t a]|] eqn:M; [|discriminate].
    discriminate M.
  - destruct (match_here (String c s)) as [[t a]|] eqn:M.
    + intros [= <- <- <-]. exact (match_here_length _ _ _ M).
    + destruct (regex_search s) as [[[b t] a]|]; [|discriminate].
      intros [= <- <- <-]. specialize (IH b eq_refl). simpl. lia.
Qed.

(** A text without dollar sign, or without closing brace, has no match. *)
Lemma regex_search_none (s : string) :
  without "$" s = true \/ without "}" s = true -> regex_search s = None.
Proof.
  induction s as [|c s IH]; intros H; [reflexivity|].
  simpl regex_search.
  assert (M : match_here (String c s) = None).
  { unfold match_here.
    destruct (strip_prefix "${env:" (String c s)) as [s'|] eqn:P; [|reflexivity].
    destruct H as [H|H].
    - rewrite strip_prefix_cons in P. rewrite without_cons in H.
      destruct (Ascii.eqb "$" c) eqn:E; [|discriminate].
      rewrite Ascii.eqb_sym, E in H. discriminate H.
    - apply strip_prefix_sound in P. rewrite P, without_app in H.
      apply andb_true_iff in H. now apply until_brace_none. }
  rewrite M, IH; [reflexivity|].
  rewrite !without_cons in H.
  destruct H as [H|H]; apply andb_true_iff in H; tauto.
Qed.

Lemma regex_search_unfold (s : string) :
  regex_search s
  = match match_here s with
    | Some (token, after) => Some ("", token, after)
    | None =>
        match s with
        | EmptyString => None
        | String c rest =>
            match regex_search rest with
            | Some (before, token, after) => Some (String c before, token, after)
            | None => None
            end
        end
    end.
Proof. now destruct s. Qed.

Lemma match_here_macro (rest : string) :
  match_here ("${env:" ++ rest) = until_brace rest.
Proof.
  unfold match_here. now rewrite strip_prefix_app.
Qed.

(** The leftmost match is the first [${env:...}] after a text without
    dollar sign, and its token ends at the first closing brace. *)
Lemma regex_search_found (before token after : string) :
  without "$" before = true ->
  without "}" token = true ->
  regex_search (before ++ "${env:" ++ token ++ "}" ++ after)
  = Some (before, token, after).
Proof.
  intros B T. induction before as [|c before IH].
  - change ("" ++ "${env:" ++ token ++ "}" ++ after)
      with ("${env:" ++ (token ++ "}" ++ after)).
    now rewrite regex_search_unfold, match_here_macro, (until_brace_app _ _ T).
  - rewrite without_cons in B. apply andb_true_iff in B. destruct B as [C B].
    apply negb_true_iff in C. rewrite Ascii.eqb_sym in C.
    change ((String c before) ++ "${env:" ++ token ++ "}" ++ after)
      with (String c (before ++ "${env:" ++ token ++ "}" ++ after)).
    rewrite regex_search_unfold. unfold match_here at 1.
    rewrite strip_prefix_cons, C, (IH B). reflexivity.
Qed.

(** More rounds than the text has characters change nothing. *)
Lemma PreprocessForEnv_loop_enough (n m : nat) (str : string) :
  (String.length str <= n)%nat -> (String.length str <= m)%nat ->
  PreprocessForEnv_loop n str = PreprocessForEnv_loop m str.
Proof.
  revert m str. induction n as [|n IH]; intros m str Hn Hm.
  - destruct str; [|simpl in Hn; lia]. now destruct m.
  - destruct m as [|m].
    + destruct str; [|simpl in Hm; lia]. reflexivity.
    + simpl. destruct (regex_search str) as [[[b t] a]|] eqn:R; [|reflexivity].
      apply regex_search_length in R.
      rewrite (IH m a) by lia. reflexivity.
Qed.

(** The loop of [PreprocessForEnv], one round at a time. *)
Lemma PreprocessForEnv_eq (str : string) :
  PreprocessForEnv str
  = match regex_search str with
    | None => str
    | Some (before, token, after) =>
        before ++ expand token ++ PreprocessForEnv after
    end.
Proof.
  unfold PreprocessForEnv.
  destruct (regex_search str) as [[[b t] a]|] eqn:R.
  - pose proof (regex_search_length _ _ _ _ R) as L.
    destruct (String.length str) as [|n] eqn:E; [lia|].
    simpl. rewrite R.
    rewrite (PreprocessForEnv_loop_enough n (String.length a) a) by lia.
    reflexivity.
  - destruct (String.length str); simpl; now rewrite R.
Qed.

Lemma PreprocessForEnv_macro (before token after : string) :
  without "$" before = true ->
  without "}" token = true ->
  PreprocessForEnv (before ++ "${env:" ++ token ++ "}" ++ after)
  = before ++ expand token ++ PreprocessForEnv after.
Proof.
  intros B T. now rewrite PreprocessForEnv_eq, (regex_search_found _ _ _ B T).
Qed.

Lemma split_at_colon_none (s : string) :
  without ":" s = true -> split_at_colon s = None.
Proof.
  induction s as [|c s IH]; simpl; intros H; [reflexivity|].
  apply andb_true_iff in H. destruct H as [C H].
  apply negb_true_iff in C. now rewrite C, (IH H).
Qed.

Lemma split_at_colon_app (key text : string) :
  without ":" key = true ->
  split_at_colon (key ++ ":" ++ text) = Some (key, text).
Proof.
  induction key as [|c key IH]; simpl in *; intros H; [reflexivity|].
  apply andb_true_iff in H. destruct H as [C H].
  apply negb_true_iff in C. now rewrite C, (IH H).
Qed.

Lemma expand_set (key text value : string) :
  without ":" key = true ->
  getenv key = Some value ->
  expand key = value /\ expand (key ++ ":" ++ text) = value.
Proof.
  intros K G. unfold expand.
  rewrite (split_at_colon_none key K), (split_at_colon_app key text K).
  unfold GetEnv. now rewrite G.
Qed.

Lemma expand_unset (key text : string) :
  without ":" key = true ->
  getenv key = None ->
  (if String.eqb key "HOSTNAME" then gethostname else None) = None ->
  expand key = "" /\ expand (key ++ ":" ++ text) = text.
Proof.
  intros K G H. unfold expand.
  rewrite (split_at_colon_none key K), (split_at_colon_app key text K).
  unfold GetEnv. rewrite G, H. split; [reflexivity|].
  destruct (String.eqb_spec text ""); simpl; now subst.
Qed.

(** X1. [PreprocessForEnv] gives back unchanged every text that holds no
    dollar sign, and every text that holds no closing brace: plain values,
    and a macro that is opened but never closed. *)
Theorem text_without_macro_is_kept (value : string) :
  without "$" value = true \/ without "}" value = true ->
  PreprocessForEnv value = value.
Proof.
  intros H. now rewrite PreprocessForEnv_eq, (regex_search_none value H).
Qed.

(** X2. A macro [${env:KEY}] or [${env:KEY:default}] whose variable is set
    is replaced by the variable's value, the empty value included: the
    default is not used, the value is put in as it is (a macro inside it is
    not expanded), and the scan goes on after the closing brace. *)
Theorem set_variable_replaces_macro (before key text after value : string) :
  without "$" before = true ->
  without ":" key = true ->
  without "}" key = true ->
  without "}" text = true ->
  getenv key = Some value ->
  PreprocessForEnv (before ++ "${env:" ++ key ++ "}" ++ after)
  = before ++ value ++ PreprocessForEnv after
  /\ PreprocessForEnv (before ++ "${env:" ++ key ++ ":" ++ text ++ "}" ++ after)
     = before ++ value ++ PreprocessForEnv after.
Proof.
  intros B K Kb Tb G. destruct (expand_set key text value K G) as [E1 E2].
  split.
  - now rewrite (PreprocessForEnv_macro before key after B Kb), E1.
  - replace (key ++ ":" ++ text ++ "}" ++ after)
      with ((key ++ ":" ++ text) ++ "}" ++ after) by now rewrite !append_assoc.
    rewrite (PreprocessForEnv_macro before (key ++ ":" ++ text) after B), E2;
      [reflexivity|].
    rewrite !without_app, Kb, Tb. reflexivity.
Qed.

(** X3. A macro whose variable is not set (and is not [HOSTNAME]) is
    replaced by its default, which is everything after the first colon of
    the token and so may hold colons itself; without default the macro is
    replaced by nothing. *)
Theorem unset_variable_takes_default (before key text after : string) :
  without "$" before = true ->
  without ":" key = true ->
  without "}" key = true ->
  without "}" text = true ->
  getenv key = None ->
  key <> "HOSTNAME" ->
  PreprocessForEnv (before ++ "${env:" ++ key ++ ":" ++ text ++ "}" ++ after)
  = before ++ text ++ PreprocessForEnv after
  /\ PreprocessForEnv (before ++ "${env:" ++ key ++ "}" ++ after)
     = before ++ PreprocessForEnv after.
Proof.
  intros B K Kb Tb G N.
  assert (H : (if String.eqb key "HOSTNAME" then gethostname else None) = None).
  { apply String.eqb_neq in N. now rewrite N. }
  destruct (expand_unset key text K G H) as [E1 E2].
  split.
  - replace (key ++ ":" ++ text ++ "}" ++ after)
      with ((key ++ ":" ++ text) ++ "}" ++ after) by now rewrite !append_assoc.
    rewrite (PreprocessForEnv_macro before (key ++ ":" ++ text) after B), E2;
      [reflexivity|].
    rewrite !without_app, Kb, Tb. reflexivity.
  - now rewrite (PreprocessForEnv_macro before key after B Kb), E1.
Qed.

(** X4. When the environment has no [HOSTNAME], the macro
    [${env:HOSTNAME:default}] is replaced by the host name of the machine,
    and by the default only if the host name cannot be read. *)
Theorem hostname_macro_reads_the_host_name (before text after : string) :
  without "$" before = true ->
  without "}" text = true ->
  getenv "HOSTNAME" = None ->
  PreprocessForEnv (before ++ "${env:" ++ "HOSTNAME" ++ ":" ++ text ++ "}" ++ after)
  = before
    ++ match gethostname with Some hostname => hostname | None => text end
    ++ PreprocessForEnv after.
Proof.
  intros B Tb G.
  replace ("HOSTNAME" ++ ":" ++ text ++ "}" ++ after)
    with (("HOSTNAME" ++ ":" ++ text) ++ "}" ++ after) by now rewrite !append_assoc.
  rewrite (PreprocessForEnv_macro before ("HOSTNAME" ++ ":" ++ text) after B).
  2:{ rewrite !without_app, Tb. reflexivity. }
  f_equal. f_equal. unfold expand.
  rewrite (split_at_colon_app "HOSTNAME" text eq_refl).
  unfold GetEnv. rewrite G. simpl String.eqb.
  destruct gethostname as [hostname|]; [reflexivity|].
  destruct (String.eqb_spec text ""); simpl; now subst.
Qed.

End MacroFacts.

(* ================================================================== *)
(** * More properties of the packetizer *)
(* ================================================================== *)
Section TrackFacts.

Import Track.

Context {ext : Externals}.

Lemma append_inj_l (a x y : string) : a ++ x = a ++ y -> x = y.
Proof.
  induction a as [|c a IH]; simpl; intros H; [exact H|].
  injection H as H. exact (IH H).
Qed.

Lemma string_length_app (a b : string) :
  String.length (a ++ b) = (String.length a + String.length b)%nat.
Proof.
  induction a as [|x a IH]; simpl; [reflexivity | now rewrite IH].
Qed.

Lemma append_inj_r (a b s : string) : a ++ s = b ++ s -> a = b.
Proof.
  revert b. induction a as [|c a IH]; intros b H.
  - destruct b as [|d b]; [reflexivity|].
    apply (f_equal String.length) in H. simpl in H.
    rewrite string_length_app in H. lia.
  - destruct b as [|d b].
    + apply (f_equal String.length) in H. simpl in H.
      rewrite string_length_app in H. lia.
    + simpl in H. injection H as -> H. now rewrite (IH b H).
Qed.

(** Different numbers have different decimal digits. *)
Lemma show_N_inj (n m : N) : show_N n = show_N m -> n = m.
Proof.
  unfold show_N. intros H.
  assert (Nn : forall k, N.to_uint k <> Nil).
  { intros [|k]; [discriminate | apply DecimalPos.Unsigned.to_uint_nonnil]. }
  apply (f_equal NilZero.uint_of_string) in H.
  rewrite !NilZero.usu in H by apply Nn.
  injection H as H. now apply DecimalN.Unsigned.to_uint_inj.
Qed.

(** X5. Two packetizers with the same settings that give a track the same
    file name have the same sequence number for it: as long as the counter
    moves on, no file name of a track comes back. *)
Theorem file_names_do_not_collide (mt : MediaType) (ts ts' : Z)
    (p p' : CmafPacketyzer) (name : string) :
  settings p' = settings p ->
  GetFileName ts mt p = Some (name, p, []) ->
  GetFileName ts' mt p' = Some (name, p', []) ->
  sequence_number mt p' = sequence_number mt p.
Proof.
  intros S H H'. rewrite GetFileName_eq in H, H'. rewrite S in H'.
  injection H as H. injection H' as H'. rewrite <- H in H'. clear H.
  apply append_inj_l in H'. simpl in H'. injection H' as H'.
  apply append_inj_r in H'. now apply show_N_inj.
Qed.

Lemma drift_diagnostic_names_nothing (p : CmafPacketyzer) :
  completed_names (drift_diagnostic p) = [].
Proof.
  unfold drift_diagnostic.
  destruct ((0 <=? _last_video_pts p)%Z && (0 <=? _last_audio_pts p)%Z);
    [|reflexivity].
  now destruct (_video_track (settings p)), (_audio_track (settings p)).
Qed.

(** X8. A packetizer built without sink never notifies one: no call sends
    a chunk push or a completion. *)
Theorem null_sink_is_never_notified (c : Call) (p p' : CmafPacketyzer)
    (answer : bool) (events : list Event) :
  _chunked_transfer (settings p) = false ->
  call c p = Some (answer, p', events) ->
  filter is_sink_event events = [].
Proof.
  intros Z H. apply call_effect in H.
  destruct H as [ data writer W | data writer W | mt' w writer W E
                | mt' w writer W E St | mt' w writer q W E St Q T | | ];
    rewrite ?Z; try reflexivity.
  - now destruct (snd (AppendSample writer data)).
  - now destruct (snd (AppendSample writer data)).
  - cbn [app filter is_sink_event]. rewrite app_nil_r.
    apply drift_diagnostic_is_log.
Qed.

(** X9. A finalize leaves the track's writer empty whatever its answer: a
    second finalize of the same track, directly after, finds nothing to
    flush, answers success and changes nothing. No fragment is stored
    twice. *)
Theorem second_finalize_finds_nothing (mt : MediaType) (w w' : World)
    (p p1 : CmafPacketyzer) (answer : bool) (events : list Event) :
  FinalizeSegment mt w p = Some (answer, p1, events) ->
  FinalizeSegment mt w' p1 = Some (true, p1, [Logtd (no_data mt)]).
Proof.
  intros H. rewrite FinalizeSegment_eq in H.
  destruct (chunk_writer mt p) as [writer|] eqn:W; [|discriminate].
  destruct (GetSampleCount writer =? 0)%N eqn:E.
  - injection H as <- <- <-. now rewrite FinalizeSegment_eq, W, E.
  - cbv zeta in H. destruct (storage_ok w).
    + match type of H with context [tracks_available ?x] =>
        destruct (tracks_available x) end; [|discriminate].
      injection H as <- <- <-. rewrite FinalizeSegment_eq.
      now destruct mt.
    + injection H as <- <- <-. rewrite FinalizeSegment_eq. now destruct mt.
Qed.

Lemma answer_inv {A B C} (a a' : A) (b b' : B) (c c' : C) :
  Some (a, b, c) = Some (a', b', c') -> a = a' /\ b = b' /\ c = c'.
Proof. intros H. now injection H. Qed.

Lemma completed_names_stored (p' : CmafPacketyzer) (rest : list Event) :
  completed_names ((Logtd TryingToUpdatePlaylist :: drift_diagnostic p') ++ rest)
  = completed_names rest.
Proof.
  unfold completed_names at 1. rewrite flat_map_app. cbn [flat_map app].
  fold (completed_names (drift_diagnostic p')).
  now rewrite (drift_diagnostic_names_nothing p').
Qed.

(** ** The append callbacks *)

Lemma append_callback_eq (mt : MediaType) (data : SampleData) (p : CmafPacketyzer) :
  append_callback mt data p
  = match chunk_writer mt p with
    | None => None
    | Some writer =>
        Some (tt,
              match mt with
              | Video =>
                  set_last_video_pts (timestamp data)
                    (set_video_chunk_writer (Some (fst (AppendSample writer data))) p)
              | Audio =>
                  set_last_audio_pts (timestamp data)
                    (set_audio_chunk_writer (Some (fst (AppendSample writer data))) p)
              end,
              match snd (AppendSample writer data) with
              | Some chunk =>
                  if _chunked_transfer (settings p)
                  then [OnCmafChunkDataPush (_app_name (settings p))
                          (_stream_name (settings p)) (segment_name mt p)
                          (is_video mt) chunk]
                  else []
              | None => []
              end)
    end.
Proof.
  destruct mt; [apply AppendVideoFrame_callback_eq | apply AppendAudioFrame_callback_eq].
Qed.

Lemma segment_name_same (k : MediaType) (p p' : CmafPacketyzer) :
  settings p' = settings p ->
  sequence_number k p' = sequence_number k p ->
  segment_name k p' = segment_name k p.
Proof.
  intros S N. destruct k; unfold segment_name; simpl in N; now rewrite S, N.
Qed.

(** What one callback does: it works on the writer and the last-seen
    timestamp of its track, and pushes at most one chunk, named after the
    open segment of its track. *)
Lemma append_callback_inv (mt : MediaType) (data : SampleData)
    (p p' : CmafPacketyzer) (r : unit) (events : list Event) :
  append_callback mt data p = Some (r, p', events) ->
  (exists writer,
     chunk_writer mt p = Some writer
     /\ chunk_writer mt p' = Some (fst (AppendSample writer data)))
  /\ (forall k, k <> mt -> untouched k p p')
  /\ kept p p'
  /\ (forall k, sequence_number k p' = sequence_number k p)
  /\ (forall k name, In name (pushed_names k events) -> name = segment_name k p).
Proof.
  intros H. rewrite append_callback_eq in H.
  destruct (chunk_writer mt p) as [writer|] eqn:W; [|discriminate].
  apply answer_inv in H. destruct H as (_ & <- & <-).
  split; [exists writer; split; [reflexivity | now destruct mt]|].
  split; [intros k N; destruct mt, k; try (now contradiction N); now repeat split|].
  split; [now destruct mt|].
  split; [intros k; now destruct mt, k|].
  intros k name I.
  destruct (snd (AppendSample writer data)); [|contradiction I].
  destruct (_chunked_transfer (settings p)); [|contradiction I].
  destruct mt, k; simpl in I; try contradiction I;
    destruct I as [I|I]; try contradiction I; now symmetry.
Qed.

(** ** The segment writers *)

Lemma FinalizeSegment_inv (mt : MediaType) (w : World) (p p' : CmafPacketyzer)
    (answer : bool) (events : list Event) :
  FinalizeSegment mt w p = Some (answer, p', events) ->
  (forall k, k <> mt -> untouched k p p')
  /\ (answer = false -> kept p p')
  /\ (forall writer, chunk_writer mt p = Some writer ->
                     GetSampleCount writer = 0%N -> p' = p).
Proof.
  intros H. rewrite FinalizeSegment_eq in H.
  destruct (chunk_writer mt p) as [writer|] eqn:W; [|discriminate].
  destruct (GetSampleCount writer =? 0)%N eqn:E.
  - apply answer_inv in H. destruct H as (<- & <- & _).
    split; [now repeat split|]. split; [discriminate | reflexivity].
  - apply N.eqb_neq in E. cbv zeta in H. destruct (storage_ok w).
    + match type of H with context [tracks_available ?x] =>
        destruct (tracks_available x) end; [|discriminate].
      apply answer_inv in H. destruct H as (<- & <- & _).
      split; [intros k N; destruct mt, k; try (now contradiction N);
              now repeat split|].
      split; [discriminate|].
      intros writer' [= <-] Z. now contradiction E.
    + apply answer_inv in H. destruct H as (<- & <- & _).
      split; [intros k N; destruct mt, k; try (now contradiction N);
              now repeat split|].
      split; [intros _; now destruct mt|].
      intros writer' [= <-] Z. now contradiction E.
Qed.

(** X6. The append callback and the segment writer of one track leave
    the other track as it was: its writer, its sequence number, its stored
    segments and its last-seen timestamp. A play list request leaves the
    whole packetizer as it was. *)
Theorem calls_leave_the_other_track_alone (mt : MediaType) (p p' : CmafPacketyzer)
    (events : list Event) :
  (forall data r,
     append_callback (other mt) data p = Some (r, p', events) ->
     untouched mt p p')
  /\ (forall w answer,
        FinalizeSegment (other mt) w p = Some (answer, p', events) ->
        untouched mt p p')
  /\ (forall w play_list answer,
        GetPlayList w play_list p = Some (answer, p', events) -> p' = p).
Proof.
  assert (N : mt <> other mt) by (destruct mt; discriminate).
  split; [|split].
  - intros data r H.
    exact (proj1 (proj2 (append_callback_inv _ _ _ _ _ _ H)) mt N).
  - intros w answer H. exact (proj1 (FinalizeSegment_inv _ _ _ _ _ _ H) mt N).
  - intros w play_list answer H. rewrite GetPlayList_eq in H.
    destruct (_streaming_start p).
    + destruct (FormatString _ _); [|discriminate].
      apply answer_inv in H. now destruct H as (_ & <- & _).
    + apply answer_inv in H. now destruct H as (_ & <- & _).
Qed.

(** X7. The cached play list, the streaming flag and the settings are
    written by a segment writer that stores a segment and by nothing else in
    the file: the append callbacks, a segment writer that answers failure or
    finds no sample, and the play list requests leave them as they are; a
    segment writer that found samples and answers success sets the flag and
    caches the play list rendered at that call. *)
Theorem play_list_changes_only_when_a_segment_is_stored (p p' : CmafPacketyzer)
    (events : list Event) :
  (forall mt data r,
     append_callback mt data p = Some (r, p', events) -> kept p p')
  /\ (forall mt w, FinalizeSegment mt w p = Some (false, p', events) -> kept p p')
  /\ (forall mt w writer answer,
        chunk_writer mt p = Some writer ->
        GetSampleCount writer = 0%N ->
        FinalizeSegment mt w p = Some (answer, p', events) -> kept p p')
  /\ (forall w play_list answer,
        GetPlayList w play_list p = Some (answer, p', events) -> kept p p')
  /\ (forall mt w writer,
        chunk_writer mt p = Some writer ->
        GetSampleCount writer <> 0%N ->
        FinalizeSegment mt w p = Some (true, p', events) ->
        _streaming_start p' = true /\ _play_list p' = rendered w p').
Proof.
  repeat apply conj.
  - intros mt data r H.
    exact (proj1 (proj2 (proj2 (append_callback_inv _ _ _ _ _ _ H)))).
  - intros mt w H.
    exact (proj1 (proj2 (FinalizeSegment_inv _ _ _ _ _ _ H)) eq_refl).
  - intros mt w writer answer W E H.
    rewrite (proj2 (proj2 (FinalizeSegment_inv _ _ _ _ _ _ H)) writer W E).
    now repeat split.
  - intros w play_list answer H. rewrite GetPlayList_eq in H.
    destruct (_streaming_start p).
    + destruct (FormatString _ _); [|discriminate].
      apply answer_inv in H. destruct H as (_ & <- & _). now repeat split.
    + apply answer_inv in H. destruct H as (_ & <- & _). now repeat split.
  - intros mt w writer W E H.
    exact (finalized_play_list mt w p p' writer events W E H).
Qed.

(** ** The fragment between two segment writes *)

Lemma append_callbacks_cons (mt : MediaType) (data : SampleData)
    (frames : list (MediaType * SampleData)) (p : CmafPacketyzer) :
  append_callbacks ((mt, data) :: frames) p
  = match append_callback mt data p with
    | None => None
    | Some (_, q, e1) =>
        match append_callbacks frames q with
        | None => None
        | Some (r, p1, e2) => Some (r, p1, (e1 ++ e2)%list)
        end
    end.
Proof. reflexivity. Qed.

Lemma pushed_names_app (k : MediaType) (e1 e2 : list Event) :
  pushed_names k (e1 ++ e2) = (pushed_names k e1 ++ pushed_names k e2)%list.
Proof. apply flat_map_app. Qed.

(** The writer of track [k] holds a sample. *)
Lemma append_callbacks_inv (frames : list (MediaType * SampleData)) :
  forall (p p1 : CmafPacketyzer) (r : unit) (events : list Event),
    append_callbacks frames p = Some (r, p1, events) ->
    settings p1 = settings p
    /\ (forall k, sequence_number k p1 = sequence_number k p)
    /\ (forall k name, In name (pushed_names k events) -> name = segment_name k p)
    /\ (forall k, In k (map fst frames) ->
                  exists writer, chunk_writer k p1 = Some writer
                                 /\ GetSampleCount writer <> 0%N)
    /\ (forall k writer, chunk_writer k p = Some writer ->
                         GetSampleCount writer <> 0%N ->
                         exists writer', chunk_writer k p1 = Some writer'
                                         /\ GetSampleCount writer' <> 0%N).
Proof.
  induction frames as [|[mt data] frames IH]; intros p p1 r events H.
  - apply answer_inv in H. destruct H as (_ & <- & <-).
    repeat split; try contradiction. intros k writer W E. now exists writer.
  - rewrite append_callbacks_cons in H.
    destruct (append_callback mt data p) as [[[r0 q] e1]|] eqn:A; [|discriminate].
    destruct (append_callbacks frames q) as [[[r1 q1] e2]|] eqn:B; [|discriminate].
    apply answer_inv in H. destruct H as (_ & <- & <-).
    destruct (append_callback_inv _ _ _ _ _ _ A)
      as ((writer & W & W') & U & (_ & _ & S) & N & P).
    destruct (IH _ _ _ _ B) as (S' & N' & P' & I' & K').
    assert (Q : exists writer', chunk_writer mt q1 = Some writer'
                                /\ GetSampleCount writer' <> 0%N).
    { apply (K' mt _ W'). unfold GetSampleCount. simpl. lia. }
    repeat apply conj.
    + now rewrite S', S.
    + intros k. now rewrite N', N.
    + intros k name I. rewrite pushed_names_app in I.
      apply in_app_or in I. destruct I as [I|I]; [now apply P|].
      rewrite (P' k name I). apply segment_name_same; [exact S | apply N].
    + intros k [<- | I]; [exact Q | now apply I'].
    + intros k writer0 W0 E0.
      assert (E : k = mt \/ k <> mt) by (destruct k, mt; auto; right; discriminate).
      destruct E as [-> | D]; [exact Q|].
      apply (K' k writer0); [|exact E0].
      destruct (U k D) as (Wk & _). now rewrite Wk.
Qed.

(** X10. The chunks pushed while a fragment is open carry the file name
    under which the fragment is completed. Whatever callbacks run between
    two segment writes, for samples of either track: every chunk they push
    for a track names the segment that was open for that track at the start,
    and the completion the next segment write of the track sends carries the
    same name; when at least one sample of the track was appended and the
    write answers success, it sends exactly that one completion (to a sink
    that is not null). *)
Theorem chunk_pushes_name_the_segment_being_finalized (mt : MediaType)
    (frames : list (MediaType * SampleData)) (w : World)
    (p p1 p2 : CmafPacketyzer) (r : unit) (answer : bool)
    (pushed completed : list Event) :
  append_callbacks frames p = Some (r, p1, pushed) ->
  FinalizeSegment mt w p1 = Some (answer, p2, completed) ->
  (forall name, In name (pushed_names mt pushed) -> name = segment_name mt p)
  /\ (forall name, In name (completed_names completed) -> name = segment_name mt p)
  /\ (In mt (map fst frames) ->
      answer = true ->
      _chunked_transfer (settings p) = true ->
      completed_names completed = [segment_name mt p]).
Proof.
  intros A F.
  destruct (append_callbacks_inv _ _ _ _ _ A) as (S & N & P & I & _).
  assert (Nm : segment_name mt p1 = segment_name mt p)
    by (apply segment_name_same; [exact S | apply N]).
  split; [apply P|].
  rewrite FinalizeSegment_eq in F.
  destruct (chunk_writer mt p1) as [writer|] eqn:W; [|discriminate].
  destruct (GetSampleCount writer =? 0)%N eqn:E.
  - apply answer_inv in F. destruct F as (_ & _ & <-).
    split; [intros name []|].
    intros Im _ _. destruct (I mt Im) as (writer' & W' & E').
    rewrite W in W'. injection W' as <-. apply N.eqb_eq in E. now contradiction E'.
  - cbv zeta in F. destruct (storage_ok w).
    + match type of F with context [tracks_available ?x] =>
        destruct (tracks_available x) end; [|discriminate].
      apply answer_inv in F. destruct F as (_ & _ & <-).
      rewrite completed_names_stored, S, Nm.
      destruct (_chunked_transfer (settings p)).
      * split; [intros name [<- | []]; reflexivity | reflexivity].
      * split; [intros name [] | discriminate].
    + apply answer_inv in F. destruct F as (<- & _ & <-).
      split; [intros name [] | discriminate].
Qed.

(** ** Null writers *)

(** A track has a writer exactly when it has a descriptor. *)
Lemma writers_follow_tracks_effect (c : Call) (p p' : CmafPacketyzer)
    (answer : bool) (events : list Event) :
  (forall mt, has (chunk_writer mt p) = has (track mt (settings p))) ->
  effect p c answer p' events ->
  forall mt, has (chunk_writer mt p') = has (track mt (settings p')).
Proof.
  intros I H mt. pose proof (I Video) as Iv. pose proof (I Audio) as Ia.
  destruct H as [ data writer W | data writer W | mt' w writer W E
                | mt' w writer W E St | mt' w writer q W E St Q T | | ];
    try apply I; try subst q;
    destruct mt; try destruct mt'; simpl in *; rewrite ?W in *; assumption.
Qed.

Lemma writers_follow_tracks_reachable (p0 p : CmafPacketyzer) :
  (forall mt, has (chunk_writer mt p0) = has (track mt (settings p0))) ->
  reachable p0 p ->
  settings p = settings p0
  /\ forall mt, has (chunk_writer mt p) = has (track mt (settings p)).
Proof.
  intros I R. induction R as [|p p' c answer events R [S IH] H].
  - now split.
  - apply call_effect in H. split.
    + now rewrite (effect_settings c p p' answer events H).
    + exact (writers_follow_tracks_effect c p p' answer events IH H).
Qed.

(** X11. On a packetizer a constructor built, whatever callbacks and
    segment writers ran on it since, the append callback and the segment
    writer of a track return exactly when the constructor was given the
    track: with the track both end, and without it both dereference the null
    pointer that stands for the track's writer. *)
Theorem call_returns_exactly_on_a_configured_track
    (start_time par : string) (keep : nat) (app stream prefix : string)
    (count : N) (seg_duration : Z) (video_track audio_track : option MediaTrack)
    (chunked_transfer : bool) (mt : MediaType) (p : CmafPacketyzer)
    (data : SampleData) (w : World) :
  let p0 := new_CmafPacketyzer start_time par keep app stream prefix count
              seg_duration video_track audio_track chunked_transfer in
  reachable p0 p ->
  ((exists r p' events, append_callback mt data p = Some (r, p', events))
   <-> has (track mt (settings p0)) = true)
  /\ ((exists answer p' events, FinalizeSegment mt w p = Some (answer, p', events))
      <-> has (track mt (settings p0)) = true).
Proof.
  intros p0 R.
  assert (I : invariant p)
    by (apply (invariant_reachable p0); [apply invariant_new | exact R]).
  destruct I as (C & _).
  destruct (writers_follow_tracks_reachable p0 p) as [S W]; [|exact R|].
  { intros [|]; simpl; [now destruct video_track | now destruct audio_track]. }
  rewrite <- S, <- W. split.
  - rewrite append_callback_eq. destruct (chunk_writer mt p); simpl.
    + split; [reflexivity | intros _; now eexists _, _, _].
    + split; [now intros (? & ? & ? & ?) | discriminate].
  - destruct (chunk_writer mt p) as [writer|] eqn:Wr; simpl.
    + split; [reflexivity | intros _].
      exact (FinalizeSegment_returns mt w p writer C Wr).
    + rewrite FinalizeSegment_eq, Wr.
      split; [now intros (? & ? & ? & ?) | discriminate].
Qed.

(** ** The play list since the last stored segment *)

(** A call that stored no segment leaves what the play list requests read,
    and the sequence numbers. *)
Lemma quiet_call (c : Call) (p p' : CmafPacketyzer) (answer : bool)
    (events : list Event) :
  call c p = Some (answer, p', events) ->
  finalized Video c p answer = false ->
  finalized Audio c p answer = false ->
  kept p p' /\ forall k, sequence_number k p' = sequence_number k p.
Proof.
  intros H V A. apply call_effect in H. split.
  - destruct H as [ data writer W | data writer W | mt' w writer W E
                  | mt' w writer W E St | mt' w writer q W E St Q T | | ];
      try (now repeat split);
      try (destruct mt'; now repeat split).
    apply N.eqb_neq in E.
    destruct mt'; simpl in *; rewrite W, E in *; discriminate.
  - intros k. rewrite (effect_sequence_number k c p p' answer events H).
    destruct k; [rewrite V | rewrite A]; apply N.add_0_r.
Qed.

Lemma since_stored_kept (p1 p2 : CmafPacketyzer) :
  since_stored p1 p2 ->
  kept p1 p2 /\ forall k, sequence_number k p2 = sequence_number k p1.
Proof.
  intros R. induction R as [|p p' c answer events R [(L & S & T) N] H V A].
  - now repeat split.
  - destruct (quiet_call c p p' answer events H V A) as [(L' & S' & T') N'].
    split; [unfold kept; repeat split; congruence|].
    intros k. now rewrite N', N.
Qed.

(** A call that finalized a segment is a segment write that found samples
    and answered success. *)
Lemma finalized_stores (mt : MediaType) (c : Call) (p : CmafPacketyzer)
    (answer : bool) :
  finalized mt c p answer = true ->
  exists w writer,
    c = finalize mt w /\ answer = true
    /\ chunk_writer mt p = Some writer /\ GetSampleCount writer <> 0%N.
Proof.
  destruct mt, c as [data|data|w|w|w play_list]; simpl; try discriminate;
    intros H; apply andb_true_iff in H; destruct H as [-> H];
    exists w.
  - destruct (_video_chunk_writer p) as [writer|]; [|discriminate].
    exists writer. repeat split. apply negb_true_iff in H. now apply N.eqb_neq.
  - destruct (_audio_chunk_writer p) as [writer|]; [|discriminate].
    exists writer. repeat split. apply negb_true_iff in H. now apply N.eqb_neq.
Qed.

(** Once streaming has started there is a last segment write that stored a
    segment. *)
Lemma last_stored (p0 p2 : CmafPacketyzer) :
  reachable p0 p2 ->
  _streaming_start p0 = false ->
  _streaming_start p2 = true ->
  exists mt wc p p1 writer events,
    reachable p0 p
    /\ chunk_writer mt p = Some writer
    /\ GetSampleCount writer <> 0%N
    /\ FinalizeSegment mt wc p = Some (true, p1, events)
    /\ since_stored p1 p2.
Proof.
  intros R Z. induction R as [|p p' c answer events R IH H]; intros St.
  - congruence.
  - assert (Stored : forall mt, finalized mt c p answer = true ->
              exists mt wc p p1 writer events,
                reachable p0 p
                /\ chunk_writer mt p = Some writer
                /\ GetSampleCount writer <> 0%N
                /\ FinalizeSegment mt wc p = Some (true, p1, events)
                /\ since_stored p1 p').
    { intros mt F.
      destruct (finalized_stores mt c p answer F) as (w & writer & -> & -> & W & E).
      rewrite call_finalize in H.
      exists mt, w, p, p', writer, events. repeat split; try assumption.
      apply since_now. }
    destruct (finalized Video c p answer) eqn:V; [now apply (Stored Video)|].
    destruct (finalized Audio c p answer) eqn:A; [now apply (Stored Audio)|].
    destruct (quiet_call c p p' answer events H V A) as [(_ & S & _) _].
    rewrite S in St.
    destruct (IH St) as (mt & wc & q & q1 & writer & ev & Rq & W & E & F & Q).
    exists mt, wc, q, q1, writer, ev. repeat split; try assumption.
    exact (since_call q1 p p' c answer events Q H V A).
Qed.

(** C9, as the code has it. Once streaming has started there is a last
    segment write that stored a segment, at some clock [wc]; whatever was
    called since, the cached play list is the text that write rendered (its
    [publishTime] is the second of [wc]), and, the strings written into it
    holding no percent sign, every [GetPlayList] answers that text with the
    request's time as the value of the UTCTiming element: the text before
    and the text after that value do not depend on the request. *)
Theorem manifest_served_from_cache
    (start_time par : string) (keep : nat) (app stream prefix : string)
    (count : N) (seg_duration : Z) (video_track audio_track : option MediaTrack)
    (chunked_transfer : bool) (p2 : CmafPacketyzer) :
  let p0 := new_CmafPacketyzer start_time par keep app stream prefix count
              seg_duration video_track audio_track chunked_transfer in
  reachable p0 p2 ->
  _streaming_start p2 = true ->
  plain p2 = true ->
  (forall t, percent_free (MakeUtcSecond t) = true) ->
  exists mt wc p p1 writer events,
    reachable p0 p
    /\ chunk_writer mt p = Some writer
    /\ GetSampleCount writer <> 0%N
    /\ FinalizeSegment mt wc p = Some (true, p1, events)
    /\ since_stored p1 p2
    /\ _play_list p1 = rendered wc p1
    /\ _play_list p2 = _play_list p1
    /\ before_utc_value wc p2 = before_utc_value wc p1
    /\ before_utc_value wc p2
       = str (mpd_open 30%float) ++ MakeUtcSecond (time wc)
         ++ str (mpd_attributes p2 6%float ++ video_listing p2 ++ audio_listing p2
                 ++ [period_close])%list
         ++ utc_timing_open
    /\ forall w play_list,
         GetPlayList w play_list p2
         = Some ((true, before_utc_value wc p2 ++ MakeUtcMillisecond (clock_ms w)
                        ++ after_utc_value), p2, []).
Proof.
  intros p0 R St P T.
  destruct (last_stored p0 p2 R eq_refl St)
    as (mt & wc & p & p1 & writer & events & Rp & W & E & F & Q).
  exists mt, wc, p, p1, writer, events.
  destruct (finalized_play_list mt wc p p1 writer events W E F) as [_ L1].
  destruct (since_stored_kept p1 p2 Q) as [(L & _ & S) N].
  assert (Rd : rendered wc p2 = rendered wc p1)
    by (apply rendered_same; [exact S | apply (N Video) | apply (N Audio)]).
  assert (B : before_utc_value wc p2 = before_utc_value wc p1).
  { unfold before_utc_value, mpd_attributes, video_listing, audio_listing,
      video_adaptation_set, audio_adaptation_set.
    pose proof (N Video) as Nv. pose proof (N Audio) as Na. simpl in Nv, Na.
    now rewrite S, Nv, Na. }
  repeat split; try assumption.
  - unfold before_utc_value. rewrite !str_app. cbn [str fold_right].
    rewrite ?append_assoc, ?append_empty_r. reflexivity.
  - intros w play_list. apply GetPlayList_rendered; try assumption.
    + now rewrite L, L1, Rd.
    + apply T.
Qed.

End TrackFacts.

(* ================================================================== *)
(** * More properties of the data source *)
(* ================================================================== *)
Section ItemFacts.

Import Items.

Context {lib : Library}.

Lemma find_map {A B} (f : B -> bool) (g : A -> B) (l : list A) :
  find f (map g l) = option_map g (find (fun x => f (g x)) l).
Proof.
  induction l as [|x l IH]; simpl; [reflexivity|].
  now destruct (f (g x)).
Qed.

Lemma find_filter {A} (f g : A -> bool) (l : list A) :
  find f (filter g l) = find (fun x => g x && f x) l.
Proof.
  induction l as [|x l IH]; simpl; [reflexivity|].
  destruct (g x); simpl; [now destruct (f x) | exact IH].
Qed.

Lemma find_first {A} (f : A -> bool) (l : list A) (x : A) :
  find f l = Some x ->
  exists before after,
    l = (before ++ x :: after)%list
    /\ (forall y, In y before -> f y = false)
    /\ f x = true.
Proof.
  induction l as [|y l IH]; simpl; [discriminate|].
  destruct (f y) eqn:Fy.
  - intros [= ->]. exists [], l. now repeat split.
  - intros H. destruct (IH H) as (before & after & -> & B & Fx).
    exists (y :: before), after. repeat split; [|exact Fx].
    intros z [<- | I]; [exact Fy | now apply B].
Qed.

Lemma find_nothing {A} (f : A -> bool) (l : list A) :
  find f l = None <-> forall x, In x l -> f x = false.
Proof.
  split; [apply find_none|].
  induction l as [|y l IH]; simpl; intros H; [reflexivity|].
  rewrite (H y (or_introl eq_refl)). apply IH. intros x I. apply H. now right.
Qed.

(** The check of unknown items is a search for the first name that is not
    declared. *)
Lemma CheckUnknownItems_eq (Child : Type) (this : DataSource)
    (file_path path : string)
    (children_for_xml children_for_json : list (string * Child)) :
  CheckUnknownItems Child this file_path path children_for_xml children_for_json
  = match find (fun name =>
                  negb (known Child (declared this children_for_xml children_for_json)
                          name))
               (checked_names this) with
    | Some name => Throws (unknown_item file_path path name)
    | None => Returns tt
    end.
Proof.
  unfold CheckUnknownItems, checked_names, declared. destruct (_type this).
  - rewrite find_map.
    now destruct (find _ (node_children (_node this))).
  - destruct (isObject (_json this)); [|reflexivity].
    now rewrite find_filter.
Qed.

(** X12. [CheckUnknownItems] returns exactly when every name it looks at
    (the children of the XML node, or the members of the JSON object other
    than ["$"]) is declared for the notation of the source; otherwise it
    throws for the first name that is not declared, in the order in which
    the children or the member names are gone through. Of a JSON value that
    is not an object nothing is checked. *)
Theorem unknown_items_are_refused (Child : Type) (this : DataSource)
    (file_path path : string)
    (children_for_xml children_for_json : list (string * Child)) :
  let children := declared this children_for_xml children_for_json in
  let check :=
    CheckUnknownItems Child this file_path path children_for_xml
      children_for_json in
  (check = Returns tt
   <-> forall name, In name (checked_names this) ->
                    known Child children name = true)
  /\ (forall e, check = Throws e ->
        exists before name after,
          checked_names this = (before ++ name :: after)%list
          /\ (forall other, In other before -> known Child children other = true)
          /\ known Child children name = false
          /\ e = unknown_item file_path path name)
  /\ check <> Undefined
  /\ (_type this = Json_ -> isObject (_json this) = false -> check = Returns tt).
Proof.
  intros children check. subst check. rewrite CheckUnknownItems_eq.
  fold children.
  destruct (find _ (checked_names this)) as [name|] eqn:F.
  - destruct (find_first _ _ _ F) as (before & after & E & B & U).
    apply negb_true_iff in U. repeat split; try discriminate.
    + intros H. rewrite H in U; [discriminate|].
      rewrite E. apply in_or_app. right. now left.
    + intros e [= <-]. exists before, name, after. repeat split; try assumption.
      intros other I. apply negb_false_iff. now apply B.
    + intros T O. unfold checked_names in F. now rewrite T, O in F.
  - repeat split; try discriminate.
    intros _ name I. apply negb_false_iff.
    exact (proj1 (find_nothing _ _) F name I).
Qed.

Lemma fold_append_map {A} (f : A -> Json) (l : list A) (acc : list Json) :
  fold_left (fun written x => Json_append written (f x)) l (arrayValue acc)
  = arrayValue (acc ++ map f l).
Proof.
  revert acc. induction l as [|x l IH]; intros acc; simpl.
  - now rewrite app_nil_r.
  - rewrite IH. now rewrite <- app_assoc.
Qed.

Lemma fold_append (l acc : list Json) :
  fold_left Json_append l (arrayValue acc) = arrayValue (acc ++ l).
Proof.
  rewrite <- (map_id l) at 2. exact (fold_append_map (fun x => x) l acc).
Qed.

(** X13. The XML list reader lists the child elements of the given name in
    the order of the file, one data source per element, and writes their
    texts as an array; when no child has the name it answers the empty
    value, never an empty vector. *)
Theorem xml_list_lists_the_named_children (this : DataSource) (name : ItemName)
    (resolve_path : bool) (omit_rule : OmitRule) (previous : Json) :
  _type this = Xml ->
  node_empty (_node this) = false ->
  let children := node_children_named (_node this) (xml_name name) in
  GetValue this ValueType.List name resolve_path omit_rule (Some previous)
  = Returns (match children with
             | [] => any_empty
             | _ => any_vector (map (child_source this) children)
             end,
             Some (arrayValue (map child_text children)))
  /\ forall original_value written,
       GetValue this ValueType.List name resolve_path omit_rule original_value
       <> Returns (any_vector [], written).
Proof.
  intros T N children. unfold GetValue. rewrite T. simpl GetName.
  unfold GetValueFromXml. rewrite N. simpl negb. cbv iota.
  fold children. split.
  - rewrite (fold_append_map (fun node_child =>
                                 stringValue (child_value (Some node_child)))
               children []).
    simpl app. now destruct children.
  - intros original_value written. destruct children; simpl; discriminate.
Qed.

(** X14. The JSON list reader, on a source that holds an array, lists the
    elements of the array in order whatever the name and the omit rule, and
    writes the array back as the original value. An array without elements
    gives a vector without elements, not the empty value. *)
Theorem json_array_is_listed_as_it_is (this : DataSource) (name : ItemName)
    (resolve_path : bool) (omit_rule : OmitRule) (previous : Json)
    (items : list Json) :
  _type this = Json_ ->
  _json this = arrayValue items ->
  GetValue this ValueType.List name resolve_path omit_rule (Some previous)
  = Returns (any_vector (map (member_source this (json_name name)) items),
             Some (arrayValue items)).
Proof.
  intros T J. unfold GetValue. rewrite T. simpl GetName.
  unfold GetValueFromJson, GetJsonList. rewrite J.
  cbn [isNull negb GetJsonList_at isArray andb Json_elements].
  now rewrite (fold_append items []).
Qed.

(** X15. When the member of the given name is an array, the omit rule
    decides what is listed: under [Omit] the elements of the array, under
    [DontOmit] one data source that holds the whole array. *)
Theorem omit_rule_decides_how_an_array_member_is_listed (this : DataSource)
    (name : ItemName) (resolve_path : bool) (previous : Json) (items : list Json) :
  _type this = Json_ ->
  GetJsonValue (_json this) (json_name name) = arrayValue items ->
  GetValue this ValueType.List name resolve_path Omit (Some previous)
  = Returns (any_vector (map (member_source this (json_name name)) items),
             Some (arrayValue items))
  /\ GetValue this ValueType.List name resolve_path DontOmit (Some previous)
     = Returns (any_vector [member_source this (json_name name) (arrayValue items)],
                Some (arrayValue [arrayValue items])).
Proof.
  intros T M. unfold GetValue. rewrite T. simpl GetName.
  unfold GetValueFromJson, GetJsonList.
  destruct (_json this) as [| | | | | |members] eqn:J; try discriminate M.
  cbn [isNull negb Json_depth]. split.
  - cbn [GetJsonList_at isNull isArray negb andb]. rewrite M.
    cbn [isNull negb isArray andb Json_elements].
    now rewrite (fold_append items []).
  - cbn [GetJsonList_at isNull isArray negb andb]. rewrite M.
    cbn [isNull negb andb]. reflexivity.
Qed.

Lemma GetJsonList_at_null (depth : nat) (current_path file_name name : string)
    (omit_rule : OmitRule) (original_value : option Json) :
  GetJsonList_at depth current_path file_name nullValue name omit_rule
    original_value
  = Returns (any_empty, original_value).
Proof. now destruct depth. Qed.

(** X16. When the member of the given name is a number, a text or a
    truth value, [DontOmit] lists it as the one element, and [Omit] drops
    it: the reader looks for the name inside the value, finds nothing, and
    answers the empty value without touching the original value. *)
Theorem omit_rule_drops_a_scalar_member (this : DataSource) (name : ItemName)
    (resolve_path : bool) (previous : Json) :
  _type this = Json_ ->
  isScalar (GetJsonValue (_json this) (json_name name)) = true ->
  GetValue this ValueType.List name resolve_path Omit (Some previous)
  = Returns (any_empty, Some previous)
  /\ GetValue this ValueType.List name resolve_path DontOmit (Some previous)
     = Returns (any_vector [member_source this (json_name name)
                              (GetJsonValue (_json this) (json_name name))],
                Some (arrayValue [GetJsonValue (_json this) (json_name name)])).
Proof.
  intros T S. unfold GetValue. rewrite T. simpl GetName.
  unfold GetValueFromJson, GetJsonList.
  remember (GetJsonValue (_json this) (json_name name)) as value eqn:V.
  destruct (_json this) as [| | | | | |members] eqn:J;
    try (subst value; discriminate S).
  cbn [isNull negb Json_depth]. split.
  - cbn [GetJsonList_at isNull isArray negb andb]. rewrite <- V.
    destruct value; try discriminate S;
      cbn [isNull isArray negb andb]; apply GetJsonList_at_null.
  - cbn [GetJsonList_at isNull isArray negb andb]. rewrite <- V.
    destruct value; try discriminate S; reflexivity.
Qed.

(** A member of an object lies less deep than the object. *)
Lemma GetJsonValue_depth (json : Json) (name : string) :
  isNull (GetJsonValue json name) = true
  \/ (Json_depth (GetJsonValue json name) < Json_depth json)%nat.
Proof.
  unfold GetJsonValue.
  destruct json as [| | | | | |members]; try (now left).
  cbn [isObject]. destruct (isMember (objectValue members) name); [|now left].
  right. simpl. induction members as [|[key value] members IH]; simpl.
  - lia.
  - destruct (String.eqb key name); simpl; lia.
Qed.

(** The list reader returns: under [Omit] it calls itself on a member,
    which lies less deep, so the calls end. What it writes is written only
    through a pointer that is not null. *)
Lemma GetJsonList_at_returns (depth : nat) (current_path file_name : string)
    (json : Json) (name : string) (omit_rule : OmitRule)
    (original_value : option Json) :
  isNull json = true \/ (Json_depth json < depth)%nat ->
  exists result written,
    GetJsonList_at depth current_path file_name json name omit_rule original_value
    = Returns (result, option_map (fun _ => written) original_value).
Proof.
  revert json. induction depth as [|depth IH]; intros json H.
  - destruct H as [H|H]; [|lia]. simpl. rewrite H.
    exists any_empty, (match original_value with
                          | Some json => json
                          | None => nullValue
                          end).
      now destruct original_value.
  - simpl. destruct (isNull json) eqn:N.
    { exists any_empty, (match original_value with
                          | Some json => json
                          | None => nullValue
                          end).
      now destruct original_value. }
    destruct H as [H|H]; [discriminate|].
    destruct (negb (isArray json) && _) eqn:D.
    + apply IH. destruct (GetJsonValue_depth json name) as [G|G]; [now left|].
      right. lia.
    + destruct (negb (isArray json) && isNull _).
      * exists any_empty, (match original_value with
                          | Some json => json
                          | None => nullValue
                          end).
      now destruct original_value.
      * eexists _, _. destruct original_value; reflexivity.
Qed.

Lemma GetValueFromXml_returns (this : DataSource) (value_type : ValueType.t)
    (name : string) (is_child resolve_path : bool) :
  (forall previous, exists result written,
     GetValueFromXml this value_type name is_child resolve_path (Some previous)
     = Returns (result, Some written))
  /\ (GetValueFromXml this value_type name is_child resolve_path None = Undefined
      <-> value_type <> ValueType.List)
  /\ exists result,
       GetValueFromXml this ValueType.List name is_child resolve_path None
       = Returns (result, None).
Proof.
  unfold GetValueFromXml. repeat split.
  - intros previous.
    destruct value_type; simpl; try (now eexists _, _).
    destruct (node_empty (_node this)); simpl; now eexists _, _.
  - intros U ->. destruct (node_empty (_node this)); discriminate U.
  - intros N. destruct value_type; try reflexivity. now contradiction N.
  - destruct (node_empty (_node this)); simpl; now eexists.
Qed.

Lemma GetValueFromJson_returns (this : DataSource) (value_type : ValueType.t)
    (name : string) (is_child resolve_path : bool) (omit_rule : OmitRule) :
  (forall previous, exists result written,
     GetValueFromJson this value_type name is_child resolve_path omit_rule
       (Some previous)
     = Returns (result, Some written))
  /\ (GetValueFromJson this value_type name is_child resolve_path omit_rule None
      = Undefined
      <-> value_type <> ValueType.List)
  /\ exists result,
       GetValueFromJson this ValueType.List name is_child resolve_path omit_rule
         None
       = Returns (result, None).
Proof.
  assert (L : forall original_value, exists result written,
            GetValueFromJson this ValueType.List name is_child resolve_path
              omit_rule original_value
            = Returns (result, option_map (fun _ => written) original_value)).
  { intros original_value. unfold GetValueFromJson, GetJsonList.
    destruct (isNull (_json this)); cbn [negb].
    - exists any_empty, (match original_value with
                          | Some json => json
                          | None => nullValue
                          end).
      now destruct original_value.
    - apply GetJsonList_at_returns. right. lia. }
  repeat split.
  - intros previous. destruct value_type; try (now eexists _, _).
    exact (L (Some previous)).
  - intros U ->. destruct (L None) as (result & written & E).
    rewrite E in U. discriminate U.
  - intros N. destruct value_type; try reflexivity. now contradiction N.
  - destruct (L None) as (result & written & E). now exists result.
Qed.

(** X17. With an original value to write to, [GetValue] and [GetRootValue]
    return whatever is asked: in particular the list reader's calls to
    itself end. The pointer may be null only when a list is read: every
    other value type writes through it without a check. *)
Theorem only_the_list_reader_accepts_a_null_original_value (this : DataSource)
    (value_type : ValueType.t) (name : ItemName) (resolve_path : bool)
    (omit_rule : OmitRule) :
  (forall previous,
     (exists result written,
        GetValue this value_type name resolve_path omit_rule (Some previous)
        = Returns (result, Some written))
     /\ (exists result written,
           GetRootValue this value_type resolve_path omit_rule (Some previous)
           = Returns (result, Some written)))
  /\ (GetValue this value_type name resolve_path omit_rule None = Undefined
      <-> value_type <> ValueType.List)
  /\ (GetRootValue this value_type resolve_path omit_rule None = Undefined
      <-> value_type <> ValueType.List)
  /\ (exists result,
        GetValue this ValueType.List name resolve_path omit_rule None
        = Returns (result, None)).
Proof.
  unfold GetValue, GetRootValue. destruct (_type this).
  - destruct (GetValueFromXml_returns this value_type (GetName name Xml) true
                resolve_path) as (A & B & C).
    destruct (GetValueFromXml_returns this value_type "" false resolve_path)
      as (A' & B' & _).
    exact (conj (fun previous => conj (A previous) (A' previous))
                (conj B (conj B' C))).
  - destruct (GetValueFromJson_returns this value_type (GetName name Json_) true
                resolve_path omit_rule) as (A & B & C).
    destruct (GetValueFromJson_returns this value_type "" false resolve_path
                omit_rule) as (A' & B' & _).
    exact (conj (fun previous => conj (A previous) (A' previous))
                (conj B (conj B' C))).
Qed.

(** X18. Reading an item and then the root value of the data source it
    gives is reading the value directly: for the value types converted from
    one text or one JSON value, both ways return the same value and write
    the same original value. *)
Theorem item_then_root_value_is_the_child_value (this item : DataSource)
    (value_type : ValueType.t) (name : ItemName) (resolve_path : bool)
    (omit_rule : OmitRule) (previous : Json) (written : option Json) :
  leaf_type value_type = true ->
  GetValue this ValueType.Item name resolve_path omit_rule (Some previous)
  = Returns (any_DataSource item, written) ->
  forall resolve_path' omit_rule' original_value,
    GetRootValue item value_type resolve_path' omit_rule' original_value
    = GetValue this value_type name resolve_path' omit_rule' original_value.
Proof.
  intros L H resolve_path' omit_rule' original_value.
  unfold GetValue, GetRootValue in *. destruct (_type this) eqn:T.
  - simpl GetName in *. unfold GetValueFromXml in H. simpl in H.
    destruct (node_child (_node this) (xml_name name)) as [node|] eqn:C;
      [|discriminate H].
    simpl in H. injection H as <- _. unfold GetValueFromXml. simpl.
    rewrite C. now destruct value_type.
  - simpl GetName in *. unfold GetValueFromJson in H. simpl in H.
    destruct (isNull (GetJsonValue (_json this) (json_name name))) eqn:N;
      [discriminate H|].
    injection H as <- _. unfold GetValueFromJson. simpl.
    now destruct value_type.
Qed.

Lemma find_existsb {A} (f : A -> bool) (l : list A) :
  match find f l with Some _ => false | None => true end = negb (existsb f l).
Proof.
  induction l as [|x l IH]; simpl; [reflexivity|]. now destruct (f x).
Qed.

(** In XML a value is absent when the handle the reader gets is null. *)
Lemma absent_xml (this : DataSource) (value_type : ValueType.t) (name : ItemName) :
  _type this = Xml ->
  absent this value_type name
  = match value_type with
    | ValueType.Attribute =>
        attribute_empty (node_attribute (_node this) (xml_name name))
    | _ => node_empty (node_child (_node this) (xml_name name))
    end.
Proof.
  intros T. unfold absent. rewrite T.
  assert (N : negb (existsb (named (xml_name name)) (node_children (_node this)))
              = node_empty (node_child (_node this) (xml_name name))).
  { symmetry. apply find_existsb. }
  destruct value_type; try exact N.
  unfold node_attribute, attribute_empty.
  destruct (_node this) as [[nm attrs cs|v]|]; try reflexivity.
  symmetry. apply find_existsb.
Qed.

(** X19. From an XML source a scalar value comes back empty only when the
    child element or the attribute is absent: an element that is there is
    converted even when it has no text. *)
Theorem xml_value_is_empty_only_when_absent (this : DataSource)
    (value_type : ValueType.t) (name : ItemName) (resolve_path : bool)
    (omit_rule : OmitRule) (previous : Json) :
  _type this = Xml ->
  scalar_type value_type = true ->
  (exists written,
     GetValue this value_type name resolve_path omit_rule (Some previous)
     = Returns (any_empty, written))
  <-> absent this value_type name = true.
Proof.
  intros T S. rewrite (absent_xml this value_type name T).
  unfold GetValue. rewrite T. simpl GetName. unfold GetValueFromXml.
  destruct value_type; try discriminate S; simpl;
    match goal with
    | |- context [node_empty ?n] => destruct (node_empty n)
    | |- context [attribute_empty ?a] => destruct (attribute_empty a)
    end;
    (split; [try reflexivity; now intros (? & ?) | try discriminate; now eexists]).
Qed.

Lemma GetJsonValue_member (json : Json) (name : string) :
  GetJsonValue json name = member json name.
Proof.
  unfold GetJsonValue. destruct json as [| | | | | |members]; try reflexivity.
  cbn [isObject]. destruct (isMember (objectValue members) name) eqn:M;
    [reflexivity|].
  simpl in *. now rewrite (find_absent _ _ M).
Qed.

(** X20. From a JSON source a value converted from one JSON value comes
    back empty exactly when the member is null: a member that is written
    as [null] reads as one that is not there, and every other member is
    converted. *)
Theorem json_value_is_empty_exactly_when_null (this : DataSource)
    (value_type : ValueType.t) (name : ItemName) (resolve_path : bool)
    (omit_rule : OmitRule) (previous : Json) :
  _type this = Json_ ->
  leaf_type value_type = true ->
  (exists written,
     GetValue this value_type name resolve_path omit_rule (Some previous)
     = Returns (any_empty, written))
  <-> member (_json this) (json_name name) = nullValue.
Proof.
  intros T L. unfold GetValue. rewrite T. simpl GetName.
  unfold GetValueFromJson. rewrite GetJsonValue_member.
  destruct (member (_json this) (json_name name));
    destruct value_type; try discriminate L; simpl;
    (split; [try reflexivity; now intros (? & ?) | try discriminate; now eexists]).
Qed.

(** X21. A data source that was loaded from a file has the type asked for,
    the file name that was loaded and the directory of that file as current
    path. An XML source has the document of the file and, as its node, a
    top-level element of the root name. A JSON source has the value read
    from the file, and the root name was not looked at: any other root name
    loads the same source. *)
Theorem loaded_source_holds_what_was_asked (type : DataType)
    (current_path file_name : string) (root_name : ItemName) (loaded : DataSource) :
  DataSource_of_file type current_path file_name root_name = Returns loaded ->
  _type loaded = type
  /\ _current_path loaded = ExtractPath (_file_name loaded)
  /\ (IsAbsolute file_name = true -> _file_name loaded = file_name)
  /\ match type with
     | Xml =>
         exists document attributes children,
           load_file (_file_name loaded) = inr document
           /\ _document loaded = Some document
           /\ _node loaded = Some (element (xml_name root_name) attributes children)
           /\ In (element (xml_name root_name) attributes children)
                (node_children (Some document))
     | Json_ =>
         json_file (_file_name loaded) = Some (inr (_json loaded))
         /\ forall other_name,
              DataSource_of_file Json_ current_path file_name other_name
              = Returns loaded
     end.
Proof.
  unfold DataSource_of_file, LoadFromFile.
  set (file := if negb (IsAbsolute file_name) then _ else file_name).
  assert (A : IsAbsolute file_name = true -> file = file_name).
  { intros I. subst file. now rewrite I. }
  destruct type; cbn [_type GetName].
  - unfold LoadFromXmlFile.
    destruct (load_file file) as [why|document] eqn:Ld; [discriminate|].
    destruct (node_child (Some document) (xml_name root_name)) as [node|] eqn:C;
      [|discriminate].
    cbn [node_empty]. intros [= <-]. cbn. repeat split; try assumption.
    apply find_some in C. destruct C as [I N].
    destruct node as [nm attrs cs|v]; [|discriminate N].
    apply String.eqb_eq in N. subst nm.
    exists document, attrs, cs. now repeat split.
  - unfold LoadFromJson.
    destruct (json_file file) as [[what|json]|] eqn:Ld; try discriminate.
    intros [= <-]. cbn. now repeat split.
Qed.

End ItemFacts.

(* ================================================================== *)
(** * The play list as a format string *)
(* ================================================================== *)
Section EscapeFacts.

Import Escape.

Context {ext : Externals}.

Lemma FormatString_cons (c : ascii) (rest : string) (args : list FormatArg) :
  FormatString (String c rest) args
  = if Ascii.eqb c "%" then
      match rest with
      | EmptyString => None
      | String d rest' =>
          if Ascii.eqb d "s" then
            match args with
            | ArgS a :: args' =>
                option_map (String.append a) (FormatString rest' args')
            | _ => None
            end
          else if Ascii.eqb d "u" then
            match args with
            | ArgU n :: args' =>
                option_map (String.append (show_N n)) (FormatString rest' args')
            | _ => None
            end
          else if Ascii.eqb d "%" then
            option_map (String "%") (FormatString rest' args)
          else None
      end
    else option_map (String c) (FormatString rest args).
Proof. reflexivity. Qed.

Lemma escaped_cons (c : ascii) (rest : string) :
  escaped (String c rest)
  = if Ascii.eqb c "%" then
      match rest with
      | EmptyString => false
      | String d rest' => Ascii.eqb d "%" && escaped rest'
      end
    else escaped rest.
Proof. reflexivity. Qed.

Lemma collapse_cons (c : ascii) (rest : string) :
  collapse (String c rest)
  = if Ascii.eqb c "%" then
      match rest with
      | EmptyString => String c EmptyString
      | String d rest' => String "%" (collapse rest')
      end
    else String c (collapse rest).
Proof. reflexivity. Qed.

(** Induction over a text one or two characters at a time. *)
Lemma string_pair_ind (P : string -> Prop) :
  P EmptyString ->
  (forall c, P (String c EmptyString)) ->
  (forall c d s, P s -> P (String d s) -> P (String c (String d s))) ->
  forall s, P s.
Proof.
  intros H0 H1 H2 s.
  assert (B : P s /\ forall c, P (String c s)).
  { induction s as [|d s [IH IHc]]; [now split|].
    split; [apply IHc|]. intros c. apply H2; [exact IH | apply IHc]. }
  exact (proj1 B).
Qed.

(** A text whose percent signs are in pairs is written with one percent
    sign per pair, takes no argument, and the format goes on after it. *)
Lemma FormatString_escaped (X fmt : string) (args : list FormatArg) :
  escaped X = true ->
  FormatString (X ++ fmt) args
  = option_map (String.append (collapse X)) (FormatString fmt args).
Proof.
  induction X as [|c|c d X IH IHd] using string_pair_ind; intros E.
  - cbn [String.append collapse]. now destruct (FormatString fmt args).
  - rewrite escaped_cons in E. cbn [String.append].
    rewrite FormatString_cons, collapse_cons.
    destruct (Ascii.eqb c "%"); [discriminate E|].
    now destruct (FormatString fmt args).
  - rewrite escaped_cons in E. cbn [String.append].
    rewrite FormatString_cons, collapse_cons.
    destruct (Ascii.eqb c "%").
    + apply andb_true_iff in E. destruct E as [D E].
      apply Ascii.eqb_eq in D. subst d.
      change (Ascii.eqb "%" "s") with false.
      change (Ascii.eqb "%" "u") with false.
      change (Ascii.eqb "%" "%") with true. cbv iota.
      rewrite (IH E). now destruct (FormatString fmt args).
    + change (String d (X ++ fmt)) with (String d X ++ fmt).
      rewrite (IHd E). now destruct (FormatString fmt args).
Qed.

Lemma escaped_app (a b : string) :
  escaped a = true -> escaped (a ++ b) = escaped b.
Proof.
  induction a as [|c|c d a IH IHd] using string_pair_ind; intros E.
  - reflexivity.
  - rewrite escaped_cons in E. cbn [String.append]. rewrite escaped_cons.
    now destruct (Ascii.eqb c "%").
  - rewrite escaped_cons in E. cbn [String.append]. rewrite escaped_cons.
    destruct (Ascii.eqb c "%").
    + apply andb_true_iff in E. destruct E as [D E]. now rewrite D, (IH E).
    + exact (IHd E).
Qed.

Lemma escaped_str (os : ostringstream) :
  forallb escaped os = true -> escaped (str os) = true.
Proof.
  induction os as [|piece os IH]; simpl; intros E; [reflexivity|].
  apply andb_true_iff in E. destruct E as [E1 E2].
  now rewrite (escaped_app _ _ E1), (IH E2).
Qed.

Lemma percent_free_escaped (s : string) :
  percent_free s = true -> escaped s = true.
Proof.
  induction s as [|c s IH]; [reflexivity|].
  cbn [percent_free]. rewrite escaped_cons. intros E.
  apply andb_true_iff in E. destruct E as [C E].
  apply negb_true_iff in C. rewrite C. exact (IH E).
Qed.

(** Collapsing never lengthens a text, and shortens one that holds a pair. *)
Lemma collapse_length (X : string) :
  escaped X = true ->
  (String.length (collapse X) + (if percent_free X then 0 else 1)
   <= String.length X)%nat.
Proof.
  induction X as [|c|c d X IH IHd] using string_pair_ind; intros E.
  - simpl. lia.
  - rewrite escaped_cons in E. rewrite collapse_cons. cbn [percent_free].
    destruct (Ascii.eqb c "%"); [discriminate E|]. simpl. lia.
  - rewrite escaped_cons in E. rewrite collapse_cons.
    cbn [percent_free] in *. destruct (Ascii.eqb c "%"); cbn [negb andb].
    + apply andb_true_iff in E. destruct E as [_ E].
      specialize (IH E). cbn [String.length].
      destruct (percent_free X); lia.
    + specialize (IHd E). cbn [String.length] in *.
      destruct (negb (Ascii.eqb d "%") && percent_free X); lia.
Qed.

Lemma clean_fields (p : CmafPacketyzer) :
  clean p = true ->
  escaped (_segment_prefix (settings p)) = true
  /\ escaped (_start_time (settings p)) = true
  /\ escaped (_pixel_aspect_ratio (settings p)) = true
  /\ escaped CMAF_MPD_VIDEO_FULL_SUFFIX = true
  /\ escaped CMAF_MPD_AUDIO_FULL_SUFFIX = true
  /\ escaped CMAF_MPD_VIDEO_FULL_INIT_FILE_NAME = true
  /\ escaped CMAF_MPD_AUDIO_FULL_INIT_FILE_NAME = true.
Proof.
  unfold clean. rewrite !andb_true_iff. tauto.
Qed.

Lemma escaped_show_Z (z : Z) : escaped (show_Z z) = true.
Proof. apply percent_free_escaped, percent_free_show_Z. Qed.

Lemma escaped_show_fixed3 (d : double) : escaped (show_fixed3 d) = true.
Proof. apply percent_free_escaped, percent_free_show_fixed3. Qed.

(** Every inserted piece is a literal without percent sign, a number, or one
    of the clean strings. *)
Ltac clean_pieces :=
  cbn [forallb];
  rewrite ?escaped_show_Z, ?escaped_show_fixed3;
  repeat match goal with
  | H : escaped ?x = true |- context [escaped ?x] => rewrite H
  end;
  reflexivity.

Lemma escaped_before_utc_value (w : World) (p : CmafPacketyzer) :
  clean p = true ->
  escaped (MakeUtcSecond (time w)) = true ->
  escaped (before_utc_value w p) = true.
Proof.
  intros P T. destruct (clean_fields p P) as (? & ? & ? & ? & ? & ? & ?).
  unfold before_utc_value.
  rewrite escaped_app; [reflexivity|].
  apply escaped_str. rewrite !forallb_app.
  assert (A : forallb escaped (mpd_attributes p 6%float) = true)
    by (unfold mpd_attributes; clean_pieces).
  assert (V : forallb escaped (video_listing p) = true).
  { unfold video_listing.
    destruct (1 <? _video_sequence_number p)%N; [|reflexivity].
    destruct (_video_track (settings p)) as [track|]; [|reflexivity].
    unfold video_adaptation_set. clean_pieces. }
  assert (U : forallb escaped (audio_listing p) = true).
  { unfold audio_listing.
    destruct (1 <? _audio_sequence_number p)%N; [|reflexivity].
    destruct (_audio_track (settings p)) as [track|]; [|reflexivity].
    unfold audio_adaptation_set. clean_pieces. }
  rewrite A, V, U. cbn [forallb]. rewrite T. reflexivity.
Qed.

Ltac falsum := repeat (rewrite andb_false_l || rewrite andb_false_r).

Ltac cases :=
  repeat match goal with
  | H : context [has ?x] |- _ => destruct (has x)
  | H : context [(?a <? ?b)%N] |- _ => destruct (a <? b)%N
  | H : context [(?a <=? ?b)%Z] |- _ => destruct (a <=? b)%Z
  end; simpl in *; try discriminate.

(** A listed track puts the segment prefix into the play list. *)
Lemma prefix_in_before_utc_value (w : World) (p : CmafPacketyzer) :
  consistent p = true ->
  (1 <? _video_sequence_number p)%N || (1 <? _audio_sequence_number p)%N = true ->
  percent_free (_segment_prefix (settings p)) = false ->
  percent_free (before_utc_value w p) = false.
Proof.
  intros C S P. unfold before_utc_value.
  rewrite percent_free_app, percent_free_str, !forallb_app.
  assert (L : forallb percent_free (video_listing p) = false
              \/ forallb percent_free (audio_listing p) = false).
  { unfold consistent in C. unfold video_listing, audio_listing.
    destruct (1 <? _video_sequence_number p)%N.
    - left. destruct (_video_track (settings p)) as [track|].
      + unfold video_adaptation_set. cbv zeta. cbn [forallb]. rewrite P.
        falsum. reflexivity.
      + exfalso. clear - C. simpl in C. cases.
    - right. simpl in S. rewrite S in *.
      destruct (_audio_track (settings p)) as [track|].
      + unfold audio_adaptation_set. cbv zeta. cbn [forallb]. rewrite P.
        falsum. reflexivity.
      + exfalso. clear - C. simpl in C. cases. }
  destruct L as [L|L]; rewrite L; falsum; reflexivity.
Qed.

Lemma reachable_settings (p0 p : CmafPacketyzer) :
  reachable p0 p -> settings p = settings p0.
Proof.
  intros R. induction R as [|p p' c answer events R IH H]; [reflexivity|].
  apply call_effect in H.
  now rewrite (effect_settings c p p' answer events H).
Qed.

(** X22. [GetPlayList] uses the cached play list as a format string, and
    the segment prefix is part of that text. When the percent signs of the
    strings written into the play list come in pairs, every request is
    answered, with one percent sign for each pair; with such a pair in the
    segment prefix the text served is shorter than the text cached, and the
    media template it carries is not the prefix the segments are named
    with. *)
Theorem doubled_percent_signs_are_served_single
    (start_time par : string) (keep : nat) (app stream prefix : string)
    (count : N) (seg_duration : Z) (video_track audio_track : option MediaTrack)
    (chunked_transfer : bool) (p : CmafPacketyzer) :
  let p0 := new_CmafPacketyzer start_time par keep app stream prefix count
              seg_duration video_track audio_track chunked_transfer in
  reachable p0 p ->
  _streaming_start p = true ->
  clean p = true ->
  (forall t, escaped (MakeUtcSecond t) = true) ->
  exists wc,
    _play_list p = rendered wc p
    /\ (forall w play_list,
          GetPlayList w play_list p
          = Some ((true, collapse (before_utc_value wc p)
                         ++ MakeUtcMillisecond (clock_ms w) ++ after_utc_value),
                  p, []))
    /\ (percent_free prefix = false ->
        (String.length (collapse (before_utc_value wc p))
         < String.length (before_utc_value wc p))%nat).
Proof.
  intros p0 R Started P T.
  assert (I : invariant p)
    by (apply (invariant_reachable p0); [apply invariant_new | exact R]).
  destruct I as (C & _ & _ & St & L & _).
  destruct (L Started) as [wc Lc]. exists wc.
  pose proof (escaped_before_utc_value wc p P (T (time wc))) as E.
  split; [exact Lc|]. split.
  - intros w play_list.
    rewrite GetPlayList_eq, Started, Lc, rendered_split.
    rewrite (FormatString_escaped _ _ _ E).
    change ("%s" ++ after_utc_value) with (String "%" (String "s" after_utc_value)).
    rewrite FormatString_cons.
    change (Ascii.eqb "%" "%") with true. change (Ascii.eqb "s" "s") with true.
    cbv iota.
    now rewrite (FormatString_no_conversion after_utc_value [] eq_refl).
  - intros Pf.
    assert (Pp : percent_free (_segment_prefix (settings p)) = false).
    { now rewrite (reachable_settings p0 p R). }
    rewrite Started in St. symmetry in St.
    pose proof (prefix_in_before_utc_value wc p C St Pp) as B.
    pose proof (collapse_length _ E) as H. rewrite B in H. lia.
Qed.

End EscapeFacts.

(* ================================================================== *)
(** * The further properties on the scenario *)
(* ================================================================== *)
Section MoreScenarioFacts.

Import Scenario Macro Track Items.

#[local] Existing Instance externals.
#[local] Existing Instance library.
#[local] Existing Instance process.

(** A macro that is opened and never closed stays as it is. *)
Lemma unclosed_macro_on_scenario :
  PreprocessForEnv "${env:OME_HOME/conf" = "${env:OME_HOME/conf".
Proof.
  exact (text_without_macro_is_kept "${env:OME_HOME/conf" (or_intror eq_refl)).
Defined.

(** The value of [NESTED] holds a macro, which is put in as it is. *)
Lemma nested_macro_on_scenario :
  PreprocessForEnv "Path=${env:NESTED}/conf" = "Path=${env:OME_HOME}/conf"
  /\ PreprocessForEnv "Path=${env:NESTED:/usr}/conf" = "Path=${env:OME_HOME}/conf".
Proof.
  exact (set_variable_replaces_macro "Path=" "NESTED" "/usr" "/conf"
           "${env:OME_HOME}" eq_refl eq_refl eq_refl eq_refl eq_refl).
Defined.

(** [OME_LOG] is not set: the default [a:b] is taken, colon included. *)
Lemma default_on_scenario :
  PreprocessForEnv "Log=${env:OME_LOG:a:b};" = "Log=a:b;"
  /\ PreprocessForEnv "Log=${env:OME_LOG};" = "Log=;".
Proof.
  apply (unset_variable_takes_default "Log=" "OME_LOG" "a:b" ";");
    try reflexivity; discriminate.
Defined.

Lemma hostname_on_scenario :
  PreprocessForEnv "${env:HOSTNAME:localhost}" = "origin1".
Proof.
  exact (hostname_macro_reads_the_host_name "" "localhost" "" eq_refl eq_refl
           eq_refl).
Defined.

(** Before and after two appends the open video segment has the same name,
    and the same number. *)
Lemma file_names_on_scenario :
  sequence_number Video filled = sequence_number Video packetizer.
Proof.
  exact (file_names_do_not_collide Video 0 5 packetizer filled
           "cmaf_1_video.m4s" eq_refl eq_refl eq_refl).
Defined.

Lemma null_sink_on_scenario :
  filter is_sink_event [Logtd TryingToUpdatePlaylist] = [].
Proof.
  exact (null_sink_is_never_notified (FinalizeVideo (at_clock 4000 true))
           without_sink_filled without_sink_started true
           [Logtd TryingToUpdatePlaylist] eq_refl eq_refl).
Defined.

Lemma second_finalize_on_scenario :
  FinalizeSegment Video (at_clock 5000 true) started
  = Some (true, started, [Logtd NoVideoData]).
Proof.
  exact (second_finalize_finds_nothing Video (at_clock 4000 true)
           (at_clock 5000 true) filled started true
           [Logtd TryingToUpdatePlaylist;
            OnCmafChunkedComplete "app" "stream" "cmaf_1_video.m4s" true]
           eq_refl).
Defined.

(** The chunks of the two video samples and the completion of the first
    video segment carry the same name. *)
Lemma chunk_names_on_scenario :
  (forall name,
     In name (pushed_names Video
                [OnCmafChunkDataPush "app" "stream" "cmaf_1_video.m4s" true [Byte.x2a];
                 OnCmafChunkDataPush "app" "stream" "cmaf_1_audio.m4s" false [Byte.x2a];
                 OnCmafChunkDataPush "app" "stream" "cmaf_1_video.m4s" true [Byte.x2a]]) ->
     name = segment_name Video packetizer)
  /\ (forall name,
        In name (completed_names
                   [Logtd TryingToUpdatePlaylist;
                    Logtd (TimeDifference (-1000) 0 1000);
                    OnCmafChunkedComplete "app" "stream" "cmaf_1_video.m4s" true]) ->
        name = segment_name Video packetizer)
  /\ (In Video (map fst frames) ->
      true = true ->
      _chunked_transfer (settings packetizer) = true ->
      completed_names
        [Logtd TryingToUpdatePlaylist;
         Logtd (TimeDifference (-1000) 0 1000);
         OnCmafChunkedComplete "app" "stream" "cmaf_1_video.m4s" true]
      = [segment_name Video packetizer]).
Proof.
  exact (chunk_pushes_name_the_segment_being_finalized Video frames
           (at_clock 4000 true) packetizer both_filled both_started tt true
           [OnCmafChunkDataPush "app" "stream" "cmaf_1_video.m4s" true [Byte.x2a];
            OnCmafChunkDataPush "app" "stream" "cmaf_1_audio.m4s" false [Byte.x2a];
            OnCmafChunkDataPush "app" "stream" "cmaf_1_video.m4s" true [Byte.x2a]]
           [Logtd TryingToUpdatePlaylist;
            Logtd (TimeDifference (-1000) 0 1000);
            OnCmafChunkedComplete "app" "stream" "cmaf_1_video.m4s" true]
           eq_refl eq_refl).
Defined.

(** On the audio-only stream the video callback and the video segment
    writer do not return. *)
Lemma video_call_on_audio_only_stream :
  ((exists r p' events,
      append_callback Video (sample 0) audio_filled = Some (r, p', events))
   <-> has (track Video (settings audio_only)) = true)
  /\ ((exists answer p' events,
         FinalizeSegment Video (at_clock 4000 true) audio_filled
         = Some (answer, p', events))
      <-> has (track Video (settings audio_only)) = true).
Proof.
  exact (call_returns_exactly_on_a_configured_track
           "1970-01-01T00:00:00Z" "16:9" 3 "app" "stream" "cmaf" 1 2
           None (Some audio) true Video audio_filled (sample 0)
           (at_clock 4000 true) audio_filled_reachable).
Defined.

(** The two hosts of the scenario, in XML. *)
Lemma xml_hosts_on_scenario :
  GetValue hosts_source ValueType.List (item "Host" "host") false DontOmit
    (Some nullValue)
  = Returns (any_vector
               [child_source hosts_source (element "Host" [] [pcdata "a"]);
                child_source hosts_source (element "Host" [] [pcdata "b"])],
             Some (arrayValue [stringValue "a"; stringValue "b"]))
  /\ forall original_value written,
       GetValue hosts_source ValueType.List (item "Host" "host") false DontOmit
         original_value
       <> Returns (any_vector [], written).
Proof.
  exact (xml_list_lists_the_named_children hosts_source (item "Host" "host")
           false DontOmit nullValue eq_refl eq_refl).
Defined.

(** The two hosts of the scenario, as a JSON array. *)
Lemma json_hosts_on_scenario :
  GetValue hosts_array_source ValueType.List (item "Host" "host") false DontOmit
    (Some nullValue)
  = Returns (any_vector
               [member_source hosts_array_source "host" (stringValue "a");
                member_source hosts_array_source "host" (stringValue "b")],
             Some (arrayValue hosts_array)).
Proof.
  exact (json_array_is_listed_as_it_is hosts_array_source (item "Host" "host")
           false DontOmit nullValue hosts_array eq_refl eq_refl).
Defined.

(** The two hosts of the scenario, as a member of a JSON object. *)
Lemma omit_rule_on_scenario :
  GetValue hosts_object_source ValueType.List (item "Host" "host") false Omit
    (Some nullValue)
  = Returns (any_vector
               [member_source hosts_object_source "host" (stringValue "a");
                member_source hosts_object_source "host" (stringValue "b")],
             Some (arrayValue hosts_array))
  /\ GetValue hosts_object_source ValueType.List (item "Host" "host") false
       DontOmit (Some nullValue)
     = Returns (any_vector
                  [member_source hosts_object_source "host" (arrayValue hosts_array)],
                Some (arrayValue [arrayValue hosts_array])).
Proof.
  exact (omit_rule_decides_how_an_array_member_is_listed hosts_object_source
           (item "Host" "host") false nullValue hosts_array eq_refl eq_refl).
Defined.

(** The port of the scenario, a number, read as a list. *)
Lemma scalar_member_on_scenario :
  GetValue hosts_object_source ValueType.List (item "Port" "port") false Omit
    (Some (stringValue "before"))
  = Returns (any_empty, Some (stringValue "before"))
  /\ GetValue hosts_object_source ValueType.List (item "Port" "port") false
       DontOmit (Some (stringValue "before"))
     = Returns (any_vector [member_source hosts_object_source "port" (intValue 80)],
                Some (arrayValue [intValue 80])).
Proof.
  exact (omit_rule_drops_a_scalar_member hosts_object_source (item "Port" "port")
           false (stringValue "before") eq_refl eq_refl).
Defined.

(** The port of the scenario, read through its item and read directly. *)
Lemma item_then_root_on_scenario :
  GetRootValue (child_source hosts_source (element "Port" [] [pcdata "80"]))
    ValueType.Integer false DontOmit (Some nullValue)
  = GetValue hosts_source ValueType.Integer (item "Port" "port") false DontOmit
      (Some nullValue)
  /\ GetValue hosts_source ValueType.Integer (item "Port" "port") false DontOmit
       (Some nullValue)
     = Returns (any_int32 80, Some (stringValue "80")).
Proof.
  exact (conj
           (item_then_root_value_is_the_child_value hosts_source
              (child_source hosts_source (element "Port" [] [pcdata "80"]))
              ValueType.Integer (item "Port" "port") false DontOmit nullValue
              (Some (objectValue [])) eq_refl eq_refl
              false DontOmit (Some nullValue))
           eq_refl).
Defined.

(** The server of the scenario has a name and no port of its own. *)
Lemma xml_presence_on_scenario :
  (exists written,
     GetValue xml_source ValueType.String (item "Name" "name") false DontOmit
       (Some nullValue)
     = Returns (any_empty, written))
  <-> absent xml_source ValueType.String (item "Name" "name") = true.
Proof.
  exact (xml_value_is_empty_only_when_absent xml_source ValueType.String
           (item "Name" "name") false DontOmit nullValue eq_refl eq_refl).
Defined.

Lemma json_presence_on_scenario :
  (exists written,
     GetValue json_source ValueType.String (item "Name" "name") false DontOmit
       (Some nullValue)
     = Returns (any_empty, written))
  <-> member (_json json_source) "name" = nullValue.
Proof.
  exact (json_value_is_empty_exactly_when_null json_source ValueType.String
           (item "Name" "name") false DontOmit nullValue eq_refl eq_refl).
Defined.

(** The source loaded from [/etc/Server.xml] with root [Server]. *)
Lemma loaded_server_on_scenario :
  _type loaded_server = Xml
  /\ _current_path loaded_server = ExtractPath (_file_name loaded_server)
  /\ (IsAbsolute "/etc/Server.xml" = true
      -> _file_name loaded_server = "/etc/Server.xml")
  /\ exists document attributes children,
       load_file (_file_name loaded_server) = inr document
       /\ _document loaded_server = Some document
       /\ _node loaded_server = Some (element "Server" attributes children)
       /\ In (element "Server" attributes children)
            (node_children (Some document)).
Proof.
  exact (loaded_source_holds_what_was_asked Xml "" "/etc/Server.xml"
           (item "Server" "server") loaded_server eq_refl).
Defined.

(** The play list of the scenario is the one rendered by the video segment
    write at clock 4000, the last that stored a segment. *)
Lemma cached_manifest_on_scenario :
  exists mt wc p p1 writer events,
    reachable packetizer p
    /\ chunk_writer mt p = Some writer
    /\ GetSampleCount writer <> 0%N
    /\ FinalizeSegment mt wc p = Some (true, p1, events)
    /\ since_stored p1 started
    /\ _play_list p1 = rendered wc p1
    /\ _play_list started = _play_list p1
    /\ before_utc_value wc started = before_utc_value wc p1
    /\ before_utc_value wc started
       = str (mpd_open 30%float) ++ MakeUtcSecond (time wc)
         ++ str (mpd_attributes started 6%float ++ video_listing started
                 ++ audio_listing started ++ [period_close])%list
         ++ utc_timing_open
    /\ forall w play_list,
         GetPlayList w play_list started
         = Some ((true, before_utc_value wc started ++ MakeUtcMillisecond (clock_ms w)
                        ++ after_utc_value), started, []).
Proof.
  exact (manifest_served_from_cache
           "1970-01-01T00:00:00Z" "16:9" 3 "app" "stream" "cmaf" 1 2
           (Some video) (Some audio) true started
           started_reachable eq_refl eq_refl scenario_time_is_plain).
Defined.


Lemma percent_started_reachable :
  reachable (percent_stream "50%%") (percent_started "50%%").
Proof.
  eapply reachable_call with (c := FinalizeVideo (at_clock 4000 true)).
  - eapply reachable_call with (c := AppendVideo (sample 0)).
    + apply reachable_new.
    + reflexivity.
  - reflexivity.
Defined.

Lemma scenario_time_is_escaped (t : Z) : Escape.escaped (MakeUtcSecond t) = true.
Proof. apply percent_free_escaped, scenario_time_is_plain. Qed.

(** With the prefix [50%%] the play list is served with [50%]. *)
Lemma doubled_percent_on_scenario :
  exists wc,
    _play_list (percent_started "50%%") = rendered wc (percent_started "50%%")
    /\ (forall w play_list,
          GetPlayList w play_list (percent_started "50%%")
          = Some ((true, Escape.collapse (before_utc_value wc (percent_started "50%%"))
                         ++ MakeUtcMillisecond (clock_ms w) ++ after_utc_value),
                  percent_started "50%%", []))
    /\ (percent_free "50%%" = false ->
        (String.length (Escape.collapse (before_utc_value wc (percent_started "50%%")))
         < String.length (before_utc_value wc (percent_started "50%%")))%nat).
Proof.
  exact (doubled_percent_signs_are_served_single
           "1970-01-01T00:00:00Z" "16:9" 3 "app" "stream" "50%%" 1 2
           (Some video) (Some audio) true (percent_started "50%%")
           percent_started_reachable eq_refl eq_refl scenario_time_is_escaped).
Defined.

(** The segments of that stream are named with the prefix as it is. *)
Example doubled_percent_file_name :
  GetFileName 0 Video (percent_stream "50%%")
  = Some ("50%%_1_video.m4s", percent_stream "50%%", []).
Proof. reflexivity. Qed.

End MoreScenarioFacts.
